(** * llm-serving-tests: the stream reconstructor and the eval runner

    A shallow embedding of [internal/client] (the SSE stream parser
    [parseSSEStream] with its [toolCallBuilder]) and of [internal/eval]
    (class matching, selection, mode expansion, the sequential runner and
    the worker pool of [runParallel]), with the properties the
    specification states about them.

    Go values are modelled as follows: [int] and [int64] as [Z], [string] as
    [string], slices as lists ([nil] is the nil slice), a pointer that may be
    nil as [option], [map[int]*toolCallBuilder] as [gmap Z toolCallBuilder]
    (an update through the stored pointer is an insertion at the same key),
    [error] as the message it carries. *)

From stdpp Require Import gmap strings list fin_maps sorting.
From Stdlib Require Import ZArith.

Local Open Scope Z_scope.

(** ** Strings: the three functions of package [strings] the code calls *)

(** [strings.HasPrefix s prefix]. *)
Definition HasPrefix (s prefix : string) : bool := String.prefix prefix s.

(** [strings.TrimPrefix s prefix]: [s] without the leading [prefix], or [s]
    itself when it does not start with it. *)
Definition TrimPrefix (s prefix : string) : string :=
  if HasPrefix s prefix
  then String.substring (String.length prefix)
         (String.length s - String.length prefix)%nat s
  else s.

(** [strings.Contains s substr]. *)
Fixpoint Contains (s substr : string) : bool :=
  String.prefix substr s ||
  match s with
  | EmptyString => false
  | String _ s' => Contains s' substr
  end.

(** The one-character string of a line feed, Go's ["\n"]. *)
Definition newline : string := String (Ascii.ascii_of_nat 10) EmptyString.

(** A Go [error], by its message. *)
Definition error := string.

(** ** internal/client: wire types (types.go) *)

Module Usage.
Record t := mk
  { PromptTokens : Z; CompletionTokens : Z; TotalTokens : Z }.
End Usage.
Definition Usage := Usage.t.

Module ToolCallFunctionDelta.
Record t := mk { Name : string; Arguments : string }.
End ToolCallFunctionDelta.
Definition ToolCallFunctionDelta := ToolCallFunctionDelta.t.

Module ToolCallDelta.
Record t := mk
  { Index : Z; ID : string; Type_ : string;
    Function : ToolCallFunctionDelta }.
End ToolCallDelta.
Definition ToolCallDelta := ToolCallDelta.t.

Module ChunkDelta.
Record t := mk
  { Role : string; Content : string; ReasoningContent : string;
    ToolCalls : list ToolCallDelta }.
End ChunkDelta.
Definition ChunkDelta := ChunkDelta.t.

Module ChunkChoice.
Record t := mk
  { Index : Z; Delta : ChunkDelta; FinishReason : option string }.
End ChunkChoice.
Definition ChunkChoice := ChunkChoice.t.

Module ChatCompletionChunk.
Record t := mk
  { ID : string; Object : string; Created : Z; Model : string;
    Choices : list ChunkChoice; Usage : option Usage }.
End ChatCompletionChunk.
Definition ChatCompletionChunk := ChatCompletionChunk.t.

Module ToolCallFunction.
Record t := mk { Name : string; Arguments : string }.
End ToolCallFunction.
Definition ToolCallFunction := ToolCallFunction.t.

Module ToolCall.
Record t := mk
  { ID : string; Type_ : string; Function : ToolCallFunction }.
End ToolCall.
Definition ToolCall := ToolCall.t.

(** [StreamResult] (client.go): what a streaming completion accumulates. *)
Module StreamResult.
Record t := mk
  { Content : string; ReasoningContent : string;
    ToolCalls : list ToolCall; Usage : option Usage;
    Chunks : list ChatCompletionChunk }.
End StreamResult.
Definition StreamResult := StreamResult.t.

(** ** toolCallBuilder *)

Record toolCallBuilder := mkBuilder
  { id : string; typ : string; name : string; arguments : string }.

(** [&toolCallBuilder{}]: every field at its zero value. *)
Definition newBuilder : toolCallBuilder := mkBuilder "" "" "" "".

(** [(b *toolCallBuilder).Accumulate(delta)]. *)
Definition Accumulate (b : toolCallBuilder) (delta : ToolCallDelta)
  : toolCallBuilder :=
  let b1 :=
    if decide (ToolCallDelta.ID delta ≠ "")
    then mkBuilder (ToolCallDelta.ID delta) (typ b) (name b) (arguments b)
    else b in
  let b2 :=
    if decide (ToolCallDelta.Type_ delta ≠ "")
    then mkBuilder (id b1) (ToolCallDelta.Type_ delta) (name b1) (arguments b1)
    else b1 in
  let b3 :=
    if decide (ToolCallFunctionDelta.Name (ToolCallDelta.Function delta) ≠ "")
    then mkBuilder (id b2) (typ b2)
           (ToolCallFunctionDelta.Name (ToolCallDelta.Function delta))
           (arguments b2)
    else b2 in
  mkBuilder (id b3) (typ b3) (name b3)
    (arguments b3 +:+
       ToolCallFunctionDelta.Arguments (ToolCallDelta.Function delta)).

(** [(b *toolCallBuilder).Build()]. *)
Definition Build (b : toolCallBuilder) : ToolCall :=
  ToolCall.mk (id b) (typ b)
    (ToolCallFunction.mk (name b) (arguments b)).

(** ** parseSSEStream *)

(** The [bufio.Scanner] over the reader, as the loop sees it: the tokens
    that successive calls of [Scan] deliver ([scanner.Text()], one per call
    that returns true), and what [scanner.Err()] reports after a given
    number of calls of [Scan]. Line splitting, the token size limit and
    read errors of the underlying reader all live behind these two. *)
Record Scanner := mkScanner
  { lines : list string; Err : nat → option error }.

(** The locals of [parseSSEStream] that the loop updates. *)
Record Locals := mkLocals
  { result : StreamResult;
    toolCallBuilders : gmap Z toolCallBuilder;
    rawChunks : string }.

Definition initLocals : Locals :=
  mkLocals (StreamResult.mk "" "" [] None []) ∅ "".

(** How one iteration of the scan loop ends. *)
Inductive Flow :=
| Continue
| Break
| Return (err : error).

(** The inner loop body, lines 252-257: route one tool-call delta to the
    builder stored under its index, creating it on first sight. *)
Definition routeToolCall (builders : gmap Z toolCallBuilder)
    (tc : ToolCallDelta) : gmap Z toolCallBuilder :=
  let builder :=
    match builders !! ToolCallDelta.Index tc with
    | Some builder => builder
    | None => newBuilder
    end in
  <[ToolCallDelta.Index tc := Accumulate builder tc]> builders.

(** The body of [for _, choice := range chunk.Choices], lines 244-258. *)
Definition processChoice (l : Locals) (choice : ChunkChoice) : Locals :=
  let delta := ChunkChoice.Delta choice in
  let r := result l in
  mkLocals
    (StreamResult.mk
       (StreamResult.Content r +:+ ChunkDelta.Content delta)
       (StreamResult.ReasoningContent r +:+ ChunkDelta.ReasoningContent delta)
       (StreamResult.ToolCalls r) (StreamResult.Usage r)
       (StreamResult.Chunks r))
    (foldl routeToolCall (toolCallBuilders l) (ChunkDelta.ToolCalls delta))
    (rawChunks l).

(** Lines 235-259: what the loop does with a chunk that decoded. *)
Definition processChunk (l : Locals) (chunk : ChatCompletionChunk) : Locals :=
  let r := result l in
  let usage :=
    match ChatCompletionChunk.Usage chunk with
    | Some u => Some u
    | None => StreamResult.Usage r
    end in
  let l1 :=
    mkLocals
      (StreamResult.mk (StreamResult.Content r)
         (StreamResult.ReasoningContent r) (StreamResult.ToolCalls r)
         usage (StreamResult.Chunks r ++ [chunk]))
      (toolCallBuilders l) (rawChunks l) in
  foldl processChoice l1 (ChatCompletionChunk.Choices chunk).

(** The final loop, lines 267-271: [i] runs from 0 while
    [i < len(toolCallBuilders)]. *)
Definition buildToolCalls (builders : gmap Z toolCallBuilder)
    (calls : list ToolCall) : list ToolCall :=
  foldl
    (λ calls i,
       match builders !! i with
       | Some builder => calls ++ [Build builder]
       | None => calls
       end)
    calls (seqZ 0 (Z.of_nat (size builders))).

Section ParseSSE.

(** [json.Unmarshal([]byte(data), &chunk)] of [encoding/json]: the decoded
    chunk, or the decoding error. *)
Variable json_Unmarshal : string → ChatCompletionChunk + error.

(** One iteration of [for scanner.Scan()], lines 217-259. *)
Definition loopBody (l : Locals) (line : string) : Locals * Flow :=
  let l :=
    mkLocals (result l) (toolCallBuilders l)
      ((rawChunks l +:+ line) +:+ newline) in
  if negb (HasPrefix line "data: ") then (l, Continue)
  else
    let data := TrimPrefix line "data: " in
    if decide (data = "[DONE]") then (l, Break)
    else
      match json_Unmarshal data with
      | inr err => (l, Return ("unmarshal chunk: " +:+ err))
      | inl chunk => (processChunk l chunk, Continue)
      end.

(** The scan loop. [calls] counts the calls of [scanner.Scan()] made so
    far; running out of tokens is the call that returns false. *)
Fixpoint scanLoop (tokens : list string) (calls : nat) (l : Locals)
  : Locals * nat * Flow :=
  match tokens with
  | [] => (l, S calls, Continue)
  | line :: rest =>
      match loopBody l line with
      | (l', Continue) => scanLoop rest (S calls) l'
      | (l', flow) => (l', S calls, flow)
      end
  end.

(** [parseSSEStream(r)]: the accumulated result (nil on error), the raw
    bytes read, and the error. *)
Definition parseSSEStream (scanner : Scanner)
  : option StreamResult * string * option error :=
  let '(l, calls, flow) := scanLoop (lines scanner) 0 initLocals in
  match flow with
  | Return err => (None, rawChunks l, Some err)
  | _ =>
      match Err scanner calls with
      | Some err => (None, rawChunks l, Some ("scan stream: " +:+ err))
      | None =>
          let r := result l in
          (Some
             (StreamResult.mk (StreamResult.Content r)
                (StreamResult.ReasoningContent r)
                (buildToolCalls (toolCallBuilders l)
                   (StreamResult.ToolCalls r))
                (StreamResult.Usage r) (StreamResult.Chunks r)),
           rawChunks l, None)
      end
  end.

(** The builders as they stand when the scan loop is left. *)
Definition finalBuilders (scanner : Scanner) : gmap Z toolCallBuilder :=
  toolCallBuilders (scanLoop (lines scanner) 0 initLocals).1.1.

End ParseSSE.

(** ** internal/log: the Logger the runner of this version drives (log.go) *)

Module logFile.
Record t := mk { name : string; buf : string }.
End logFile.
Definition logFile := logFile.t.

(** [Logger]: its directory, the log in progress ([current], nil when there
    is none), and the files [EndEval] has written so far, oldest first, each
    as the path and the bytes handed to [os.WriteFile]. The mutex has no
    field: every method holds it from entry to exit, so a method is one
    indivisible transition of the Logger. *)
Module Logger.
Record t := mk
  { dir : string; current : option logFile;
    written : list (string * string) }.
End Logger.
Definition Logger := Logger.t.

(** ** internal/eval: classes and modes (runner.go) *)

Definition ClassStandard : string := "standard".
Definition ClassReasoning : string := "reasoning".
Definition ClassInterleaved : string := "interleaved".

Definition StreamMode := string.
Definition ModeBlocking : StreamMode := "blocking".
Definition ModeStreaming : StreamMode := "streaming".
Definition ModeBoth : StreamMode := "both".

Definition AllModes : list string := [ModeBlocking; ModeStreaming; ModeBoth].
Definition AllClasses : list string :=
  [ClassStandard; ClassReasoning; ClassInterleaved].

(** [ClassMatches(evalClass, requestedClass)]. *)
Definition ClassMatches (evalClass requestedClass : string) : bool :=
  if decide (requestedClass = "") then true
  else if decide (evalClass = requestedClass) then true
  else if decide (requestedClass = ClassReasoning ∧ evalClass = ClassStandard)
  then true
  else if decide (requestedClass = ClassInterleaved ∧
                  (evalClass = ClassStandard ∨ evalClass = ClassReasoning))
  then true
  else false.

(** [Result]; [Duration] in nanoseconds, as [time.Duration]. *)
Module Result.
Record t := mk
  { Name : string; Category : string; Passed : bool; Message : string;
    Duration : Z }.
End Result.
Definition Result := Result.t.

(** A value of interface [Eval]: a pointer to a struct of one of the eval
    types. [ref] is the address it holds. [Name], [Category] and [Class]
    return the same strings throughout the life of the struct in every
    implementation.
    [streamModeEval] tells whether the type assertion [e.(StreamModeEval)]
    succeeds; [defaultDisabled] is [None] when [e.(DefaultDisabled)] fails
    and otherwise what [IsDefaultDisabled()] returns. [Run] is the case body,
    [Run(ctx, client)]: it reads the struct's [streaming] field, of which it
    is given the current value, and talks to the server, which lives in the
    world it is run in. The client the body calls holds the pointer to the
    Logger that the runner holds ([runEvals] hands the same one to both), and
    logs every request and response to it; [Logged] is what a call of the
    body logs, one block of text per call of a Logger method, in order. *)
Module Eval.
Record t {World : Type} := mk
  { ref : nat;
    Name : string; Category : string; Class : string;
    streamModeEval : bool;
    defaultDisabled : option bool;
    Run : bool → World → Result * World;
    Logged : bool → World → list string }.
Arguments t : clear implicits.
Arguments mk {World}.
End Eval.
Definition Eval : Type → Type := @Eval.t.

(** [IsDefaultDisabled(e)]. *)
Definition IsDefaultDisabled {World} (e : Eval World) : bool :=
  match Eval.defaultDisabled e with
  | Some dd => dd
  | None => false
  end.

(** [RunnerConfig], but for its [Logger] pointer, which is kept with the
    state it points to (see [Machine]). *)
Module RunnerConfig.
Record t := mk
  { Verbose : bool; Filter : string; Class : string; All : bool;
    Jobs : Z; Mode : StreamMode }.
End RunnerConfig.
Definition RunnerConfig := RunnerConfig.t.

(** [evalJob]. *)
Module evalJob.
Record t {World : Type} := mk { eval : Eval World; streaming : bool }.
Arguments t : clear implicits.
Arguments mk {World}.
End evalJob.
Definition evalJob := evalJob.t.

(** What the runner writes to standard output, one entry per call. *)
Inductive Output :=
| Println (s : string)
| printResult (verbose : bool) (logDir : option string) (r : Result)
| printResultParallel (verbose : bool) (logDir : option string) (r : Result).

(** Everything a run reads and changes: the world outside the process (the
    server and the clock), the [streaming] field of the eval structs by
    address (absent means the zero value, false), [r.config.Logger] ([None]
    is the nil pointer, otherwise the Logger it points to in its current
    state; the client's [logger] is the same pointer), and standard
    output. *)
Module Machine.
Record t {World : Type} := mk
  { world : World;
    fields : gmap nat bool;
    logger : option Logger;
    stdout : list Output }.
Arguments t : clear implicits.
Arguments mk {World}.
End Machine.
Definition Machine := Machine.t.

(** The filter loop of [Runner.Run], lines 273-291. *)
Definition selectEvals {World} (config : RunnerConfig)
    (registry : list (Eval World)) : list (Eval World) :=
  foldl
    (λ evals e,
       if bool_decide (RunnerConfig.Filter config ≠ "") &&
          negb (Contains (Eval.Name e) (RunnerConfig.Filter config))
       then evals
       else if negb (ClassMatches (Eval.Class e) (RunnerConfig.Class config))
       then evals
       else if negb (RunnerConfig.All config) && IsDefaultDisabled e
       then evals
       else evals ++ [e])
    [] registry.

(** [mode := r.config.Mode; if mode == "" { mode = ModeBoth }]. *)
Definition effectiveMode (config : RunnerConfig) : StreamMode :=
  if decide (RunnerConfig.Mode config = "") then ModeBoth
  else RunnerConfig.Mode config.

(** The sending loop of [runParallel], lines 363-373, as the sequence of
    jobs it puts on the channel. *)
Definition jobsToSend {World} (config : RunnerConfig)
    (evals : list (Eval World)) : list (evalJob World) :=
  let mode := effectiveMode config in
  foldl
    (λ sent e,
       if decide (mode = ModeBlocking) then sent ++ [evalJob.mk e false]
       else if decide (mode = ModeStreaming) then sent ++ [evalJob.mk e true]
       else if decide (mode = ModeBoth)
       then (sent ++ [evalJob.mk e false]) ++ [evalJob.mk e true]
       else sent)
    [] evals.

(** What the runner and the Logger ask of the world outside the process
    through the standard library: [time.Now()] in nanoseconds,
    [t.Format(time.RFC3339)], [os.WriteFile(filename, data, 0644)] with its
    error ([None] for nil), and [filepath.Join(dir, file)]. *)
Class Host (World : Type) := mkHost
  { now : World → Z;
    formatRFC3339 : Z → string;
    os_WriteFile : string → string → option error;
    filepath_Join : string → string → string }.

Section Runner.

Context {World : Type} `{!Host World}.

Local Abbreviation Eval := (Eval World).
Local Abbreviation evalJob := (evalJob World).
Local Abbreviation Machine := (Machine World).

(** *** Logger methods (log.go) *)

(** [(l *Logger).StartEval(name)]. *)
Definition StartEval (l : Logger) (t : Z) (name : string) : Logger :=
  Logger.mk (Logger.dir l)
    (Some
       (logFile.mk name
          (((("=== Eval: " +:+ name) +:+ " ===") +:+ newline) +:+
           ((("Started: " +:+ formatRFC3339 t) +:+ newline) +:+ newline))))
    (Logger.written l).

(** [LogRequest], [LogResponse], [LogStreamResponse], [LogError] and
    [LogValidation], the methods called from inside a case body: each
    returns at once when no log is in progress, and otherwise appends to the
    buffer the block of text it formats from its arguments. [block] is that
    text. *)
Definition logBlock (l : Logger) (block : string) : Logger :=
  match Logger.current l with
  | None => l
  | Some cur =>
      Logger.mk (Logger.dir l)
        (Some (logFile.mk (logFile.name cur) (logFile.buf cur +:+ block)))
        (Logger.written l)
  end.

(** [(l *Logger).LogResult(passed, message)]. *)
Definition LogResult (l : Logger) (passed : bool) (message : string)
  : Logger :=
  match Logger.current l with
  | None => l
  | Some cur =>
      let status := if negb passed then "FAILED" else "PASSED" in
      let buf :=
        logFile.buf cur +:+
        ((("=== Result: " +:+ status) +:+ " ===") +:+ newline) in
      let buf :=
        if decide (message ≠ "") then (buf +:+ message) +:+ newline
        else buf in
      Logger.mk (Logger.dir l) (Some (logFile.mk (logFile.name cur) buf))
        (Logger.written l)
  end.

(** [(l *Logger).EndEval()]: the Logger afterwards and the error. *)
Definition EndEval (l : Logger) : Logger * option error :=
  match Logger.current l with
  | None => (l, None)
  | Some cur =>
      let filename :=
        filepath_Join (Logger.dir l) (logFile.name cur +:+ ".log") in
      match os_WriteFile filename (logFile.buf cur) with
      | Some err => (l, Some ("write log file: " +:+ err))
      | None =>
          (Logger.mk (Logger.dir l) None
             (Logger.written l ++ [(filename, logFile.buf cur)]),
           None)
      end
  end.

(** *** runSingleEval, statement by statement *)

(** The current value of the [streaming] field of the struct behind [e]. *)
Definition streamingField (m : Machine) (e : Eval) : bool :=
  default false (Machine.fields m !! Eval.ref e).

(** Lines 408-410: [if sme, ok := e.(StreamModeEval); ok
    { sme.SetStreaming(streaming) }]. *)
Definition setMode (e : Eval) (streaming : bool) (m : Machine) : Machine :=
  if Eval.streamModeEval e
  then Machine.mk (Machine.world m)
         (<[Eval.ref e := streaming]> (Machine.fields m))
         (Machine.logger m) (Machine.stdout m)
  else m.

(** Lines 413-418: the name with its mode suffix. *)
Definition modeName (e : Eval) (streaming : bool) : string :=
  if streaming then Eval.Name e +:+ " (streaming)"
  else Eval.Name e +:+ " (blocking)".

(** Lines 420-422. *)
Definition startLog (name : string) (m : Machine) : Machine :=
  match Machine.logger m with
  | Some l =>
      Machine.mk (Machine.world m) (Machine.fields m)
        (Some (StartEval l (now (Machine.world m)) name))
        (Machine.stdout m)
  | None => m
  end.

(** Lines 424-429: the call of the case body, timed, and the name and
    category written over what the body returned. While it runs, the body
    logs its requests and responses through the client to the Logger, if
    there is one. The body is one step: its Logger calls are taken
    together. *)
Definition invoke (e : Eval) (name : string) (m : Machine)
  : Result * Machine :=
  let start := now (Machine.world m) in
  let '(result, w) := Eval.Run e (streamingField m e) (Machine.world m) in
  let logged := Eval.Logged e (streamingField m e) (Machine.world m) in
  (Result.mk name (Eval.Category e) (Result.Passed result)
     (Result.Message result) (now w - start),
   Machine.mk w (Machine.fields m)
     ((λ l, foldl logBlock l logged) <$> Machine.logger m)
     (Machine.stdout m)).

(** Line 432. *)
Definition logResult (result : Result) (m : Machine) : Machine :=
  match Machine.logger m with
  | Some l =>
      Machine.mk (Machine.world m) (Machine.fields m)
        (Some (LogResult l (Result.Passed result) (Result.Message result)))
        (Machine.stdout m)
  | None => m
  end.

(** Line 433; the error of [EndEval] is dropped. *)
Definition endLog (m : Machine) : Machine :=
  match Machine.logger m with
  | Some l =>
      Machine.mk (Machine.world m) (Machine.fields m)
        (Some (EndEval l).1) (Machine.stdout m)
  | None => m
  end.

(** [(r *Runner).runSingleEval(e, streaming)]. *)
Definition runSingleEval (e : Eval) (streaming : bool) (m : Machine)
  : Result * Machine :=
  let m := setMode e streaming m in
  let name := modeName e streaming in
  let m := startLog name m in
  let '(result, m) := invoke e name m in
  let m := logResult result m in
  let m := endLog m in
  (result, m).

(** [(r *Runner).runEvalInModes(e)]. *)
Definition runEvalInModes (config : RunnerConfig) (e : Eval) (m : Machine)
  : list Result * Machine :=
  let mode := effectiveMode config in
  if decide (mode = ModeBlocking) then
    let '(r1, m) := runSingleEval e false m in ([r1], m)
  else if decide (mode = ModeStreaming) then
    let '(r1, m) := runSingleEval e true m in ([r1], m)
  else if decide (mode = ModeBoth) then
    let '(r1, m) := runSingleEval e false m in
    let '(r2, m) := runSingleEval e true m in
    ([r1; r2], m)
  else ([], m).

(** [r.config.Logger.Dir()] where [printResult] may ask for it. *)
Definition logDir (m : Machine) : option string :=
  Logger.dir <$> Machine.logger m.

Definition print (o : Output) (m : Machine) : Machine :=
  Machine.mk (Machine.world m) (Machine.fields m) (Machine.logger m)
    (Machine.stdout m ++ [o]).

(** Lines 312-315: the inner loop of [runSequential], over the results of
    one case. *)
Definition reportResults (config : RunnerConfig) (rs results : list Result)
    (m : Machine) : list Result * Machine :=
  foldl
    (λ '(results, m) result,
       (results ++ [result],
        print (printResult (RunnerConfig.Verbose config) (logDir m) result)
          m))
    (results, m) rs.

(** Lines 305-315: one iteration of the outer loop of [runSequential], on
    the results so far, [currentCategory] and the machine. *)
Definition sequentialBody (config : RunnerConfig)
    (state : list Result * string * Machine) (e : Eval)
  : list Result * string * Machine :=
  let '(results, currentCategory, m) := state in
  let '(currentCategory, m) :=
    if decide (Eval.Category e ≠ currentCategory)
    then (Eval.Category e, print (Println (Eval.Category e)) m)
    else (currentCategory, m) in
  let '(rs, m) := runEvalInModes config e m in
  let '(results, m) := reportResults config rs results m in
  (results, currentCategory, m).

(** [(r *Runner).runSequential(evals)]. *)
Definition runSequential (config : RunnerConfig) (evals : list Eval)
    (m : Machine) : list Result * Machine :=
  let '(results, _, m) := foldl (sequentialBody config) ([], "", m) evals in
  (results, m).

(** *** runParallel: its goroutines, one step at a time *)

(** A worker goroutine (lines 337-343), by the statement it stands at. The
    job in hand and, once the body has returned, the result are its
    locals; the name of line 413 is [modeName] of the job. *)
Inductive Worker :=
| Receiving
| SettingMode (job : evalJob)
| StartingLog (job : evalJob)
| Invoking (job : evalJob)
| LoggingResult (result : Result)
| EndingLog (result : Result)
| Sending (result : Result)
| Exited.

(** The goroutine of [runParallel] itself: in the sending loop with the
    jobs still to send, at [wg.Wait()] after [close(jobs)], at
    [resultWg.Wait()] after [close(resultChan)], or returned. *)
Inductive Main :=
| Submitting (pending : list evalJob)
| WaitingWorkers
| WaitingCollector
| Returned.

(** The pool: the main goroutine, the workers, whether the collecting
    goroutine (lines 349-355) is still in its loop, the [results] slice it
    appends to, and the shared machine. *)
Record Pool := mkPool
  { main : Main;
    workers : list Worker;
    collecting : bool;
    results : list Result;
    machine : Machine }.

Definition jobsClosed (mn : Main) : bool :=
  match mn with
  | Submitting _ => false
  | _ => true
  end.

(** One step of one goroutine. Both channels are unbuffered, so a send and
    its receive are one step. *)
Inductive step (config : RunnerConfig) : Pool → Pool → Prop :=
| step_send job pending i ws c rs m :
    ws !! i = Some Receiving →
    step config
      (mkPool (Submitting (job :: pending)) ws c rs m)
      (mkPool (Submitting pending) (<[i := SettingMode job]> ws) c rs m)
| step_close ws c rs m :
    step config
      (mkPool (Submitting []) ws c rs m)
      (mkPool WaitingWorkers ws c rs m)
| step_exit mn i ws c rs m :
    jobsClosed mn = true →
    ws !! i = Some Receiving →
    step config (mkPool mn ws c rs m) (mkPool mn (<[i := Exited]> ws) c rs m)
| step_set_mode mn i job ws c rs m :
    ws !! i = Some (SettingMode job) →
    step config
      (mkPool mn ws c rs m)
      (mkPool mn (<[i := StartingLog job]> ws) c rs
         (setMode (evalJob.eval job) (evalJob.streaming job) m))
| step_start_log mn i job ws c rs m :
    ws !! i = Some (StartingLog job) →
    step config
      (mkPool mn ws c rs m)
      (mkPool mn (<[i := Invoking job]> ws) c rs
         (startLog (modeName (evalJob.eval job) (evalJob.streaming job)) m))
| step_invoke mn i job ws c rs m :
    ws !! i = Some (Invoking job) →
    let run :=
      invoke (evalJob.eval job)
        (modeName (evalJob.eval job) (evalJob.streaming job)) m in
    step config
      (mkPool mn ws c rs m)
      (mkPool mn (<[i := LoggingResult run.1]> ws) c rs run.2)
| step_log_result mn i result ws c rs m :
    ws !! i = Some (LoggingResult result) →
    step config
      (mkPool mn ws c rs m)
      (mkPool mn (<[i := EndingLog result]> ws) c rs (logResult result m))
| step_end_log mn i result ws c rs m :
    ws !! i = Some (EndingLog result) →
    step config
      (mkPool mn ws c rs m)
      (mkPool mn (<[i := Sending result]> ws) c rs (endLog m))
| step_collect mn i result ws rs m :
    ws !! i = Some (Sending result) →
    step config
      (mkPool mn ws true rs m)
      (mkPool mn (<[i := Receiving]> ws) true (rs ++ [result])
         (print (printResultParallel (RunnerConfig.Verbose config)
                   (logDir m) result) m))
| step_workers_done ws c rs m :
    Forall (λ w, w = Exited) ws →
    step config
      (mkPool WaitingWorkers ws c rs m)
      (mkPool WaitingCollector ws c rs m)
| step_collector_done ws rs m :
    step config
      (mkPool WaitingCollector ws true rs m)
      (mkPool WaitingCollector ws false rs m)
| step_return ws rs m :
    step config
      (mkPool WaitingCollector ws false rs m)
      (mkPool Returned ws false rs m).

(** The pool when the sending loop is entered: [r.config.Jobs] workers
    started, none holding a job, the collector in its loop. *)
Definition initPool (config : RunnerConfig) (evals : list Eval) (m : Machine)
  : Pool :=
  mkPool (Submitting (jobsToSend config evals))
    (replicate (Z.to_nat (RunnerConfig.Jobs config)) Receiving)
    true [] m.

(** [(r *Runner).runParallel(evals)] returns [rs], leaving the machine as
    [m']: some interleaving of the goroutines gets there. *)
Definition runParallel (config : RunnerConfig) (evals : list Eval)
    (m : Machine) (rs : list Result) (m' : Machine) : Prop :=
  ∃ ws, rtc (step config) (initPool config evals m)
              (mkPool Returned ws false rs m').

(** [(r *Runner).Run()] on the registry [r.evals]. *)
Inductive Run (config : RunnerConfig) (registry : list Eval) (m : Machine)
  : list Result → Machine → Prop :=
| Run_sequential :
    RunnerConfig.Jobs config ≤ 1 →
    Run config registry m
      (runSequential config (selectEvals config registry) m).1
      (runSequential config (selectEvals config registry) m).2
| Run_parallel rs m' :
    1 < RunnerConfig.Jobs config →
    runParallel config (selectEvals config registry) m rs m' →
    Run config registry m rs m'.

(** *** Vocabulary of the statements *)

(** The delivery modes a configuration selects, blocking as [false] and
    streaming as [true]. *)
Definition modesOf (config : RunnerConfig) : list bool :=
  let mode := effectiveMode config in
  if decide (mode = ModeBlocking) then [false]
  else if decide (mode = ModeStreaming) then [true]
  else if decide (mode = ModeBoth) then [false; true]
  else [].

(** The (case, mode) combinations of a list of selected cases. *)
Definition combinations (config : RunnerConfig) (evals : list Eval)
  : list evalJob :=
  evals ≫= λ e, evalJob.mk e <$> modesOf config.

(** Whether the filter loop of [Run] keeps a case. *)
Definition selects (config : RunnerConfig) (e : Eval) : bool :=
  (bool_decide (RunnerConfig.Filter config = "") ||
   Contains (Eval.Name e) (RunnerConfig.Filter config)) &&
  ClassMatches (Eval.Class e) (RunnerConfig.Class config) &&
  (RunnerConfig.All config || negb (IsDefaultDisabled e)).

(** What attributes a Result to its combination: the name and category
    that [runSingleEval] gives it. *)
Definition jobLabel (job : evalJob) : string * string :=
  (modeName (evalJob.eval job) (evalJob.streaming job),
   Eval.Category (evalJob.eval job)).

Definition resultLabel (r : Result) : string * string :=
  (Result.Name r, Result.Category r).

(** The labels in flight in a pool: of the results collected, of what the
    workers hold, and of the jobs still to send. *)
Definition workerLabels (w : Worker) : list (string * string) :=
  match w with
  | SettingMode job | StartingLog job | Invoking job => [jobLabel job]
  | LoggingResult r | EndingLog r | Sending r => [resultLabel r]
  | Receiving | Exited => []
  end.

Definition pendingJobs (mn : Main) : list evalJob :=
  match mn with
  | Submitting pending => pending
  | _ => []
  end.

Definition poolLabels (p : Pool) : list (string * string) :=
  (resultLabel <$> results p) ++
  (workers p ≫= workerLabels) ++
  (jobLabel <$> pendingJobs (main p)).

(** How many steps a pool has left at most. *)
Definition workerWeight (w : Worker) : nat :=
  match w with
  | SettingMode _ => 7
  | StartingLog _ => 6
  | Invoking _ => 5
  | LoggingResult _ => 4
  | EndingLog _ => 3
  | Sending _ => 2
  | Receiving => 1
  | Exited => 0
  end.

Definition mainWeight (mn : Main) : nat :=
  match mn with
  | Submitting pending => 4 + 7 * length pending
  | WaitingWorkers => 3
  | WaitingCollector => 1
  | Returned => 0
  end.

Definition poolWeight (p : Pool) : nat :=
  mainWeight (main p) + sum_list (workerWeight <$> workers p) +
  (if collecting p then 1 else 0).

(** A pool in which the goroutines are where the code can have put them:
    the collector is in its loop until the result channel is closed, no
    worker has left its loop before the job channel is closed, and all
    have once [wg.Wait()] has returned. *)
Definition consistent (p : Pool) : Prop :=
  workers p ≠ [] ∧
  match main p with
  | Submitting _ => collecting p = true ∧ Forall (λ w, w ≠ Exited) (workers p)
  | WaitingWorkers => collecting p = true
  | WaitingCollector => Forall (λ w, w = Exited) (workers p)
  | Returned => collecting p = false ∧ Forall (λ w, w = Exited) (workers p)
  end.

(** Two machines that differ at most in the Logger and in what was
    printed. *)
Definition sameOutside (m1 m2 : Machine) : Prop :=
  Machine.world m1 = Machine.world m2 ∧
  Machine.fields m1 = Machine.fields m2.

(** Two pools with the goroutines at the same places, holding the same
    jobs and results, on machines that differ at most in the Logger and in
    what was printed. *)
Definition samePool (p1 p2 : Pool) : Prop :=
  main p1 = main p2 ∧ workers p1 = workers p2 ∧
  collecting p1 = collecting p2 ∧ results p1 = results p2 ∧
  sameOutside (machine p1) (machine p2).

(** The machine with [r.config.Logger] set to the given pointer. *)
Definition withLogger (lg : option Logger) (m : Machine) : Machine :=
  Machine.mk (Machine.world m) (Machine.fields m) lg (Machine.stdout m).

End Runner.

Arguments Worker : clear implicits.
Arguments Main : clear implicits.
Arguments Pool : clear implicits.

(** ** Vocabulary of the statements *)

(** What a stream has delivered, read off the chunks that decoded: the
    deltas of all their choices in order, and the tool-call fragments of
    those deltas in order. *)
Definition chunkDeltas (chunks : list ChatCompletionChunk) : list ChunkDelta :=
  chunks ≫= λ chunk, ChunkChoice.Delta <$> ChatCompletionChunk.Choices chunk.

Definition chunkFragments (chunks : list ChatCompletionChunk)
  : list ToolCallDelta :=
  chunkDeltas chunks ≫= ChunkDelta.ToolCalls.

(** The fragments that carry position [i], in arrival order. *)
Definition fragmentsAt (i : Z) (fragments : list ToolCallDelta)
  : list ToolCallDelta :=
  filter (λ tc, ToolCallDelta.Index tc = i) fragments.

(** The last non-empty string of a list, the empty string if there is
    none. *)
Definition lastNonEmpty (values : list string) : string :=
  default "" (last (filter (λ v, v ≠ "") values)).

(** The concatenation of a list of strings, in order. *)
Definition concatAll (pieces : list string) : string :=
  foldr String.append "" pieces.

(** The positions the final loop emits a tool call for. *)
Definition emittedPositions (builders : gmap Z toolCallBuilder) : list Z :=
  filter (λ i, is_Some (builders !! i))
    (seqZ 0 (Z.of_nat (size builders))).

(** The bytes [rawChunks] gains from a list of lines. *)
Definition rawOf (read : list string) : string :=
  concatAll ((λ line, line +:+ newline) <$> read).

Section Frames.

Variable json_Unmarshal : string → ChatCompletionChunk + error.

(** A line after which the scan loop goes on to the next one: not a data
    line, or a data line whose payload is not the sentinel and decodes. *)
Definition goesOn (line : string) : bool :=
  if negb (HasPrefix line "data: ") then true
  else if decide (TrimPrefix line "data: " = "[DONE]") then false
  else
    match json_Unmarshal (TrimPrefix line "data: ") with
    | inl _ => true
    | inr _ => false
    end.

(** The chunks of a stream: the decoded payloads of its data lines, up to
    the sentinel or the first payload that does not decode. *)
Fixpoint streamChunks (tokens : list string) : list ChatCompletionChunk :=
  match tokens with
  | [] => []
  | line :: rest =>
      if negb (HasPrefix line "data: ") then streamChunks rest
      else if decide (TrimPrefix line "data: " = "[DONE]") then []
      else
        match json_Unmarshal (TrimPrefix line "data: ") with
        | inl chunk => chunk :: streamChunks rest
        | inr _ => []
        end
  end.

End Frames.

(** ** Sample frames *)

(** A stand-in for [json.Unmarshal] on a handful of named payloads; any
    other payload is a syntax error. *)
Definition sampleDelta (content reasoning : string)
    (calls : list ToolCallDelta) : ChunkDelta :=
  ChunkDelta.mk "" content reasoning calls.

Definition sampleChunk (deltas : list ChunkDelta) (usage : option Usage)
  : ChatCompletionChunk :=
  ChatCompletionChunk.mk "" "" 0 ""
    ((λ d, ChunkChoice.mk 0 d None) <$> deltas) usage.

Definition sampleFragment (i : Z) (ident kind fname args : string)
  : ToolCallDelta :=
  ToolCallDelta.mk i ident kind (ToolCallFunctionDelta.mk fname args).

Definition sampleUnmarshal (data : string) : ChatCompletionChunk + error :=
  if decide (data = "hel") then
    inl (sampleChunk [sampleDelta "Hel" "" []] None)
  else if decide (data = "lo") then
    inl (sampleChunk [sampleDelta "lo" "" []] None)
  else if decide (data = "call0") then
    inl (sampleChunk
           [sampleDelta "" ""
              [sampleFragment 0 "abc" "function" "get_weather" ""]] None)
  else if decide (data = "args0a") then
    inl (sampleChunk
           [sampleDelta "" "" [sampleFragment 0 "" "" "" "{location:"]] None)
  else if decide (data = "args0b") then
    inl (sampleChunk
           [sampleDelta "" "" [sampleFragment 0 "" "" "" "SF}"]] None)
  else if decide (data = "call2") then
    inl (sampleChunk
           [sampleDelta "" ""
              [sampleFragment 2 "xyz" "function" "get_time" "{}"]] None)
  else if decide (data = "usage1") then
    inl (sampleChunk [] (Some (Usage.mk 1 2 3)))
  else if decide (data = "usage2") then
    inl (sampleChunk [] (Some (Usage.mk 10 20 30)))
  else if decide (data = "two") then
    inl (sampleChunk
           [sampleDelta "A" "x" [sampleFragment 0 "abc" "" "" "{"];
            sampleDelta "B" "y" [sampleFragment 0 "" "" "f" "}"]] None)
  else inr "invalid character".

(** A scanner over the given lines whose reader never fails. *)
Definition sampleScanner (tokens : list string) : Scanner :=
  mkScanner tokens (λ _, None).

(** ** Sample cases *)

(** A world that is just a clock, in ticks; a case body takes one tick and
    reports the mode it ran in. It makes one request, logged with its
    response. *)
Definition sampleRun (title : string) (streaming : bool) (w : nat)
  : Result * nat :=
  (Result.mk title "" true (if streaming then "streamed" else "blocked") 0,
   S w).

Definition sampleLogged (streaming : bool) (w : nat) : list string :=
  [">>> REQUEST ";
   if streaming then "<<< STREAM RESPONSE " else "<<< RESPONSE "].

Definition sampleEval (address : nat) (title class : string)
    (switchable : bool) : Eval nat :=
  (Eval.mk address title "Sample" class switchable None (sampleRun title)
     sampleLogged).

Definition sampleConfig (class : string) (jobs : Z) (mode : StreamMode)
  : RunnerConfig :=
  RunnerConfig.mk false "" class false jobs mode.

#[local] Instance sampleHost : Host nat :=
  mkHost nat Z.of_nat (λ _, "now") (λ _ _, None)
    (λ d f, (d +:+ "/") +:+ f).

Definition sampleMachine : Machine nat := Machine.mk 0%nat ∅ None [].

Definition sampleRegistry : list (Eval nat) :=
  [sampleEval 1 "A" ClassStandard true;
   sampleEval 2 "B" ClassReasoning true;
   sampleEval 3 "C" ClassInterleaved false].

(** The rank of a class in the hierarchy, [None] for any other string. *)
Definition classRank (class : string) : option nat :=
  if decide (class = ClassStandard) then Some 0%nat
  else if decide (class = ClassReasoning) then Some 1%nat
  else if decide (class = ClassInterleaved) then Some 2%nat
  else None.

(** ** Further samples *)

(** [sampleUnmarshal] with one more payload, a chunk of two choices that
    carry the text of the payloads hel and lo. *)
Definition sampleUnmarshalGrouped (data : string)
  : ChatCompletionChunk + error :=
  if decide (data = "hel+lo") then
    inl (sampleChunk [sampleDelta "Hel" "" []; sampleDelta "lo" "" []] None)
  else sampleUnmarshal data.

(** A scanner whose reader fails once every token has been delivered. *)
Definition brokenScanner (tokens : list string) (err : error) : Scanner :=
  mkScanner tokens
    (λ calls, if decide (calls = S (length tokens)) then Some err else None).

(** ** cmd/llm-serve-test: what runEvals does around the run (main.go) *)

(** The class check of [runEvals]: a class that is not empty must be one of
    [AllClasses]; the loop stops at the first match. *)
Definition classIsValid (class : string) : bool :=
  if decide (class ≠ "") then
    foldl
      (λ (valid : bool) (c : string),
         if valid then true else bool_decide (class = c))
      false AllClasses
  else true.

(** The count of the summary, [passed]. *)
Definition countPassed (results : list Result) : Z :=
  foldl (λ passed r, if Result.Passed r then passed + 1 else passed)
    0 results.

(** The exit status after the summary: [os.Exit(1)] when
    [passed < len(results)], otherwise the nil error, status 0. *)
Definition exitStatus (results : list Result) : Z :=
  if decide (countPassed results < Z.of_nat (length results)) then 1 else 0.

(** ** Vocabulary for standard output *)

Definition printedHeaders (out : list Output) : list string :=
  omap (λ o, match o with Println s => Some s | _ => None end) out.

Definition printedSequentially (out : list Output) : list Result :=
  omap (λ o, match o with printResult _ _ r => Some r | _ => None end) out.

Definition printedByCollector (out : list Output) : list Result :=
  omap (λ o, match o with printResultParallel _ _ r => Some r | _ => None end)
    out.

(** The categories at which a walk through a list of categories leaves the
    current one. *)
Fixpoint categoryChanges (current : string) (categories : list string)
  : list string :=
  match categories with
  | [] => []
  | category :: rest =>
      if decide (category ≠ current)
      then category :: categoryChanges category rest
      else categoryChanges category rest
  end.

(** ** Vocabulary for the log files *)

(** The text of the log file of one run: the header that [StartEval]
    writes, the blocks logged from inside the case body, then the lines of
    [LogResult]. *)
Definition logText `{!Host World} (title : string) (started : Z)
    (blocks : list string) (passed : bool) (message : string) : string :=
  (((((("=== Eval: " +:+ title) +:+ " ===") +:+ newline) +:+
     ((("Started: " +:+ formatRFC3339 started) +:+ newline) +:+ newline)) +:+
    concatAll blocks) +:+
   ((("=== Result: " +:+ (if passed then "PASSED" else "FAILED")) +:+ " ===")
      +:+ newline)) +:+
  (if decide (message ≠ "") then message +:+ newline else "").

(** The path of the log file of a run. *)
Definition logPath `{!Host World} (dir title : string) : string :=
  filepath_Join dir (title +:+ ".log").

(** A Logger with nothing in progress and nothing written. *)
Definition sampleLogger : Logger := Logger.mk "logs" None [].

(** ** internal/client: requests (types.go, client.go) *)

Module ToolFunction.
Record t := mk
  { Name : string; Description : string; Parameters : string }.
End ToolFunction.
Definition ToolFunction := ToolFunction.t.

Module Tool.
Record t := mk { Type_ : string; Function : ToolFunction }.
End Tool.
Definition Tool := Tool.t.

Module Message.
Record t := mk
  { Role : string; Content : string; ReasoningContent : string;
    ToolCalls : list ToolCall; ToolCallID : string }.
End Message.
Definition Message := Message.t.

Module JSONSchema.
Record t := mk
  { Name : string; Description : string; Schema : string; Strict : bool }.
End JSONSchema.
Definition JSONSchema := JSONSchema.t.

Module ResponseFormat.
Record t := mk { Type_ : string; JSONSchema : option JSONSchema }.
End ResponseFormat.
Definition ResponseFormat := ResponseFormat.t.

Module StreamOptions.
Record t := mk { IncludeUsage : bool }.
End StreamOptions.
Definition StreamOptions := StreamOptions.t.

(** Go's [any], as the values of the request map: the type is left open,
    with the conversions of the typed values the code stores in it. *)
Class Boxing (Any : Type) := mkBoxing
  { ofString : string → Any;
    ofBool : bool → Any;
    ofInt : Z → Any;
    ofMessages : list Message → Any;
    ofTools : list Tool → Any;
    ofResponseFormat : ResponseFormat → Any;
    ofStreamOptions : StreamOptions → Any }.

(** [ChatCompletionRequest]. A nil interface or pointer is [None]; a nil
    map reads as the empty map. *)
Module ChatCompletionRequest.
Record t {Any : Type} := mk
  { Model : string;
    Messages : list Message;
    Tools : list Tool;
    ToolChoice : option Any;
    ParallelToolCalls : bool;
    ResponseFormat : option ResponseFormat;
    Stream : bool;
    StreamOptions : option StreamOptions;
    MaxTokens : Z;
    Extra : gmap string Any }.
Arguments t : clear implicits.
Arguments mk {Any}.
End ChatCompletionRequest.
Definition ChatCompletionRequest := ChatCompletionRequest.t.

(** [Client], but for its [http.Client] and its logger. *)
Module Client.
Record t {Any : Type} := mk
  { baseURL : string; apiKey : string; model : string;
    extra : gmap string Any }.
Arguments t : clear implicits.
Arguments mk {Any}.
End Client.
Definition Client := Client.t.

Section Requests.

Context {Any : Type} `{!Boxing Any}.

Local Abbreviation Request := (ChatCompletionRequest Any).

(** [MarshalJSON], lines 25-50: the map of the standard fields. *)
Definition standardFields (r : Request) : gmap string Any :=
  let m : gmap string Any := ∅ in
  let m := <["model" := ofString (ChatCompletionRequest.Model r)]> m in
  let m := <["messages" := ofMessages (ChatCompletionRequest.Messages r)]> m in
  let m :=
    if decide (0 < length (ChatCompletionRequest.Tools r))%nat
    then <["tools" := ofTools (ChatCompletionRequest.Tools r)]> m
    else m in
  let m :=
    match ChatCompletionRequest.ToolChoice r with
    | Some choice => <["tool_choice" := choice]> m
    | None => m
    end in
  let m :=
    if ChatCompletionRequest.ParallelToolCalls r
    then <["parallel_tool_calls" :=
             ofBool (ChatCompletionRequest.ParallelToolCalls r)]> m
    else m in
  let m :=
    match ChatCompletionRequest.ResponseFormat r with
    | Some format => <["response_format" := ofResponseFormat format]> m
    | None => m
    end in
  let m :=
    if ChatCompletionRequest.Stream r
    then <["stream" := ofBool (ChatCompletionRequest.Stream r)]> m
    else m in
  let m :=
    match ChatCompletionRequest.StreamOptions r with
    | Some options => <["stream_options" := ofStreamOptions options]> m
    | None => m
    end in
  if decide (0 < ChatCompletionRequest.MaxTokens r)
  then <["max_tokens" := ofInt (ChatCompletionRequest.MaxTokens r)]> m
  else m.

(** [MarshalJSON], lines 53-55: the extra fields written over the map, in
    the order the range over the map visits them. This is the map handed
    to [json.Marshal]. *)
Definition requestMap (r : Request) : gmap string Any :=
  map_fold (λ k v m, <[k := v]> m) (standardFields r)
    (ChatCompletionRequest.Extra r).

(** [(r ChatCompletionRequest).MarshalJSON()], given [json.Marshal] on the
    map. *)
Definition MarshalJSON (json_Marshal : gmap string Any → string + error)
    (r : Request) : string + error :=
  json_Marshal (requestMap r).

(** [(c *Client).applyExtra(&req)]. *)
Definition applyExtra (c : Client Any) (req : Request) : Request :=
  if decide (size (Client.extra c) = 0%nat) then req
  else
    ChatCompletionRequest.mk
      (ChatCompletionRequest.Model req) (ChatCompletionRequest.Messages req)
      (ChatCompletionRequest.Tools req) (ChatCompletionRequest.ToolChoice req)
      (ChatCompletionRequest.ParallelToolCalls req)
      (ChatCompletionRequest.ResponseFormat req)
      (ChatCompletionRequest.Stream req)
      (ChatCompletionRequest.StreamOptions req)
      (ChatCompletionRequest.MaxTokens req)
      (map_fold
         (λ k v extra,
            match extra !! k with
            | Some _ => extra
            | None => <[k := v]> extra
            end)
         (ChatCompletionRequest.Extra req) (Client.extra c)).

(** The first lines of [ChatCompletion]: the request as it is marshalled. *)
Definition blockingRequest (c : Client Any) (req : Request) : Request :=
  applyExtra c
    (ChatCompletionRequest.mk
       (Client.model c) (ChatCompletionRequest.Messages req)
       (ChatCompletionRequest.Tools req) (ChatCompletionRequest.ToolChoice req)
       (ChatCompletionRequest.ParallelToolCalls req)
       (ChatCompletionRequest.ResponseFormat req)
       false
       (ChatCompletionRequest.StreamOptions req)
       (ChatCompletionRequest.MaxTokens req)
       (ChatCompletionRequest.Extra req)).

(** The first lines of [ChatCompletionStream]: the request as it is
    marshalled. *)
Definition streamingRequest (c : Client Any) (req : Request) : Request :=
  applyExtra c
    (ChatCompletionRequest.mk
       (Client.model c) (ChatCompletionRequest.Messages req)
       (ChatCompletionRequest.Tools req) (ChatCompletionRequest.ToolChoice req)
       (ChatCompletionRequest.ParallelToolCalls req)
       (ChatCompletionRequest.ResponseFormat req)
       true
       (match ChatCompletionRequest.StreamOptions req with
        | Some options => Some options
        | None => Some (StreamOptions.mk true)
        end)
       (ChatCompletionRequest.MaxTokens req)
       (ChatCompletionRequest.Extra req)).

End Requests.

(** ** cmd/llm-serve-test: the [--extra] flags (main.go) *)

(** [strings.Index s substr]: the index of the first instance of [substr]
    in [s], or [-1]. *)
Fixpoint Index (s substr : string) : Z :=
  if String.prefix substr s then 0
  else
    match s with
    | EmptyString => -1
    | String _ s' =>
        let i := Index s' substr in
        if decide (i = -1) then -1 else i + 1
    end.

(** The slices [s[:n]] and [s[n:]]. The code takes them at an index that
    [strings.Index] returned, which is in range. *)
Fixpoint sliceTo (s : string) (n : nat) {struct n} : string :=
  match n, s with
  | S n', String c s' => String c (sliceTo s' n')
  | _, _ => EmptyString
  end.

Fixpoint sliceFrom (s : string) (n : nat) {struct n} : string :=
  match n, s with
  | S n', String _ s' => sliceFrom s' n'
  | _, _ => s
  end.

Section ExtraFields.

Context {Any : Type} `{!Boxing Any}.

(** [json.Unmarshal] into an [any], and the quoting of [%q]. *)
Variable json_Unmarshal_any : string → Any + error.
Variable quote : string → string.

(** The body of the loop of [parseExtraFields] on one flag: the entry it
    stores, or the error it returns. *)
Definition parseExtra (e : string) : (string * Any) + error :=
  let idx := Index e ":=" in
  if decide (0 < idx) then
    let key := sliceTo e (Z.to_nat idx) in
    let value := sliceFrom e (Z.to_nat (idx + 2)) in
    match json_Unmarshal_any value with
    | inr err => inr ("invalid JSON for " +:+ quote key +:+ ": " +:+ err)
    | inl parsed => inl (key, parsed)
    end
  else
    let idx := Index e "=" in
    if decide (0 < idx) then
      let key := sliceTo e (Z.to_nat idx) in
      let value := sliceFrom e (Z.to_nat (idx + 1)) in
      inl (key, ofString value)
    else
      inr ("invalid format " +:+ quote e
           +:+ " (expected key=value or key:=json)").

(** The loop of [parseExtraFields], from the map built so far. *)
Fixpoint parseExtraLoop (extras : list string) (result : gmap string Any)
    : option (gmap string Any) * option error :=
  match extras with
  | [] => (Some result, None)
  | e :: rest =>
      match parseExtra e with
      | inl (key, value) => parseExtraLoop rest (<[key := value]> result)
      | inr err => (None, Some err)
      end
  end.

(** [parseExtraFields(extras)]: the map (or nil) and the error (or nil). *)
Definition parseExtraFields (extras : list string)
    : option (gmap string Any) * option error :=
  if decide (length extras = 0%nat) then (None, None)
  else parseExtraLoop extras ∅.

End ExtraFields.

(** A byte that occurs in no position of a string. *)
Definition without (c : Ascii.ascii) (s : string) : Prop :=
  Contains s (String c EmptyString) = false.

(** Values for the flags: a small universe for [any], a parser that knows
    two JSON texts, and the quoting of [%q] on strings that need no
    escape. *)
Inductive sampleValue :=
  | VString (s : string)
  | VBool (b : bool)
  | VInt (n : Z)
  | VMessages (l : list Message)
  | VTools (l : list Tool)
  | VResponseFormat (f : ResponseFormat)
  | VStreamOptions (o : StreamOptions).

#[local] Instance sampleBoxing : Boxing sampleValue :=
  mkBoxing sampleValue VString VBool VInt VMessages VTools VResponseFormat
    VStreamOptions.

Definition sampleUnmarshalAny (s : string) : sampleValue + error :=
  if decide (s = "true") then inl (VBool true)
  else if decide (s = "42") then inl (VInt 42)
  else inr "invalid character".

Definition sampleQuote (s : string) : string :=
  String (Ascii.ascii_of_nat 34)
    (s +:+ String (Ascii.ascii_of_nat 34) EmptyString).

(** * Properties *)

(** ** Strings *)

Lemma append_nil_r (s : string) : s +:+ "" = s.
Proof.
  induction s as [|c s IH]; [done |].
  unfold String.append; fold String.append. by rewrite IH.
Qed.

Lemma append_assoc (s1 s2 s3 : string) :
  (s1 +:+ s2) +:+ s3 = s1 +:+ (s2 +:+ s3).
Proof.
  induction s1 as [|c s1 IH]; [done |].
  unfold String.append; fold String.append. by rewrite IH.
Qed.

Lemma concatAll_app (l1 l2 : list string) :
  concatAll (l1 ++ l2) = concatAll l1 +:+ concatAll l2.
Proof.
  induction l1 as [|s l1 IH]; simpl; [done |].
  by rewrite IH, append_assoc.
Qed.

(** ** toolCallBuilder *)

Lemma lastNonEmpty_snoc (values : list string) (v : string) :
  lastNonEmpty (values ++ [v]) =
  if decide (v ≠ "") then v else lastNonEmpty values.
Proof.
  unfold lastNonEmpty. rewrite filter_app.
  rewrite filter_cons, filter_nil.
  destruct (decide (v ≠ "")).
  - by rewrite last_snoc.
  - by rewrite app_nil_r.
Qed.

Lemma Accumulate_fields (b : toolCallBuilder) (delta : ToolCallDelta) :
  id (Accumulate b delta) =
    (if decide (ToolCallDelta.ID delta ≠ "") then ToolCallDelta.ID delta
     else id b) ∧
  typ (Accumulate b delta) =
    (if decide (ToolCallDelta.Type_ delta ≠ "") then ToolCallDelta.Type_ delta
     else typ b) ∧
  name (Accumulate b delta) =
    (if decide (ToolCallFunctionDelta.Name (ToolCallDelta.Function delta) ≠ "")
     then ToolCallFunctionDelta.Name (ToolCallDelta.Function delta)
     else name b) ∧
  arguments (Accumulate b delta) =
    arguments b +:+
    ToolCallFunctionDelta.Arguments (ToolCallDelta.Function delta).
Proof. unfold Accumulate. repeat case_decide; done. Qed.

(** The builder after a run of fragments, field by field. *)
Lemma foldl_Accumulate (fragments : list ToolCallDelta) :
  let b := foldl Accumulate newBuilder fragments in
  id b = lastNonEmpty (ToolCallDelta.ID <$> fragments) ∧
  typ b = lastNonEmpty (ToolCallDelta.Type_ <$> fragments) ∧
  name b =
    lastNonEmpty
      ((λ tc, ToolCallFunctionDelta.Name (ToolCallDelta.Function tc))
         <$> fragments) ∧
  arguments b =
    concatAll
      ((λ tc, ToolCallFunctionDelta.Arguments (ToolCallDelta.Function tc))
         <$> fragments).
Proof.
  induction fragments as [|tc fragments IH] using rev_ind; [done |].
  cbv zeta in *. rewrite foldl_snoc, !fmap_app.
  destruct IH as (Hid & Htyp & Hname & Hargs).
  destruct (Accumulate_fields (foldl Accumulate newBuilder fragments) tc)
    as (-> & -> & -> & ->).
  cbn [fmap list_fmap]. rewrite !lastNonEmpty_snoc.
  rewrite Hid, Htyp, Hname, Hargs, concatAll_app.
  cbn [concatAll foldr]. by rewrite append_nil_r.
Qed.

Lemma routeToolCall_lookup (builders : gmap Z toolCallBuilder)
    (tc : ToolCallDelta) (i : Z) :
  routeToolCall builders tc !! i =
  if decide (ToolCallDelta.Index tc = i)
  then Some (Accumulate (default newBuilder (builders !! i)) tc)
  else builders !! i.
Proof.
  unfold routeToolCall. case_decide as Hi.
  - subst i. rewrite lookup_insert_eq. by destruct (builders !! _).
  - by rewrite lookup_insert_ne.
Qed.

(** Routing a run of fragments: what ends up under position [i]. *)
Lemma foldl_routeToolCall_lookup (fragments : list ToolCallDelta) :
  ∀ (builders : gmap Z toolCallBuilder) (i : Z),
    foldl routeToolCall builders fragments !! i =
    match fragmentsAt i fragments with
    | [] => builders !! i
    | ds => Some (foldl Accumulate (default newBuilder (builders !! i)) ds)
    end.
Proof.
  induction fragments as [|tc fragments IH]; intros builders i; [done |].
  cbn [foldl]. rewrite IH, routeToolCall_lookup.
  assert (fragmentsAt i (tc :: fragments) =
          if decide (ToolCallDelta.Index tc = i)
          then tc :: fragmentsAt i fragments
          else fragmentsAt i fragments) as ->.
  { unfold fragmentsAt. rewrite filter_cons. by case_decide. }
  case_decide; [by destruct (fragmentsAt i fragments) | done].
Qed.

(** ** The scan loop *)

(** What the choices of one chunk do to the locals. *)
Lemma foldl_processChoice (choices : list ChunkChoice) :
  ∀ l : Locals,
    let deltas := ChunkChoice.Delta <$> choices in
    foldl processChoice l choices =
    mkLocals
      (StreamResult.mk
         (StreamResult.Content (result l) +:+
            concatAll (ChunkDelta.Content <$> deltas))
         (StreamResult.ReasoningContent (result l) +:+
            concatAll (ChunkDelta.ReasoningContent <$> deltas))
         (StreamResult.ToolCalls (result l))
         (StreamResult.Usage (result l))
         (StreamResult.Chunks (result l)))
      (foldl routeToolCall (toolCallBuilders l)
         (deltas ≫= ChunkDelta.ToolCalls))
      (rawChunks l).
Proof.
  induction choices as [|choice choices IH]; intros l; cbv zeta.
  - destruct l as [[] ? ?]. cbn. by rewrite !append_nil_r.
  - cbn [foldl]. rewrite IH. unfold processChoice at 1 2 3 4 5 6 7.
    cbn [result toolCallBuilders rawChunks StreamResult.Content
         StreamResult.ReasoningContent StreamResult.ToolCalls
         StreamResult.Usage StreamResult.Chunks].
    rewrite !fmap_cons, bind_cons, foldl_app. cbn [concatAll foldr].
    by rewrite !append_assoc.
Qed.

(** The locals after a run of chunks that decoded. *)
Lemma foldl_processChunk (chunks : list ChatCompletionChunk) :
  ∀ l : Locals,
    let l' := foldl processChunk l chunks in
    StreamResult.Content (result l') =
      StreamResult.Content (result l) +:+
      concatAll (ChunkDelta.Content <$> chunkDeltas chunks) ∧
    StreamResult.ReasoningContent (result l') =
      StreamResult.ReasoningContent (result l) +:+
      concatAll (ChunkDelta.ReasoningContent <$> chunkDeltas chunks) ∧
    StreamResult.ToolCalls (result l') = StreamResult.ToolCalls (result l) ∧
    StreamResult.Usage (result l') =
      from_option Some (StreamResult.Usage (result l))
        (last (omap ChatCompletionChunk.Usage chunks)) ∧
    StreamResult.Chunks (result l') =
      StreamResult.Chunks (result l) ++ chunks ∧
    toolCallBuilders l' =
      foldl routeToolCall (toolCallBuilders l) (chunkFragments chunks) ∧
    rawChunks l' = rawChunks l.
Proof.
  induction chunks as [|chunk chunks IH]; intros l; cbv zeta.
  - cbn. by rewrite !append_nil_r, app_nil_r.
  - cbn [foldl]. destruct (IH (processChunk l chunk))
      as (-> & -> & -> & -> & -> & -> & ->).
    unfold processChunk. rewrite foldl_processChoice.
    cbn [result toolCallBuilders rawChunks StreamResult.Content
         StreamResult.ReasoningContent StreamResult.ToolCalls
         StreamResult.Usage StreamResult.Chunks].
    unfold chunkFragments, chunkDeltas.
    rewrite !bind_cons, !fmap_app, !concatAll_app, !append_assoc, bind_app,
      foldl_app, <-(assoc_L (++)).
    repeat split; try done.
    cbn [omap list_omap]. destruct (ChatCompletionChunk.Usage chunk); [|done].
    rewrite last_cons. by destruct (last _).
Qed.

Lemma processChunk_ext (l1 l2 : Locals) (chunk : ChatCompletionChunk) :
  result l1 = result l2 →
  toolCallBuilders l1 = toolCallBuilders l2 →
  result (processChunk l1 chunk) = result (processChunk l2 chunk) ∧
  toolCallBuilders (processChunk l1 chunk) =
    toolCallBuilders (processChunk l2 chunk).
Proof.
  intros Hr Hb. unfold processChunk. rewrite !foldl_processChoice.
  cbn [result toolCallBuilders]. by rewrite Hr, Hb.
Qed.

Section ScanLoop.

Variable json_Unmarshal : string → ChatCompletionChunk + error.

(** The scan loop accumulates exactly the chunks of the stream: its result
    and builders are those of processing [streamChunks] in order. *)
Lemma scanLoop_data (tokens : list string) :
  ∀ (calls : nat) (l l0 : Locals),
    result l = result l0 →
    toolCallBuilders l = toolCallBuilders l0 →
    let l' := (scanLoop json_Unmarshal tokens calls l).1.1 in
    let l0' := foldl processChunk l0 (streamChunks json_Unmarshal tokens) in
    result l' = result l0' ∧ toolCallBuilders l' = toolCallBuilders l0'.
Proof.
  induction tokens as [|line tokens IH]; intros calls l l0 Hr Hb; cbv zeta.
  - done.
  - cbn [scanLoop streamChunks]. unfold loopBody.
    destruct (negb (HasPrefix line "data: ")).
    { by apply IH. }
    case_decide; [done |].
    destruct (json_Unmarshal _) as [chunk|err]; [|done].
    cbn [foldl]. apply IH; by apply processChunk_ext.
Qed.

(** What a successful call returns, in terms of the chunks of the stream. *)
Lemma parseSSEStream_ok (scanner : Scanner) (r : StreamResult)
    (raw : string) :
  parseSSEStream json_Unmarshal scanner = (Some r, raw, None) →
  let chunks := streamChunks json_Unmarshal (lines scanner) in
  let builders := finalBuilders json_Unmarshal scanner in
  StreamResult.Content r =
    concatAll (ChunkDelta.Content <$> chunkDeltas chunks) ∧
  StreamResult.ReasoningContent r =
    concatAll (ChunkDelta.ReasoningContent <$> chunkDeltas chunks) ∧
  StreamResult.ToolCalls r = buildToolCalls builders [] ∧
  StreamResult.Usage r = last (omap ChatCompletionChunk.Usage chunks) ∧
  StreamResult.Chunks r = chunks ∧
  builders = foldl routeToolCall ∅ (chunkFragments chunks).
Proof.
  unfold parseSSEStream, finalBuilders.
  pose proof (scanLoop_data (lines scanner) 0 initLocals initLocals
                eq_refl eq_refl) as [Hr Hb].
  cbv zeta in Hr, Hb.
  destruct (foldl_processChunk
              (streamChunks json_Unmarshal (lines scanner)) initLocals)
    as (HC & HR & HT & HU & HK & HB & _).
  cbv zeta in HC, HR, HT, HU, HK, HB. rewrite <- Hr in HC, HR, HT, HU, HK.
  rewrite <- Hb in HB. clear Hr Hb.
  destruct (scanLoop _ _ _ _) as [[l calls] flow]. cbn [fst snd] in *.
  intros Hparse.
  assert (Some r =
          Some (StreamResult.mk (StreamResult.Content (result l))
                  (StreamResult.ReasoningContent (result l))
                  (buildToolCalls (toolCallBuilders l)
                     (StreamResult.ToolCalls (result l)))
                  (StreamResult.Usage (result l))
                  (StreamResult.Chunks (result l)))) as Hsome.
  { destruct flow; [| |done]; by destruct (Err scanner calls);
      simplify_eq. }
  injection Hsome as ->. cbn.
  rewrite HC, HR, HT, HU, HK, HB. cbn.
  repeat split; try done. by destruct (last _).
Qed.

(** The bytes kept are the lines read, each with its line feed. *)
Lemma scanLoop_raw_goesOn (read rest : list string) :
  ∀ (calls : nat) (l : Locals),
    Forall (λ line, goesOn json_Unmarshal line = true) read →
    ∃ l',
      scanLoop json_Unmarshal (read ++ rest) calls l =
        scanLoop json_Unmarshal rest (calls + length read) l' ∧
      rawChunks l' = rawChunks l +:+ rawOf read.
Proof.
  induction read as [|line read IH]; intros calls l Hread.
  - exists l. rewrite Nat.add_0_r. cbn. by rewrite append_nil_r.
  - apply Forall_cons in Hread as [Hline Hread].
    cbn [app scanLoop]. unfold goesOn in Hline. unfold loopBody.
    destruct (negb (HasPrefix line "data: ")).
    + destruct (IH (S calls) (mkLocals (result l) (toolCallBuilders l)
                   ((rawChunks l +:+ line) +:+ newline)) Hread)
        as (l' & -> & Hl').
      exists l'. split; [f_equal; cbn; lia |].
      rewrite Hl'. cbn. unfold rawOf. cbn. by rewrite !append_assoc.
    + case_decide; [done |].
      destruct (json_Unmarshal _) as [chunk|err]; [|done].
      destruct (IH (S calls)
                  (processChunk
                     (mkLocals (result l) (toolCallBuilders l)
                        ((rawChunks l +:+ line) +:+ newline)) chunk) Hread)
        as (l' & -> & Hl').
      exists l'. split; [f_equal; cbn; lia |]. rewrite Hl'.
      destruct (foldl_processChunk [chunk]
                  (mkLocals (result l) (toolCallBuilders l)
                     ((rawChunks l +:+ line) +:+ newline)))
        as (_ & _ & _ & _ & _ & _ & Hraw).
      cbn [foldl] in Hraw. rewrite Hraw. cbn. unfold rawOf. cbn.
      by rewrite !append_assoc.
Qed.

End ScanLoop.

(** ** Finalization *)

Lemma buildToolCalls_spec (builders : gmap Z toolCallBuilder)
    (calls : list ToolCall) :
  buildToolCalls builders calls =
  calls ++
  ((λ i, Build (default newBuilder (builders !! i)))
     <$> emittedPositions builders).
Proof.
  unfold buildToolCalls, emittedPositions.
  generalize (seqZ 0 (Z.of_nat (size builders))). intros positions.
  revert calls. induction positions as [|i positions IH]; intros calls.
  - cbn. by rewrite app_nil_r.
  - cbn [foldl]. rewrite IH, filter_cons.
    destruct (builders !! i) as [b|] eqn:Hi.
    + rewrite decide_True by eauto. cbn. rewrite Hi. cbn.
      by rewrite <- (assoc_L (++)).
    + rewrite decide_False; [done |]. by intros [? ?].
Qed.

Lemma emittedPositions_elem_of (builders : gmap Z toolCallBuilder) (i : Z) :
  i ∈ emittedPositions builders ↔
  is_Some (builders !! i) ∧ 0 ≤ i < Z.of_nat (size builders).
Proof.
  unfold emittedPositions. rewrite list_elem_of_filter, elem_of_seqZ.
  split; intros [? ?]; split; (done || lia).
Qed.

Lemma emittedPositions_sorted (builders : gmap Z toolCallBuilder) :
  StronglySorted Z.lt (emittedPositions builders).
Proof.
  unfold emittedPositions. generalize (size builders). intros n.
  induction n as [|n IH]; [constructor |].
  rewrite seqZ_S, filter_app. apply StronglySorted_app.
  split; [|split; [done |]].
  - intros x1 x2 [_ H1]%list_elem_of_filter [_ H2]%list_elem_of_filter.
    apply elem_of_seqZ in H1. apply list_elem_of_singleton in H2. lia.
  - rewrite filter_cons, filter_nil. case_decide; repeat constructor.
Qed.

Lemma dom_foldl_routeToolCall (fragments : list ToolCallDelta) :
  ∀ builders : gmap Z toolCallBuilder,
    dom (foldl routeToolCall builders fragments) =
    dom builders ∪ list_to_set (ToolCallDelta.Index <$> fragments).
Proof.
  induction fragments as [|tc fragments IH]; intros builders.
  - cbn. by rewrite (right_id_L ∅ (∪)).
  - cbn [foldl]. rewrite IH. unfold routeToolCall.
    rewrite dom_insert_L, fmap_cons, list_to_set_cons.
    by rewrite (comm_L (∪) {[_]} (dom builders)), (assoc_L (∪)).
Qed.

Section Reconstructor.

Variable json_Unmarshal : string → ChatCompletionChunk + error.

Lemma finalBuilders_spec (scanner : Scanner) :
  finalBuilders json_Unmarshal scanner =
  foldl routeToolCall ∅
    (chunkFragments (streamChunks json_Unmarshal (lines scanner))).
Proof.
  unfold finalBuilders.
  pose proof (scanLoop_data json_Unmarshal (lines scanner) 0 initLocals
                initLocals eq_refl eq_refl) as [_ Hb].
  cbv zeta in Hb. rewrite Hb.
  by destruct (foldl_processChunk
                 (streamChunks json_Unmarshal (lines scanner)) initLocals)
    as (_ & _ & _ & _ & _ & -> & _).
Qed.

Lemma parseSSEStream_error_nil (scanner : Scanner)
    (r : option StreamResult) (raw : string) (err : error) :
  parseSSEStream json_Unmarshal scanner = (r, raw, Some err) → r = None.
Proof.
  unfold parseSSEStream.
  destruct (scanLoop _ _ _ _) as [[l calls] flow].
  destruct flow; [| |by intros [= <- _ _]];
    by destruct (Err scanner calls); intros [= <- _ ?].
Qed.

(** C1. After the scan loop is left without an error, the tool calls of the
    result are built by walking the positions 0, 1, ... below the number of
    builders, which is the number of distinct positions seen, and emitting
    the builder of each position that has one: the list is in ascending
    position order, and a builder at a position at or beyond that count (or
    below 0) is not emitted. *)
Theorem tool_calls_finalized_by_count (scanner : Scanner) (r : StreamResult)
    (raw : string) :
  parseSSEStream json_Unmarshal scanner = (Some r, raw, None) →
  let builders := finalBuilders json_Unmarshal scanner in
  let seen :=
    ToolCallDelta.Index
      <$> chunkFragments (streamChunks json_Unmarshal (lines scanner)) in
  dom builders = list_to_set seen ∧
  size builders = length (remove_dups seen) ∧
  StreamResult.ToolCalls r =
    (λ i, Build (default newBuilder (builders !! i)))
      <$> emittedPositions builders ∧
  StronglySorted Z.lt (emittedPositions builders) ∧
  (∀ i, i ∈ emittedPositions builders ↔
        is_Some (builders !! i) ∧ 0 ≤ i < Z.of_nat (size builders)) ∧
  (∀ i, is_Some (builders !! i) → Z.of_nat (size builders) ≤ i →
        i ∉ emittedPositions builders).
Proof.
  intros Hparse builders seen.
  destruct (parseSSEStream_ok json_Unmarshal scanner r raw Hparse)
    as (_ & _ & Hcalls & _ & _ & _).
  assert (dom builders = list_to_set seen) as Hdom.
  { unfold builders, seen. rewrite finalBuilders_spec, dom_foldl_routeToolCall.
    by rewrite dom_empty_L, (left_id_L ∅ (∪)). }
  split; [done |]. split.
  { rewrite <- (size_dom (D:=gset Z)), Hdom.
    assert (list_to_set seen =@{gset Z} list_to_set (remove_dups seen)) as ->.
    { apply set_eq. intros i.
      by rewrite !elem_of_list_to_set, elem_of_remove_dups. }
    apply size_list_to_set, NoDup_remove_dups. }
  split; [by rewrite Hcalls, buildToolCalls_spec |].
  split; [apply emittedPositions_sorted |].
  split; [apply emittedPositions_elem_of |].
  intros i _ Hi [_ ?]%emittedPositions_elem_of. lia.
Qed.

(** C2. Of the fragments routed to one position, the finalized tool call
    takes for its id, type and name the last non-empty value in arrival
    order each (an empty value clears nothing), and for its arguments the
    concatenation of all pieces in arrival order; a position no fragment was
    routed to has no builder. *)
Theorem builder_fields_last_non_empty (scanner : Scanner) (i : Z) :
  let routed :=
    fragmentsAt i
      (chunkFragments (streamChunks json_Unmarshal (lines scanner))) in
  Build <$> finalBuilders json_Unmarshal scanner !! i =
  if decide (routed = []) then None
  else
    Some
      (ToolCall.mk
         (lastNonEmpty (ToolCallDelta.ID <$> routed))
         (lastNonEmpty (ToolCallDelta.Type_ <$> routed))
         (ToolCallFunction.mk
            (lastNonEmpty
               ((λ tc, ToolCallFunctionDelta.Name (ToolCallDelta.Function tc))
                  <$> routed))
            (concatAll
               ((λ tc,
                   ToolCallFunctionDelta.Arguments (ToolCallDelta.Function tc))
                  <$> routed)))).
Proof.
  intros routed. rewrite finalBuilders_spec, foldl_routeToolCall_lookup.
  fold routed. rewrite lookup_empty.
  destruct (foldl_Accumulate routed) as (Hid & Htyp & Hname & Hargs).
  cbv zeta in Hid, Htyp, Hname, Hargs.
  destruct routed as [|tc routed'] eqn:Hrouted; [done |].
  rewrite decide_False by done. cbn [fmap option_fmap option_map default].
  unfold Build. by rewrite Hid, Htyp, Hname, Hargs.
Qed.

(** C3. A data line that is not the sentinel and does not decode, met
    before anything ended the loop, makes [parseSSEStream] return a nil
    result, the raw bytes of the lines read so far with the offending line
    last, and the decoding error; and whenever an error is returned, the
    result returned with it is nil. *)
Theorem malformed_frame_is_fatal (scanner : Scanner)
    (read : list string) (bad : string) (rest : list string) (err : error) :
  lines scanner = read ++ bad :: rest →
  Forall (λ line, goesOn json_Unmarshal line = true) read →
  HasPrefix bad "data: " = true →
  TrimPrefix bad "data: " ≠ "[DONE]" →
  json_Unmarshal (TrimPrefix bad "data: ") = inr err →
  parseSSEStream json_Unmarshal scanner =
    (None, rawOf (read ++ [bad]), Some ("unmarshal chunk: " +:+ err)) ∧
  (∀ scanner' r raw err',
     parseSSEStream json_Unmarshal scanner' = (r, raw, Some err') →
     r = None).
Proof.
  intros Hlines Hread Hdata Hdone Hbad.
  split; [|apply parseSSEStream_error_nil].
  unfold parseSSEStream. rewrite Hlines.
  destruct (scanLoop_raw_goesOn json_Unmarshal read (bad :: rest) 0
              initLocals Hread) as (l' & -> & Hraw).
  cbn [scanLoop]. unfold loopBody. rewrite Hdata. cbn [negb].
  rewrite decide_False by done. rewrite Hbad. cbn [rawChunks].
  rewrite Hraw. cbn [initLocals rawChunks].
  unfold rawOf. rewrite fmap_app, concatAll_app. cbn.
  by rewrite append_nil_r, append_assoc.
Qed.

(** C7. The usage of the result is the snapshot of the last chunk of the
    stream that carried one, whole; it is nil when no chunk carried one. *)
Theorem usage_is_last_snapshot (scanner : Scanner) (r : StreamResult)
    (raw : string) :
  parseSSEStream json_Unmarshal scanner = (Some r, raw, None) →
  StreamResult.Usage r =
  last (omap ChatCompletionChunk.Usage
          (streamChunks json_Unmarshal (lines scanner))).
Proof.
  intros Hparse.
  by destruct (parseSSEStream_ok json_Unmarshal scanner r raw Hparse)
    as (_ & _ & _ & -> & _ & _).
Qed.

(** C10. Every choice of every chunk is accumulated, in list order: the
    content and the reasoning content of the result are the concatenations
    of the fragments of all choices of all chunks, and every tool-call
    fragment of every choice is routed to the builder of its position. The
    builder of a position holds what the fragments with that position, taken
    from all choices of all chunks in order, add up to: the last non-empty
    id, type and name and all the argument pieces; a position that no
    fragment of any choice carries has no builder. *)
Theorem every_choice_is_accumulated (scanner : Scanner) (r : StreamResult)
    (raw : string) :
  parseSSEStream json_Unmarshal scanner = (Some r, raw, None) →
  let deltas :=
    streamChunks json_Unmarshal (lines scanner) ≫= λ chunk,
      ChunkChoice.Delta <$> ChatCompletionChunk.Choices chunk in
  let fragments := deltas ≫= ChunkDelta.ToolCalls in
  StreamResult.Content r = concatAll (ChunkDelta.Content <$> deltas) ∧
  StreamResult.ReasoningContent r =
    concatAll (ChunkDelta.ReasoningContent <$> deltas) ∧
  (∀ i,
     finalBuilders json_Unmarshal scanner !! i =
     match filter (λ tc, ToolCallDelta.Index tc = i) fragments with
     | [] => None
     | routed =>
         Some
           (mkBuilder
              (lastNonEmpty (ToolCallDelta.ID <$> routed))
              (lastNonEmpty (ToolCallDelta.Type_ <$> routed))
              (lastNonEmpty
                 ((λ tc,
                     ToolCallFunctionDelta.Name (ToolCallDelta.Function tc))
                    <$> routed))
              (concatAll
                 ((λ tc,
                     ToolCallFunctionDelta.Arguments
                       (ToolCallDelta.Function tc))
                    <$> routed)))
     end).
Proof.
  intros Hparse deltas fragments.
  destruct (parseSSEStream_ok json_Unmarshal scanner r raw Hparse)
    as (HC & HR & _ & _ & _ & HB).
  split; [by rewrite HC |]. split; [by rewrite HR |].
  intros i. rewrite HB, foldl_routeToolCall_lookup, lookup_empty.
  change (fragmentsAt i
            (chunkFragments (streamChunks json_Unmarshal (lines scanner))))
    with (filter (λ tc, ToolCallDelta.Index tc = i) fragments).
  destruct (filter (λ tc, ToolCallDelta.Index tc = i) fragments)
    as [|tc routed]; [done |].
  destruct (foldl_Accumulate (tc :: routed)) as (Hid & Htyp & Hname & Hargs).
  cbv zeta in Hid, Htyp, Hname, Hargs. cbn [default].
  destruct (foldl Accumulate newBuilder (tc :: routed)) as [bi bt bn ba].
  cbn in Hid, Htyp, Hname, Hargs. by subst.
Qed.

End Reconstructor.

(** A stream whose tool calls sit at positions 0 and 2: only position 0 is
    emitted. *)
Lemma tool_calls_finalized_by_count_witness :
  ∃ r raw,
    parseSSEStream sampleUnmarshal
      (sampleScanner ["data: call0"; "data: call2"; "data: [DONE]"]) =
      (Some r, raw, None) ∧
    StreamResult.ToolCalls r =
      [ToolCall.mk "abc" "function" (ToolCallFunction.mk "get_weather" "")].
Proof.
  eexists _, _. split; [vm_compute; reflexivity |].
  destruct (tool_calls_finalized_by_count sampleUnmarshal
              (sampleScanner ["data: call0"; "data: call2"; "data: [DONE]"])
              _ _ eq_refl) as (_ & _ & Hcalls & _).
  vm_compute in Hcalls. vm_compute. exact Hcalls.
Defined.

Lemma malformed_frame_is_fatal_witness :
  parseSSEStream sampleUnmarshal
    (sampleScanner ["data: hel"; ": keep-alive"; "data: {oops"; "data: lo"]) =
  (None,
   rawOf ["data: hel"; ": keep-alive"; "data: {oops"],
   Some "unmarshal chunk: invalid character").
Proof.
  refine (proj1 (malformed_frame_is_fatal sampleUnmarshal
            (sampleScanner
               ["data: hel"; ": keep-alive"; "data: {oops"; "data: lo"])
            ["data: hel"; ": keep-alive"] "data: {oops" ["data: lo"]
            "invalid character" eq_refl _ eq_refl _ eq_refl)).
  - repeat constructor.
  - vm_compute. discriminate.
Defined.

Lemma usage_is_last_snapshot_witness :
  ∃ r raw,
    parseSSEStream sampleUnmarshal
      (sampleScanner ["data: usage1"; "data: hel"; "data: usage2"]) =
      (Some r, raw, None) ∧
    StreamResult.Usage r = Some (Usage.mk 10 20 30).
Proof.
  eexists _, _. split; [vm_compute; reflexivity |].
  pose proof (usage_is_last_snapshot sampleUnmarshal
                (sampleScanner ["data: usage1"; "data: hel"; "data: usage2"])
                _ _ eq_refl) as Husage.
  vm_compute in Husage. vm_compute. exact Husage.
Defined.

Lemma every_choice_is_accumulated_witness :
  ∃ r raw,
    parseSSEStream sampleUnmarshal
      (sampleScanner ["data: two"; "data: [DONE]"]) = (Some r, raw, None) ∧
    StreamResult.Content r = "AB" ∧
    StreamResult.ReasoningContent r = "xy" ∧
    finalBuilders sampleUnmarshal
      (sampleScanner ["data: two"; "data: [DONE]"]) !! 0 =
      Some (mkBuilder "abc" "" "f" "{}") ∧
    StreamResult.ToolCalls r =
      [ToolCall.mk "abc" "" (ToolCallFunction.mk "f" "{}")].
Proof.
  eexists _, _. split; [vm_compute; reflexivity |].
  destruct (every_choice_is_accumulated sampleUnmarshal
              (sampleScanner ["data: two"; "data: [DONE]"]) _ _ eq_refl)
    as (HC & HR & HB).
  specialize (HB 0).
  vm_compute in HC, HR, HB. vm_compute. by repeat split.
Defined.

(** The two examples of the specification: text fragments are joined, and
    a tool call is assembled from its fragments; the lines after the
    sentinel are not read. *)
Example text_fragments_are_joined :
  parseSSEStream sampleUnmarshal
    (sampleScanner ["data: hel"; ""; "data: lo"; "data: [DONE]"; "data: lo"]) =
  (Some
     (StreamResult.mk "Hello" "" [] None
        [sampleChunk [sampleDelta "Hel" "" []] None;
         sampleChunk [sampleDelta "lo" "" []] None]),
   rawOf ["data: hel"; ""; "data: lo"; "data: [DONE]"],
   None).
Proof. vm_compute. reflexivity. Qed.

Example tool_call_is_assembled :
  StreamResult.ToolCalls
    <$> (parseSSEStream sampleUnmarshal
           (sampleScanner
              ["data: call0"; "data: args0a"; "data: args0b";
               "data: [DONE]"])).1.1 =
  Some
    [ToolCall.mk "abc" "function"
       (ToolCallFunction.mk "get_weather" "{location:SF}")].
Proof. vm_compute. reflexivity. Qed.

(** ** Selection *)

(** C6. The classes form the chain standard, reasoning, interleaved:
    a requested class of the chain matches exactly the eval classes of the
    chain at or below it, the empty request matches every class, and any
    other request matches only itself. On a registry of one case per class,
    requesting reasoning selects the standard and the reasoning case,
    requesting interleaved or nothing selects all three. *)
Theorem class_selection_is_inclusive :
  (∀ evalClass requestedClass : string,
     ClassMatches evalClass requestedClass =
     match classRank requestedClass with
     | Some requested =>
         match classRank evalClass with
         | Some required => bool_decide (required ≤ requested)%nat
         | None => false
         end
     | None =>
         bool_decide (requestedClass = "" ∨ evalClass = requestedClass)
     end) ∧
  (∀ evalClass : string, ClassMatches evalClass "" = true) ∧
  Eval.Name <$> selectEvals (sampleConfig ClassReasoning 1 "") sampleRegistry
    = ["A"; "B"] ∧
  Eval.Name <$> selectEvals (sampleConfig ClassInterleaved 1 "") sampleRegistry
    = ["A"; "B"; "C"] ∧
  Eval.Name <$> selectEvals (sampleConfig "" 1 "") sampleRegistry
    = ["A"; "B"; "C"].
Proof.
  split; [|by repeat split].
  intros evalClass requestedClass.
  unfold ClassMatches, classRank, ClassStandard, ClassReasoning,
    ClassInterleaved.
  repeat case_decide; simplify_eq; try done;
    repeat case_bool_decide; try done; try lia; intuition congruence.
Qed.

Section RunnerProperties.

Context {World : Type} `{!Host World}.

Implicit Types (e : Eval World) (m : Machine World) (config : RunnerConfig).

Lemma selectEvals_filter config (registry : list (Eval World)) :
  selectEvals config registry =
  filter (λ e, selects config e = true) registry.
Proof.
  unfold selectEvals.
  enough (∀ evals : list (Eval.t World),
            foldl
              (λ evals e,
                 if bool_decide (RunnerConfig.Filter config ≠ "") &&
                    negb (Contains (Eval.Name e) (RunnerConfig.Filter config))
                 then evals
                 else if negb (ClassMatches (Eval.Class e)
                                 (RunnerConfig.Class config))
                 then evals
                 else if negb (RunnerConfig.All config) && IsDefaultDisabled e
                 then evals
                 else evals ++ [e])
              evals registry =
            evals ++ filter (λ e, selects config e = true) registry)
    as Hgen by apply (Hgen []).
  induction registry as [|e registry IH]; intros evals.
  - by rewrite app_nil_r.
  - cbn [foldl]. rewrite IH, filter_cons. unfold selects.
    destruct (bool_decide (RunnerConfig.Filter config ≠ "")) eqn:Hf.
    + apply bool_decide_eq_true in Hf.
      rewrite (bool_decide_eq_false_2 (RunnerConfig.Filter config = "")) by done.
      cbn [orb andb].
      destruct (Contains _ _), (ClassMatches _ _), (RunnerConfig.All config),
        (IsDefaultDisabled e); cbn; by rewrite <- ?(assoc_L (++)).
    + apply bool_decide_eq_false in Hf.
      rewrite (bool_decide_eq_true_2 (RunnerConfig.Filter config = ""))
        by (by destruct (decide (RunnerConfig.Filter config = ""))).
      cbn [orb andb].
      destruct (ClassMatches _ _), (RunnerConfig.All config),
        (IsDefaultDisabled e); cbn; by rewrite <- ?(assoc_L (++)).
Qed.

Lemma jobsToSend_combinations config (evals : list (Eval World)) :
  jobsToSend config evals = combinations config evals.
Proof.
  unfold jobsToSend, combinations, modesOf.
  enough (∀ sent : list (evalJob.t World),
            foldl
              (λ sent e,
                 if decide (effectiveMode config = ModeBlocking)
                 then sent ++ [evalJob.mk e false]
                 else if decide (effectiveMode config = ModeStreaming)
                 then sent ++ [evalJob.mk e true]
                 else if decide (effectiveMode config = ModeBoth)
                 then (sent ++ [evalJob.mk e false]) ++ [evalJob.mk e true]
                 else sent)
              sent evals =
            sent ++
            (evals ≫= λ e,
               evalJob.mk e <$>
               (if decide (effectiveMode config = ModeBlocking) then [false]
                else if decide (effectiveMode config = ModeStreaming)
                then [true]
                else if decide (effectiveMode config = ModeBoth)
                then [false; true]
                else [])))
    as Hgen by apply (Hgen []).
  induction evals as [|e evals IH]; intros sent.
  - by rewrite app_nil_r.
  - cbn [foldl]. rewrite IH, bind_cons.
    repeat case_decide; cbn; by rewrite <- ?(assoc_L (++)).
Qed.

(** ** One case in one mode *)

Lemma modeName_qualified e :
  modeName e false ≠ modeName e true ∧
  modeName e false ≠ Eval.Name e ∧
  modeName e true ≠ Eval.Name e.
Proof.
  unfold modeName. repeat split.
  - by intros ?%(inj (String.app _)).
  - rewrite <- (append_nil_r (Eval.Name e)) at 2.
    by intros ?%(inj (String.app _)).
  - rewrite <- (append_nil_r (Eval.Name e)) at 2.
    by intros ?%(inj (String.app _)).
Qed.

(** The result of [runSingleEval] and what it leaves behind, but for the
    Logger. *)
Lemma runSingleEval_spec e (streaming : bool) m :
  let seen := if Eval.streamModeEval e then streaming else streamingField m e in
  let ran := Eval.Run e seen (Machine.world m) in
  let out := runSingleEval e streaming m in
  out.1 =
    Result.mk (modeName e streaming) (Eval.Category e)
      (Result.Passed ran.1) (Result.Message ran.1)
      (now ran.2 - now (Machine.world m)) ∧
  Machine.world out.2 = ran.2 ∧
  Machine.fields out.2 =
    (if Eval.streamModeEval e
     then <[Eval.ref e := streaming]> (Machine.fields m)
     else Machine.fields m) ∧
  Machine.stdout out.2 = Machine.stdout m.
Proof.
  destruct m as [w fields lg out].
  unfold runSingleEval, setMode, startLog, invoke, logResult, endLog,
    streamingField.
  destruct (Eval.streamModeEval e); destruct lg;
    cbn [Machine.world Machine.fields Machine.logger Machine.stdout];
    rewrite ?lookup_insert_eq; cbn [default];
    by destruct (Eval.Run e _ w).
Qed.

Lemma runEvalInModes_spec config e m :
  resultLabel <$> (runEvalInModes config e m).1 =
    (λ streaming, jobLabel (evalJob.mk e streaming)) <$> modesOf config ∧
  Machine.stdout (runEvalInModes config e m).2 = Machine.stdout m.
Proof.
  unfold runEvalInModes, modesOf.
  repeat case_decide; try done.
  - destruct (runSingleEval_spec e false m) as (Hr & _ & _ & Hout).
    cbv zeta in Hr, Hout. destruct (runSingleEval e false m) as [r1 m1].
    cbn in *. by rewrite Hr.
  - destruct (runSingleEval_spec e true m) as (Hr & _ & _ & Hout).
    cbv zeta in Hr, Hout. destruct (runSingleEval e true m) as [r1 m1].
    cbn in *. by rewrite Hr.
  - destruct (runSingleEval_spec e false m) as (Hr & _ & _ & Hout).
    cbv zeta in Hr, Hout. destruct (runSingleEval e false m) as [r1 m1].
    destruct (runSingleEval_spec e true m1) as (Hr' & _ & _ & Hout').
    cbv zeta in Hr', Hout'. destruct (runSingleEval e true m1) as [r2 m2].
    cbn in *. by rewrite Hr, Hr', Hout', Hout.
Qed.

(** C8, as the code has it. The name of a Result is always qualified by
    the mode of its run, in a single mode as much as in both: it is the case
    name followed by " (blocking)" or " (streaming)". The two names of one
    case differ from each other and from the bare case name. *)
Theorem result_name_is_always_mode_qualified config e m :
  Result.Name <$> (runEvalInModes config e m).1 =
    modeName e <$> modesOf config ∧
  (∀ streaming : bool,
     Result.Name (runSingleEval e streaming m).1 =
     Eval.Name e +:+ (if streaming then " (streaming)" else " (blocking)")) ∧
  modeName e false ≠ modeName e true ∧
  modeName e false ≠ Eval.Name e ∧
  modeName e true ≠ Eval.Name e.
Proof.
  split; [|split; [|apply modeName_qualified]].
  - destruct (runEvalInModes_spec config e m) as [Hlabels _].
    apply (f_equal (fmap fst)) in Hlabels.
    by rewrite <- !list_fmap_compose in Hlabels.
  - intros streaming.
    destruct (runSingleEval_spec e streaming m) as (Hr & _).
    cbv zeta in Hr. rewrite Hr. by destruct streaming.
Qed.

(** ** The Logger and the outcome *)

Lemma sameOutside_refl m : sameOutside m m.
Proof. done. Qed.

Lemma sameOutside_sym m1 m2 : sameOutside m1 m2 → sameOutside m2 m1.
Proof. by intros [? ?]. Qed.

Lemma sameOutside_withLogger (lg1 lg2 : option Logger) m :
  sameOutside (withLogger lg1 m) (withLogger lg2 m).
Proof. done. Qed.

Lemma setMode_sameOutside e (streaming : bool) m1 m2 :
  sameOutside m1 m2 →
  sameOutside (setMode e streaming m1) (setMode e streaming m2).
Proof.
  intros [Hw Hf]. unfold setMode.
  destruct (Eval.streamModeEval e); split; cbn; congruence.
Qed.

Lemma startLog_sameOutside (title1 title2 : string) m1 m2 :
  sameOutside m1 m2 →
  sameOutside (startLog title1 m1) (startLog title2 m2).
Proof.
  intros [Hw Hf]. unfold startLog.
  by destruct (Machine.logger m1), (Machine.logger m2).
Qed.

Lemma invoke_sameOutside e (title : string) m1 m2 :
  sameOutside m1 m2 →
  (invoke e title m1).1 = (invoke e title m2).1 ∧
  sameOutside (invoke e title m1).2 (invoke e title m2).2.
Proof.
  intros [Hw Hf]. unfold invoke, streamingField. rewrite Hw, Hf.
  by destruct (Eval.Run e _ _).
Qed.

Lemma logResult_sameOutside (r1 r2 : Result) m1 m2 :
  sameOutside m1 m2 →
  sameOutside (logResult r1 m1) (logResult r2 m2).
Proof.
  intros [Hw Hf]. unfold logResult.
  by destruct (Machine.logger m1), (Machine.logger m2).
Qed.

Lemma endLog_sameOutside m1 m2 :
  sameOutside m1 m2 → sameOutside (endLog m1) (endLog m2).
Proof.
  intros [Hw Hf]. unfold endLog.
  by destruct (Machine.logger m1), (Machine.logger m2).
Qed.

Lemma print_sameOutside (o1 o2 : Output) m1 m2 :
  sameOutside m1 m2 → sameOutside (print o1 m1) (print o2 m2).
Proof. by intros [Hw Hf]. Qed.

Lemma runSingleEval_sameOutside e (streaming : bool) m1 m2 :
  sameOutside m1 m2 →
  (runSingleEval e streaming m1).1 = (runSingleEval e streaming m2).1 ∧
  sameOutside (runSingleEval e streaming m1).2
    (runSingleEval e streaming m2).2.
Proof.
  intros Hm. unfold runSingleEval.
  pose proof (invoke_sameOutside e (modeName e streaming) _ _
                (startLog_sameOutside (modeName e streaming)
                   (modeName e streaming) _ _
                   (setMode_sameOutside e streaming _ _ Hm))) as [Hr Hm'].
  destruct (invoke e _ (startLog _ (setMode e streaming m1))) as [r1 m1'].
  destruct (invoke e _ (startLog _ (setMode e streaming m2))) as [r2 m2'].
  cbn in Hr, Hm'. subst r2. split; [done |].
  by apply endLog_sameOutside, logResult_sameOutside.
Qed.

Lemma runEvalInModes_sameOutside config e m1 m2 :
  sameOutside m1 m2 →
  (runEvalInModes config e m1).1 = (runEvalInModes config e m2).1 ∧
  sameOutside (runEvalInModes config e m1).2 (runEvalInModes config e m2).2.
Proof.
  intros Hm. unfold runEvalInModes. repeat case_decide; try done.
  - destruct (runSingleEval_sameOutside e false _ _ Hm) as [Hr Hm'].
    destruct (runSingleEval e false m1), (runSingleEval e false m2).
    cbn in *. by subst.
  - destruct (runSingleEval_sameOutside e true _ _ Hm) as [Hr Hm'].
    destruct (runSingleEval e true m1), (runSingleEval e true m2).
    cbn in *. by subst.
  - destruct (runSingleEval_sameOutside e false _ _ Hm) as [Hr Hm'].
    destruct (runSingleEval e false m1) as [r1 m1'],
      (runSingleEval e false m2) as [r2 m2'].
    cbn in Hr, Hm'. subst r2.
    destruct (runSingleEval_sameOutside e true _ _ Hm') as [Hr Hm''].
    destruct (runSingleEval e true m1'), (runSingleEval e true m2').
    cbn in *. by subst.
Qed.

(** ** The sequential runner *)

Lemma reportResults_spec config (rs results : list Result) m :
  (reportResults config rs results m).1 = results ++ rs ∧
  sameOutside (reportResults config rs results m).2 m.
Proof.
  unfold reportResults. revert results m.
  induction rs as [|r rs IH]; intros results m.
  - cbn. by rewrite app_nil_r.
  - cbn [foldl]. destruct (IH (results ++ [r])
      (print (printResult (RunnerConfig.Verbose config) (logDir m) r) m))
      as [-> [Hw Hf]].
    by rewrite <- (assoc_L (++)).
Qed.

Lemma sequentialBody_labels config (results : list Result)
    (category : string) m e :
  resultLabel <$> (sequentialBody config (results, category, m) e).1.1 =
  (resultLabel <$> results) ++
  (jobLabel <$> (evalJob.mk e <$> modesOf config)).
Proof.
  unfold sequentialBody.
  set (entered := if decide (Eval.Category e ≠ category)
                  then (Eval.Category e, print (Println (Eval.Category e)) m)
                  else (category, m)).
  destruct entered as [category' ma]. clear m.
  destruct (runEvalInModes_spec config e ma) as [Hlabels _].
  destruct (runEvalInModes config e ma) as [rs mb].
  destruct (reportResults_spec config rs results mb) as [Hrs _].
  destruct (reportResults config rs results mb) as [results' mc].
  cbn in *. subst results'.
  by rewrite fmap_app, Hlabels, <- list_fmap_compose.
Qed.

Lemma sequentialBody_sameOutside config (results : list Result)
    (category : string) m1 m2 e :
  sameOutside m1 m2 →
  let out1 := sequentialBody config (results, category, m1) e in
  let out2 := sequentialBody config (results, category, m2) e in
  out1.1 = out2.1 ∧ sameOutside out1.2 out2.2.
Proof.
  intros Hm. cbv zeta. unfold sequentialBody.
  assert (∃ category' ma1 ma2,
            (if decide (Eval.Category e ≠ category)
             then (Eval.Category e, print (Println (Eval.Category e)) m1)
             else (category, m1)) = (category', ma1) ∧
            (if decide (Eval.Category e ≠ category)
             then (Eval.Category e, print (Println (Eval.Category e)) m2)
             else (category, m2)) = (category', ma2) ∧
            sameOutside ma1 ma2) as (category' & ma1 & ma2 & -> & -> & Hma).
  { case_decide; eexists _, _, _; (split; [done | split; [done |]]);
      [by apply print_sameOutside | done]. }
  destruct (runEvalInModes_sameOutside config e _ _ Hma) as [Hrs Hmb].
  destruct (runEvalInModes config e ma1) as [rs1 mb1].
  destruct (runEvalInModes config e ma2) as [rs2 mb2].
  cbn in Hrs, Hmb. subst rs2.
  destruct (reportResults_spec config rs1 results mb1) as [Hr1 [Hw1 Hf1]].
  destruct (reportResults_spec config rs1 results mb2) as [Hr2 [Hw2 Hf2]].
  destruct (reportResults config rs1 results mb1) as [results1 mc1].
  destruct (reportResults config rs1 results mb2) as [results2 mc2].
  destruct Hmb as [Hw Hf]. cbn in *. subst.
  split; [done |]. split; cbn; congruence.
Qed.

Lemma runSequential_labels config (evals : list (Eval World)) m :
  resultLabel <$> (runSequential config evals m).1 =
  jobLabel <$> combinations config evals.
Proof.
  unfold runSequential.
  enough (∀ state : list Result * string * Machine World,
            resultLabel <$> (foldl (sequentialBody config) state evals).1.1 =
            (resultLabel <$> state.1.1) ++
            (jobLabel <$> combinations config evals)) as Hgen.
  { specialize (Hgen ([], "", m)).
    by destruct (foldl (sequentialBody config) ([], "", m) evals) as [[? ?] ?]. }
  induction evals as [|e evals IH]; intros [[results category] m0].
  - cbn. by rewrite app_nil_r.
  - cbn [foldl]. rewrite IH.
    destruct (sequentialBody config (results, category, m0) e)
      as [[results' category'] m0'] eqn:Hbody.
    pose proof (sequentialBody_labels config results category m0 e) as Hl.
    rewrite Hbody in Hl. cbn in Hl |- *. rewrite Hl.
    unfold combinations. cbn [mbind list_bind].
    by rewrite fmap_app, <- (assoc_L (++)).
Qed.

Lemma runSequential_sameOutside config (evals : list (Eval World)) m1 m2 :
  sameOutside m1 m2 →
  (runSequential config evals m1).1 = (runSequential config evals m2).1.
Proof.
  intros Hm. unfold runSequential.
  enough (∀ (results : list Result) (category : string) m1 m2,
            sameOutside m1 m2 →
            (foldl (sequentialBody config) (results, category, m1) evals).1 =
            (foldl (sequentialBody config) (results, category, m2) evals).1)
    as Hgen.
  { specialize (Hgen [] "" m1 m2 Hm).
    destruct (foldl _ ([], "", m1) evals) as [[? ?] ?],
      (foldl _ ([], "", m2) evals) as [[? ?] ?].
    cbn in *. congruence. }
  clear m1 m2 Hm.
  induction evals as [|e evals IH]; intros results category m1 m2 Hm; [done |].
  cbn [foldl].
  destruct (sequentialBody_sameOutside config results category m1 m2 e Hm)
    as [Hout Hm'].
  destruct (sequentialBody config (results, category, m1) e)
    as [[results1 category1] ma1].
  destruct (sequentialBody config (results, category, m2) e)
    as [[results2 category2] ma2].
  cbn in Hout, Hm'. simplify_eq. by apply IH.
Qed.

(** ** The worker pool *)

Lemma bind_insert_perm {A B} (f : A → list B) (l : list A) (i : nat)
    (x y : A) :
  l !! i = Some x →
  f x ++ (<[i := y]> l ≫= f) ≡ₚ f y ++ (l ≫= f).
Proof.
  revert i. induction l as [|a l IH]; intros [|i] Hi; simplify_eq/=.
  - apply Permutation_app_swap_app.
  - rewrite Permutation_app_swap_app, (IH i Hi).
    apply Permutation_app_swap_app.
Qed.

Lemma bind_insert_same {A B} (f : A → list B) (l : list A) (i : nat)
    (x y : A) :
  l !! i = Some x → f x = f y → <[i := y]> l ≫= f = l ≫= f.
Proof.
  revert i. induction l as [|a l IH]; intros [|i] Hi Hf; simplify_eq/=.
  - by rewrite Hf.
  - by rewrite (IH i).
Qed.

Lemma sum_list_insert {A} (g : A → nat) (l : list A) (i : nat) (x y : A) :
  l !! i = Some x →
  (sum_list (g <$> <[i := y]> l) + g x = sum_list (g <$> l) + g y)%nat.
Proof.
  revert i. induction l as [|a l IH]; intros [|i] Hi; simplify_eq/=.
  - lia.
  - specialize (IH i Hi). lia.
Qed.

Lemma invoke_label (job : evalJob World) m :
  resultLabel
    (invoke (evalJob.eval job)
       (modeName (evalJob.eval job) (evalJob.streaming job)) m).1 =
  jobLabel job.
Proof. unfold invoke. by destruct (Eval.Run _ _ _). Qed.

(** No step loses, adds or relabels a combination. *)
Lemma step_labels config (p p' : Pool World) :
  step config p p' → poolLabels p' ≡ₚ poolLabels p.
Proof.
  unfold poolLabels.
  destruct 1 as [job pending i ws c rs m Hi | | mn i ws c rs m Hc Hi
                | mn i job ws c rs m Hi | mn i job ws c rs m Hi
                | mn i job ws c rs m Hi | mn i r ws c rs m Hi
                | mn i r ws c rs m Hi | mn i r ws rs m Hi
                | | | ];
    try subst run; cbn [main workers results pendingJobs]; try done;
    try (by rewrite (bind_insert_same workerLabels ws i _ _ Hi)
           by (cbn [workerLabels]; by rewrite ?invoke_label)).
  - pose proof (bind_insert_perm workerLabels ws i _ (SettingMode job) Hi)
      as Hperm.
    cbn [workerLabels app] in Hperm. rewrite Hperm, fmap_cons.
    apply Permutation_app_head, Permutation_middle.
  - pose proof (bind_insert_perm workerLabels ws i _ Receiving Hi) as Hperm.
    cbn [workerLabels app] in Hperm. rewrite <- Hperm, fmap_app.
    rewrite <- (assoc_L (++)). apply Permutation_app_head. done.
Qed.

Lemma rtc_step_labels config (p p' : Pool World) :
  rtc (step config) p p' → poolLabels p' ≡ₚ poolLabels p.
Proof.
  induction 1 as [|p p1 p2 Hstep _ IH]; [done |].
  by rewrite IH, (step_labels config p p1).
Qed.

(** Every step uses up some of the weight. *)
Lemma step_weight config (p p' : Pool World) :
  step config p p' → (poolWeight p' < poolWeight p)%nat.
Proof.
  unfold poolWeight.
  destruct 1 as [job pending i ws c rs m Hi | | mn i ws c rs m Hc Hi
                | mn i job ws c rs m Hi | mn i job ws c rs m Hi
                | mn i job ws c rs m Hi | mn i r ws c rs m Hi
                | mn i r ws c rs m Hi | mn i r ws rs m Hi
                | | | ];
    cbn [main workers collecting mainWeight length]; try lia;
    match goal with
    | |- context [<[_ := ?w]> _] =>
        pose proof (sum_list_insert workerWeight ws i _ w Hi) as Hsum;
        cbn [workerWeight] in Hsum; lia
    end.
Qed.

Lemma insert_not_nil {A} (l : list A) (i : nat) (x : A) :
  l ≠ [] → <[i := x]> l ≠ [].
Proof.
  intros Hl Hnil. apply (f_equal length) in Hnil.
  rewrite length_insert in Hnil. by destruct l.
Qed.

Lemma all_exited_lookup (ws : list (Worker World)) (i : nat) (w : Worker World) :
  Forall (λ w, w = Exited) ws → ws !! i = Some w → w = Exited.
Proof. intros Hall Hi. by apply (Forall_lookup_1 _ _ _ _ Hall Hi). Qed.

Lemma all_exited_or_not (ws : list (Worker World)) :
  Forall (λ w, w = Exited) ws ∨ ∃ i w, ws !! i = Some w ∧ w ≠ Exited.
Proof.
  induction ws as [|w ws [IH|(i & w' & Hi & Hw')]].
  - by left.
  - destruct w; try (right; by eexists 0%nat, _). left. by constructor.
  - right. by exists (S i), w'.
Qed.

(** The steps keep the goroutines where the code can have put them. *)
Lemma step_consistent config (p p' : Pool World) :
  step config p p' → consistent p → consistent p'.
Proof.
  unfold consistent.
  destruct 1 as [job pending i ws c rs m Hi | | mn i ws c rs m Hc Hi
                | mn i job ws c rs m Hi | mn i job ws c rs m Hi
                | mn i job ws c rs m Hi | mn i r ws c rs m Hi
                | mn i r ws c rs m Hi | mn i r ws rs m Hi
                | ws c rs m Hall | | ];
    cbn [main workers collecting]; intros [Hne Hmain];
    (split; [by (done || apply insert_not_nil) |]);
    try (destruct mn; try done);
    repeat match goal with
           | H : _ ∧ _ |- _ => destruct H
           | |- _ ∧ _ => split
           end;
    try done;
    try (by apply Forall_insert);
    try (exfalso;
         match goal with
         | Hall : Forall (λ w, w = Exited) ws |- _ =>
             by pose proof (all_exited_lookup ws i _ Hall Hi)
         end).
Qed.

Lemma rtc_step_consistent config (p p' : Pool World) :
  rtc (step config) p p' → consistent p → consistent p'.
Proof.
  induction 1 as [|p p1 p2 Hstep _ IH]; [done |].
  intros Hp. by apply IH, (step_consistent config p p1).
Qed.

(** A worker that has not left its loop can take a step, unless it waits
    for a job that is not there yet. *)
Lemma worker_can_step config (mn : Main World) (ws : list (Worker World)) (rs : list Result)
    m (i : nat) (w : Worker World) :
  ws !! i = Some w →
  w ≠ Exited →
  (w = Receiving →
   jobsClosed mn = true ∨ ∃ job pending, mn = Submitting (job :: pending)) →
  ∃ p', step config (mkPool mn ws true rs m) p'.
Proof.
  intros Hi Hw Hrecv. destruct w as [|job|job|job|r|r|r|]; [| | | | | | |done].
  - destruct (Hrecv eq_refl) as [Hc|(job & pending & ->)].
    + eexists. by apply step_exit.
    + eexists. by apply step_send.
  - eexists. by eapply step_set_mode.
  - eexists. by eapply step_start_log.
  - eexists. by eapply step_invoke.
  - eexists. by eapply step_log_result.
  - eexists. by eapply step_end_log.
  - eexists. by eapply step_collect.
Qed.

(** No deadlock: a pool that has not returned can take a step. *)
Lemma consistent_progress config (p : Pool World) :
  consistent p → main p ≠ Returned → ∃ p', step config p p'.
Proof.
  destruct p as [mn ws c rs m]. unfold consistent. cbn [main workers collecting].
  intros [Hne Hmain] Hmn. destruct mn as [[|job pending]| | |]; [| | | |done].
  - eexists. apply step_close.
  - destruct Hmain as [-> Hall]. destruct ws as [|w ws]; [done |].
    apply Forall_cons in Hall as [Hw _].
    apply (worker_can_step config _ _ _ _ 0%nat w); [done | done |].
    intros _. right. eauto.
  - subst c.
    destruct (all_exited_or_not ws) as [Hall|(i & w & Hi & Hw)].
    + eexists. by apply step_workers_done.
    + apply (worker_can_step config _ _ _ _ i w); [done | done |].
      intros _. by left.
  - destruct c; eexists; [apply step_collector_done | apply step_return].
Qed.


(** Every pool the code can be in runs on until [runParallel] returns,
    whatever the schedule: no step is stuck before, and the weight bounds
    the number of steps. *)
Lemma consistent_returns config (p : Pool World) :
  consistent p →
  ∃ ws rs m', rtc (step config) p (mkPool Returned ws false rs m').
Proof.
  remember (poolWeight p) as n eqn:Hn. revert p Hn.
  induction n as [n IH] using lt_wf_ind. intros p -> Hp.
  assert (main p = Returned ∨ main p ≠ Returned) as [Hret|Hrun]
    by (destruct (main p); by (left + right)).
  - destruct p as [mn ws c rs m]. cbn in Hret. subst mn.
    destruct Hp as [_ [Hc _]]. cbn in Hc. subst c.
    by exists ws, rs, m.
  - destruct (consistent_progress config p Hp Hrun) as [p' Hstep].
    destruct (IH (poolWeight p') (step_weight config p p' Hstep) p' eq_refl
                (step_consistent config p p' Hstep Hp))
      as (ws & rs & m' & Hrun').
    exists ws, rs, m'. by eapply rtc_l.
Qed.

Lemma initPool_consistent config (evals : list (Eval World)) m :
  1 < RunnerConfig.Jobs config → consistent (initPool config evals m).
Proof.
  intros Hjobs. unfold consistent, initPool. cbn [main workers collecting].
  split.
  - destruct (Z.to_nat (RunnerConfig.Jobs config)) eqn:Hn; [lia | done].
  - split; [done |]. by apply Forall_replicate.
Qed.

Lemma initPool_labels config (evals : list (Eval World)) m :
  poolLabels (initPool config evals m) =
  jobLabel <$> combinations config evals.
Proof.
  unfold poolLabels, initPool. cbn [main workers results pendingJobs fmap
    list_fmap app].
  rewrite jobsToSend_combinations.
  generalize (Z.to_nat (RunnerConfig.Jobs config)). intros n.
  by induction n.
Qed.

(** What [runParallel] returns carries the labels of the combinations, each
    once, in some order; and it does return. *)
Lemma runParallel_labels config (evals : list (Eval World)) m
    (rs : list Result) m' :
  1 < RunnerConfig.Jobs config →
  runParallel config evals m rs m' →
  resultLabel <$> rs ≡ₚ jobLabel <$> combinations config evals.
Proof.
  intros Hjobs [ws Hrun].
  pose proof (rtc_step_labels config _ _ Hrun) as Hlabels.
  pose proof (rtc_step_consistent config _ _ Hrun
                (initPool_consistent config evals m Hjobs)) as [_ [_ Hall]].
  rewrite initPool_labels in Hlabels. rewrite <- Hlabels.
  unfold poolLabels. cbn [main workers results pendingJobs fmap list_fmap]
    in Hall |- *.
  assert (ws ≫= workerLabels = []) as ->.
  { clear -Hall. induction Hall as [|w ws -> _ IH]; [done |]. by cbn. }
  by rewrite !app_nil_r.
Qed.

Lemma runParallel_returns config (evals : list (Eval World)) m :
  1 < RunnerConfig.Jobs config →
  ∃ rs m', runParallel config evals m rs m'.
Proof.
  intros Hjobs.
  destruct (consistent_returns config _
              (initPool_consistent config evals m Hjobs))
    as (ws & rs & m' & Hrun).
  exists rs, m', ws. done.
Qed.

Lemma combinations_length config (evals : list (Eval World)) :
  length (combinations config evals) =
  (length (modesOf config) * length evals)%nat.
Proof.
  unfold combinations. induction evals as [|e evals IH]; [cbn; lia |].
  rewrite bind_cons, length_app, length_fmap. cbn [length].
  transitivity (length (modesOf config) +
                length (modesOf config) * length evals)%nat;
    [f_equal; exact IH | lia].
Qed.

(** C4. [Run] returns, and what it returns holds one Result for each
    combination of a selected case and a selected mode: the labels of the
    Results are the labels of the combinations, each as often as the
    combination occurs. Their number is the number of selected modes times
    the number of selected cases, hence twice the number of cases when the
    mode is both or unset, for any number of workers. With more than one
    worker this holds under every schedule: a pool reached from the initial
    one has returned or can take a step, and each step uses up weight. *)
Theorem one_result_per_combination config (registry : list (Eval World)) m :
  let selected := selectEvals config registry in
  (∃ rs m', Run config registry m rs m') ∧
  (∀ rs m',
     Run config registry m rs m' →
     resultLabel <$> rs ≡ₚ jobLabel <$> combinations config selected ∧
     length rs = (length (modesOf config) * length selected)%nat ∧
     (RunnerConfig.Mode config = ModeBoth ∨ RunnerConfig.Mode config = "" →
      length rs = (2 * length selected)%nat)) ∧
  (∀ p : Pool World,
     1 < RunnerConfig.Jobs config →
     rtc (step config) (initPool config selected m) p →
     (main p = Returned ∨ ∃ p', step config p p') ∧
     (∀ p', step config p p' → (poolWeight p' < poolWeight p)%nat)).
Proof.
  intros selected. split; [|split].
  - destruct (decide (RunnerConfig.Jobs config ≤ 1)) as [Hseq|Hpar].
    + eexists _, _. by apply Run_sequential.
    + destruct (runParallel_returns config selected m) as (rs & m' & Hrun);
        [lia |].
      exists rs, m'. apply Run_parallel; [lia | done].
  - intros rs m' Hrun.
    assert (resultLabel <$> rs ≡ₚ jobLabel <$> combinations config selected)
      as Hlabels.
    { destruct Hrun as [Hseq|rs m' Hpar Hrun].
      - by rewrite runSequential_labels.
      - by apply (runParallel_labels config selected m rs m'). }
    assert (length rs = (length (modesOf config) * length selected)%nat)
      as Hlen.
    { apply Permutation_length in Hlabels.
      by rewrite !length_fmap, combinations_length in Hlabels. }
    split; [done |]. split; [done |].
    intros Hmode. rewrite Hlen. unfold modesOf, effectiveMode.
    destruct Hmode as [-> | ->]; done.
  - intros p Hjobs Hrun. split; [|apply step_weight].
    pose proof (rtc_step_consistent config _ _ Hrun
                  (initPool_consistent config selected m Hjobs)) as Hp.
    assert (main p = Returned ∨ main p ≠ Returned) as [Hret|Hnot]
      by (destruct (main p); by (left + right)).
    + by left.
    + right. by apply consistent_progress.
Qed.

(** C5, as the code has it. Whether or not a case has the setter, it is run
    once for each mode the configuration selects, by the sequential runner
    and by the worker pool alike, and each Result is named after the mode of
    its run: the case name followed by " (blocking)" or " (streaming)".
    Under both modes, which is also the default, that is a blocking run and
    a streaming run, in this order in the sequential runner, whose Results
    are those of [runSingleEval] called once per mode. The setter is
    the only way the mode reaches a case: with it, the [streaming] field is
    set to the mode of the run before the body is called, and the body runs
    on that value; without it, the field is left as it was, by one run and
    by the runs of all modes, and the body runs on what it held. *)
Theorem mode_reaches_a_case_only_through_the_setter
    config e (streaming : bool) m :
  let out := runSingleEval e streaming m in
  let seen :=
    if Eval.streamModeEval e then streaming else streamingField m e in
  let named (mode : bool) :=
    Eval.Name e +:+ (if mode then " (streaming)" else " (blocking)") in
  (RunnerConfig.Mode config = "" ∨ RunnerConfig.Mode config = ModeBoth →
   modesOf config = [false; true]) ∧
  (RunnerConfig.Mode config = ModeBlocking → modesOf config = [false]) ∧
  (RunnerConfig.Mode config = ModeStreaming → modesOf config = [true]) ∧
  runEvalInModes config e m =
    foldl
      (λ state mode,
         let run := runSingleEval e mode state.2 in
         (state.1 ++ [run.1], run.2))
      ([], m) (modesOf config) ∧
  Result.Name <$> (runEvalInModes config e m).1 = named <$> modesOf config ∧
  length (runEvalInModes config e m).1 = length (modesOf config) ∧
  jobsToSend config [e] = evalJob.mk e <$> modesOf config ∧
  (∀ rs m',
     1 < RunnerConfig.Jobs config →
     runParallel config [e] m rs m' →
     Result.Name <$> rs ≡ₚ named <$> modesOf config) ∧
  Result.Name out.1 = named streaming ∧
  Machine.fields out.2 =
    (if Eval.streamModeEval e
     then <[Eval.ref e := streaming]> (Machine.fields m)
     else Machine.fields m) ∧
  Result.Passed out.1 =
    Result.Passed (Eval.Run e seen (Machine.world m)).1 ∧
  Result.Message out.1 =
    Result.Message (Eval.Run e seen (Machine.world m)).1 ∧
  (Eval.streamModeEval e = false →
   Machine.fields (runEvalInModes config e m).2 = Machine.fields m).
Proof.
  cbv zeta.
  assert (∀ mode : bool,
            modeName e mode =
            Eval.Name e +:+ (if mode then " (streaming)" else " (blocking)"))
    as Hnamed by (by intros []).
  assert (Result.Name <$> (runEvalInModes config e m).1 =
          (λ mode : bool,
             Eval.Name e +:+
             (if mode then " (streaming)" else " (blocking)"))
            <$> modesOf config) as Hnames.
  { destruct (runEvalInModes_spec config e m) as [Hlabels _].
    apply (f_equal (fmap fst)) in Hlabels.
    rewrite <- !list_fmap_compose in Hlabels.
    etrans; [exact Hlabels |]. apply list_fmap_ext. intros _ mode _.
    apply Hnamed. }
  destruct (runSingleEval_spec e streaming m) as (Hr & _ & Hf & _).
  cbv zeta in Hr, Hf. rewrite Hr, Hf.
  split; [|split; [|split]].
  { unfold modesOf, effectiveMode. by intros [-> | ->]. }
  { unfold modesOf, effectiveMode. by intros ->. }
  { unfold modesOf, effectiveMode. by intros ->. }
  split.
  { unfold runEvalInModes, modesOf.
    repeat case_decide; try done; cbn [foldl fst snd app].
    - by destruct (runSingleEval e false m).
    - by destruct (runSingleEval e true m).
    - destruct (runSingleEval e false m) as [r1 m1]. cbn [fst snd].
      by destruct (runSingleEval e true m1). }
  split; [exact Hnames |]. split.
  { apply (f_equal length) in Hnames. by rewrite !length_fmap in Hnames. }
  split.
  { rewrite jobsToSend_combinations. unfold combinations.
    by rewrite bind_singleton. }
  split.
  { intros rs m' Hjobs Hrun.
    pose proof (runParallel_labels config [e] m rs m' Hjobs Hrun) as Hlabels.
    apply (fmap_Permutation fst) in Hlabels.
    rewrite <- !list_fmap_compose in Hlabels.
    unfold combinations in Hlabels. rewrite bind_singleton in Hlabels.
    rewrite <- list_fmap_compose in Hlabels.
    etrans; [exact Hlabels |].
    assert (∀ modes : list bool,
              fst ∘ jobLabel ∘ evalJob.mk e <$> modes =
              (λ mode : bool,
                 Eval.Name e +:+
                 (if mode then " (streaming)" else " (blocking)"))
                <$> modes) as ->; [|done].
    intros modes. apply list_fmap_ext. intros _ mode _. apply Hnamed. }
  split; [apply Hnamed |]. split; [done |]. split; [done |]. split; [done |].
  intros Hsetter.
  assert (∀ (mode : bool) m0,
            Machine.fields (runSingleEval e mode m0).2 = Machine.fields m0)
    as Hkeep.
  { intros mode m0.
    destruct (runSingleEval_spec e mode m0) as (_ & _ & Hfields & _).
    cbv zeta in Hfields. by rewrite Hfields, Hsetter. }
  unfold runEvalInModes. repeat case_decide; try done.
  - pose proof (Hkeep false m) as Hkept.
    by destruct (runSingleEval e false m).
  - pose proof (Hkeep true m) as Hkept.
    by destruct (runSingleEval e true m).
  - pose proof (Hkeep false m) as Hkept.
    destruct (runSingleEval e false m) as [r1 m1].
    pose proof (Hkeep true m1) as Hkept'.
    destruct (runSingleEval e true m1) as [r2 m2]. cbn in *. congruence.
Qed.

(** ** The Logger and the worker pool *)

(** A step of a pool is a step of any pool that differs from it at most in
    the Logger and in what was printed, with the same jobs and results. *)
Lemma step_samePool config (p1 p2 p1' : Pool World) :
  samePool p1 p2 →
  step config p1 p1' →
  ∃ p2', step config p2 p2' ∧ samePool p1' p2'.
Proof.
  destruct p2 as [mn2 ws2 c2 rs2 m2]. intros (Hmn & Hws & Hc & Hrs & Hm) Hstep.
  destruct Hstep as [job pending i ws c rs m Hi | | mn i ws c rs m Hcl Hi
                    | mn i job ws c rs m Hi | mn i job ws c rs m Hi
                    | mn i job ws c rs m Hi | mn i r ws c rs m Hi
                    | mn i r ws c rs m Hi | mn i r ws rs m Hi
                    | ws c rs m Hall | | ];
    try subst run; cbn [main workers collecting results machine] in *;
    subst mn2 ws2 c2 rs2.
  - eexists. split; [by apply step_send | done].
  - eexists. split; [by apply step_close | done].
  - eexists. split; [by apply step_exit | done].
  - eexists. split; [by eapply step_set_mode |].
    repeat split; try done; by apply setMode_sameOutside.
  - eexists. split; [by eapply step_start_log |].
    repeat split; try done; by apply startLog_sameOutside.
  - destruct (invoke_sameOutside (evalJob.eval job)
                (modeName (evalJob.eval job) (evalJob.streaming job)) m m2 Hm)
      as [Hr Hm'].
    eexists. split; [by eapply step_invoke |].
    cbn zeta. rewrite Hr. by repeat split; try apply Hm'.
  - eexists. split; [by eapply step_log_result |].
    repeat split; try done; by apply logResult_sameOutside.
  - eexists. split; [by eapply step_end_log |].
    repeat split; try done; by apply endLog_sameOutside.
  - eexists. split; [by eapply step_collect |].
    repeat split; try done; by apply print_sameOutside.
  - eexists. split; [by apply step_workers_done | done].
  - eexists. split; [by apply step_collector_done | done].
  - eexists. split; [by apply step_return | done].
Qed.

Lemma rtc_step_samePool config (p1 p2 p1' : Pool World) :
  samePool p1 p2 →
  rtc (step config) p1 p1' →
  ∃ p2', rtc (step config) p2 p2' ∧ samePool p1' p2'.
Proof.
  intros Hp Hrun. revert p2 Hp.
  induction Hrun as [p1|p1 pa p1' Hstep _ IH]; intros p2 Hp.
  - by exists p2.
  - destruct (step_samePool config p1 p2 pa Hp Hstep) as (pb & Hstep2 & Hpa).
    destruct (IH pb Hpa) as (p2' & Hrun2 & Hp').
    exists p2'. split; [by eapply rtc_l | done].
Qed.

Lemma runParallel_sameOutside config (evals : list (Eval World)) m1 m2
    (rs : list Result) :
  sameOutside m1 m2 →
  (∃ m1', runParallel config evals m1 rs m1') →
  ∃ m2', runParallel config evals m2 rs m2'.
Proof.
  intros Hm (m1' & ws & Hrun).
  assert (samePool (initPool config evals m1) (initPool config evals m2))
    as Hinit by (unfold samePool, initPool; by cbn).
  destruct (rtc_step_samePool config _ _ _ Hinit Hrun)
    as ([mn2 ws2 c2 rs2 m2'] & Hrun2 & Hmn & Hws & Hc & Hrs & _).
  cbn in Hmn, Hws, Hc, Hrs. subst. by exists m2', ws2.
Qed.

Lemma Run_sameOutside config (registry : list (Eval World)) m1 m2
    (rs : list Result) :
  sameOutside m1 m2 →
  (∃ m1', Run config registry m1 rs m1') →
  ∃ m2', Run config registry m2 rs m2'.
Proof.
  intros Hm (m1' & Hrun). destruct Hrun as [Hseq|rs m1' Hpar Hrun].
  - rewrite (runSequential_sameOutside config _ m1 m2 Hm).
    eexists. by apply Run_sequential.
  - destruct (runParallel_sameOutside config _ m1 m2 rs Hm
                (ex_intro _ m1' Hrun)) as [m2' Hrun2].
    exists m2'. by apply Run_parallel.
Qed.

(** C9. The Result of a case in a mode is the same with a Logger as
    without one, [Passed] and [Message] in particular; and the lists of
    Results that [Run] can return with a Logger are those it can return
    without one. *)
Theorem logger_does_not_change_outcomes config
    (registry : list (Eval World)) e (streaming : bool) m (l : Logger) :
  (runSingleEval e streaming (withLogger (Some l) m)).1 =
    (runSingleEval e streaming (withLogger None m)).1 ∧
  Result.Passed (runSingleEval e streaming (withLogger (Some l) m)).1 =
    Result.Passed (runSingleEval e streaming (withLogger None m)).1 ∧
  Result.Message (runSingleEval e streaming (withLogger (Some l) m)).1 =
    Result.Message (runSingleEval e streaming (withLogger None m)).1 ∧
  (∀ rs : list Result,
     (∃ m', Run config registry (withLogger (Some l) m) rs m') ↔
     (∃ m', Run config registry (withLogger None m) rs m')).
Proof.
  destruct (runSingleEval_sameOutside e streaming _ _
              (sameOutside_withLogger (Some l) None m)) as [Hr _].
  rewrite Hr. repeat split; try done;
    by apply Run_sameOutside, sameOutside_withLogger.
Qed.

End RunnerProperties.

(** ** The claims that the code does not bear out, at sample cases *)

(** C5 as stated fails: a case without the setter, under the default mode
    (both) and one worker, is run twice, once labelled blocking and once
    labelled streaming, and its body does the same thing both times. *)
Lemma case_without_setter_runs_in_both_modes :
  Eval.streamModeEval (sampleEval 3 "C" ClassInterleaved false) = false ∧
  Run (sampleConfig "" 1 "") [sampleEval 3 "C" ClassInterleaved false]
    sampleMachine
    [Result.mk "C (blocking)" "Sample" true "blocked" 1;
     Result.mk "C (streaming)" "Sample" true "blocked" 1]
    (Machine.mk 2%nat ∅ None
       [Println "Sample";
        printResult false None
          (Result.mk "C (blocking)" "Sample" true "blocked" 1);
        printResult false None
          (Result.mk "C (streaming)" "Sample" true "blocked" 1)]).
Proof.
  split; [done |].
  pose proof (Run_sequential (sampleConfig "" 1 "")
                [sampleEval 3 "C" ClassInterleaved false] sampleMachine
                ltac:(done)) as Hrun.
  vm_compute in Hrun. vm_compute. exact Hrun.
Qed.

(** C8 as stated fails: with the blocking mode alone, the name of the
    Result is the case name with " (blocking)" after it, not the bare case
    name. *)
Lemma single_mode_name_is_not_bare :
  Run (sampleConfig "" 1 ModeBlocking) [sampleEval 1 "A" ClassStandard true]
    sampleMachine
    [Result.mk "A (blocking)" "Sample" true "blocked" 1]
    (Machine.mk 1%nat (<[1%nat := false]> ∅) None
       [Println "Sample";
        printResult false None
          (Result.mk "A (blocking)" "Sample" true "blocked" 1)]) ∧
  "A (blocking)" ≠ Eval.Name (sampleEval 1 "A" ClassStandard true).
Proof.
  split; [|done].
  pose proof (Run_sequential (sampleConfig "" 1 ModeBlocking)
                [sampleEval 1 "A" ClassStandard true] sampleMachine
                ltac:(done)) as Hrun.
  vm_compute in Hrun. vm_compute. exact Hrun.
Qed.

(** Three cases under the default mode with two workers: six Results. *)
Lemma one_result_per_combination_witness :
  ∃ rs m',
    Run (sampleConfig "" 2 "") sampleRegistry sampleMachine rs m' ∧
    length rs = 6%nat.
Proof.
  destruct (one_result_per_combination (sampleConfig "" 2 "") sampleRegistry
              sampleMachine) as ((rs & m' & Hrun) & Hall & _).
  exists rs, m'. split; [exact Hrun |].
  destruct (Hall rs m' Hrun) as (_ & _ & Hlen).
  apply Hlen. by right.
Defined.

(** A case without the setter under the default mode: a blocking and a
    streaming Result, and the field untouched. *)
Lemma mode_reaches_a_case_only_through_the_setter_witness :
  Result.Name
    <$> (runEvalInModes (sampleConfig "" 1 "")
           (sampleEval 3 "C" ClassInterleaved false) sampleMachine).1 =
    ["C (blocking)"; "C (streaming)"] ∧
  Machine.fields
    (runEvalInModes (sampleConfig "" 1 "")
       (sampleEval 3 "C" ClassInterleaved false) sampleMachine).2 = ∅.
Proof.
  destruct (mode_reaches_a_case_only_through_the_setter
              (sampleConfig "" 1 "") (sampleEval 3 "C" ClassInterleaved false)
              false sampleMachine)
    as (Hboth & _ & _ & _ & Hnames & _ & _ & _ & _ & _ & _ & _ & Hkeep).
  split.
  - rewrite Hnames, (Hboth (or_introl eq_refl)). reflexivity.
  - exact (Hkeep eq_refl).
Defined.

(** ** A schedule of the worker pool *)

(** With two workers and both modes, the two jobs of one case share its
    struct: when both setters run before either body, the run labelled
    blocking executes the body in streaming mode. The Results are still one
    per combination by name. *)
Remark both_jobs_of_a_case_can_run_in_one_mode :
  ∃ m',
    runParallel (sampleConfig "" 2 "") [sampleEval 1 "A" ClassStandard true]
      sampleMachine
      [Result.mk "A (blocking)" "Sample" true "streamed" 1;
       Result.mk "A (streaming)" "Sample" true "streamed" 1]
      m'.
Proof.
  eexists. unfold runParallel. eexists.
  eapply rtc_l; [by apply (step_send _ _ _ 0%nat) |]. cbn.
  eapply rtc_l; [by apply (step_send _ _ _ 1%nat) |]. cbn.
  eapply rtc_l; [by eapply (step_set_mode _ _ 0%nat) |]. cbn.
  eapply rtc_l; [by eapply (step_set_mode _ _ 1%nat) |]. cbn.
  eapply rtc_l; [by eapply (step_start_log _ _ 0%nat) |]. cbn.
  eapply rtc_l; [by eapply (step_invoke _ _ 0%nat) |]. cbn.
  eapply rtc_l; [by eapply (step_log_result _ _ 0%nat) |]. cbn.
  eapply rtc_l; [by eapply (step_end_log _ _ 0%nat) |]. cbn.
  eapply rtc_l; [by eapply (step_collect _ _ 0%nat) |]. cbn.
  eapply rtc_l; [by eapply (step_start_log _ _ 1%nat) |]. cbn.
  eapply rtc_l; [by eapply (step_invoke _ _ 1%nat) |]. cbn.
  eapply rtc_l; [by eapply (step_log_result _ _ 1%nat) |]. cbn.
  eapply rtc_l; [by eapply (step_end_log _ _ 1%nat) |]. cbn.
  eapply rtc_l; [by eapply (step_collect _ _ 1%nat) |]. cbn.
  eapply rtc_l; [by apply step_close |].
  eapply rtc_l; [by apply (step_exit _ _ 0%nat) |]. cbn.
  eapply rtc_l; [by apply (step_exit _ _ 1%nat) |]. cbn.
  eapply rtc_l; [apply step_workers_done; by repeat constructor |].
  eapply rtc_l; [by apply step_collector_done |].
  eapply rtc_l; [by apply step_return |].
  vm_compute. apply rtc_refl.
Qed.

(** * More of the code *)

(** ** parseSSEStream: how the loop is left *)

Section Consumption.

Variable json_Unmarshal : string → ChatCompletionChunk + error.

(** Lines that all let the loop go on are read through, whatever follows. *)
Lemma scanLoop_app (read rest : list string) :
  ∀ (calls : nat) (l : Locals),
    Forall (λ line, goesOn json_Unmarshal line = true) read →
    scanLoop json_Unmarshal (read ++ rest) calls l =
    scanLoop json_Unmarshal rest (calls + length read)
      (scanLoop json_Unmarshal read calls l).1.1.
Proof.
  induction read as [|line read IH]; intros calls l Hread.
  - cbn. by rewrite Nat.add_0_r.
  - apply Forall_cons in Hread as [Hline Hread].
    cbn [app scanLoop length]. unfold goesOn in Hline. unfold loopBody.
    destruct (negb (HasPrefix line "data: ")).
    { rewrite IH by done. f_equal. lia. }
    case_decide; [done |].
    destruct (json_Unmarshal _) as [chunk|err]; [|done].
    rewrite IH by done. f_equal. lia.
Qed.

Lemma scanLoop_goesOn (read : list string) (calls : nat) (l : Locals) :
  Forall (λ line, goesOn json_Unmarshal line = true) read →
  scanLoop json_Unmarshal read calls l =
  ((scanLoop json_Unmarshal read calls l).1.1,
   S (calls + length read), Continue) ∧
  rawChunks (scanLoop json_Unmarshal read calls l).1.1 =
    rawChunks l +:+ rawOf read.
Proof.
  intros Hread.
  destruct (scanLoop_raw_goesOn json_Unmarshal read [] calls l Hread)
    as (l' & Hloop & Hraw).
  rewrite app_nil_r in Hloop. cbn in Hloop. rewrite Hloop. by cbn.
Qed.

(** X1. The sentinel ends consumption: the lines after the first sentinel
    are never read. The outcome is that of the stream cut after the
    sentinel, the raw bytes stop with the sentinel line, and the call
    succeeds unless the scanner reports an error at that point. *)
Theorem sentinel_ends_consumption (scanner : Scanner)
    (read rest : list string) :
  lines scanner = read ++ "data: [DONE]" :: rest →
  Forall (λ line, goesOn json_Unmarshal line = true) read →
  parseSSEStream json_Unmarshal scanner =
    parseSSEStream json_Unmarshal
      (mkScanner (read ++ ["data: [DONE]"]) (Err scanner)) ∧
  (parseSSEStream json_Unmarshal scanner).1.2 =
    rawOf (read ++ ["data: [DONE]"]) ∧
  (parseSSEStream json_Unmarshal scanner).2 =
    (λ err, "scan stream: " +:+ err) <$> Err scanner (S (length read)).
Proof.
  intros Hlines Hread.
  assert (∀ tail,
            scanLoop json_Unmarshal (read ++ "data: [DONE]" :: tail) 0
              initLocals =
            (mkLocals
               (result (scanLoop json_Unmarshal read 0 initLocals).1.1)
               (toolCallBuilders
                  (scanLoop json_Unmarshal read 0 initLocals).1.1)
               (rawOf (read ++ ["data: [DONE]"])),
             S (length read), Break)) as Hloop.
  { intros tail. rewrite scanLoop_app by done.
    destruct (scanLoop_goesOn read 0 initLocals Hread) as [_ Hraw].
    cbn [scanLoop]. unfold loopBody.
    change (HasPrefix "data: [DONE]" "data: ") with true.
    change (TrimPrefix "data: [DONE]" "data: ") with "[DONE]".
    cbn [negb]. rewrite decide_True by done. rewrite Hraw.
    unfold rawOf. rewrite fmap_app, concatAll_app. cbn.
    by rewrite append_nil_r, append_assoc. }
  unfold parseSSEStream. cbn [lines Err]. rewrite Hlines, !Hloop.
  split; [done |]. cbn [rawChunks].
  by destruct (Err scanner (S (length read))).
Qed.

Lemma parseSSEStream_raw_whole (scanner : Scanner) :
  Forall (λ line, goesOn json_Unmarshal line = true) (lines scanner) →
  (parseSSEStream json_Unmarshal scanner).1.2 = rawOf (lines scanner).
Proof.
  intros Hread.
  destruct (scanLoop_goesOn (lines scanner) 0 initLocals Hread)
    as [Hloop Hraw].
  unfold parseSSEStream. rewrite Hloop. cbn [Nat.add].
  by destruct (Err scanner (S (length (lines scanner)))); cbn; rewrite Hraw.
Qed.

(** X2. A stream that runs out without a sentinel is read whole: the raw
    bytes are all its lines, and the call fails exactly when the scanner
    reports an error after its last call, with that error wrapped. *)
Theorem exhausted_stream_outcome (scanner : Scanner) :
  Forall (λ line, goesOn json_Unmarshal line = true) (lines scanner) →
  (parseSSEStream json_Unmarshal scanner).1.2 = rawOf (lines scanner) ∧
  (parseSSEStream json_Unmarshal scanner).2 =
    (λ err, "scan stream: " +:+ err)
      <$> Err scanner (S (length (lines scanner))) ∧
  (is_Some (parseSSEStream json_Unmarshal scanner).1.1 ↔
   Err scanner (S (length (lines scanner))) = None).
Proof.
  intros Hread.
  destruct (scanLoop_goesOn (lines scanner) 0 initLocals Hread)
    as [Hloop Hraw].
  unfold parseSSEStream. rewrite Hloop. cbn [Nat.add].
  destruct (Err scanner (S (length (lines scanner)))) as [err|];
    cbn; rewrite Hraw; cbn; (split; [done |]); (split; [done |]).
  - split; [by intros [? ?] | done].
  - split; [done | by eexists].
Qed.

(** Lines without the data prefix change nothing but the raw bytes. *)
Lemma scanLoop_data_lines (tokens : list string) :
  ∀ (calls calls' : nat) (l l' : Locals),
    result l = result l' →
    toolCallBuilders l = toolCallBuilders l' →
    let out := scanLoop json_Unmarshal tokens calls l in
    let out' :=
      scanLoop json_Unmarshal
        (filter (λ line, HasPrefix line "data: " = true) tokens) calls' l' in
    result out.1.1 = result out'.1.1 ∧
    toolCallBuilders out.1.1 = toolCallBuilders out'.1.1 ∧
    out.2 = out'.2.
Proof.
  induction tokens as [|line tokens IH]; intros calls calls' l l' Hr Hb;
    cbv zeta.
  - done.
  - rewrite filter_cons.
    destruct (decide (HasPrefix line "data: " = true)) as [Hdata|Hdata].
    + cbn [scanLoop]. unfold loopBody. rewrite Hdata. cbn [negb].
      case_decide; [done |].
      destruct (json_Unmarshal _) as [chunk|err]; [|done].
      apply IH; by apply processChunk_ext.
    + cbn [scanLoop]. unfold loopBody.
      apply not_true_is_false in Hdata. rewrite Hdata. cbn [negb].
      by apply IH.
Qed.

(** X3. Lines that do not start with the data prefix are ignored for the
    accumulation: with a reader that does not fail, the result and the
    error are those of the stream with these lines taken out. *)
Theorem non_data_lines_are_ignored (tokens : list string) :
  let kept := filter (λ line, HasPrefix line "data: " = true) tokens in
  (parseSSEStream json_Unmarshal (mkScanner tokens (λ _, None))).1.1 =
    (parseSSEStream json_Unmarshal (mkScanner kept (λ _, None))).1.1 ∧
  (parseSSEStream json_Unmarshal (mkScanner tokens (λ _, None))).2 =
    (parseSSEStream json_Unmarshal (mkScanner kept (λ _, None))).2.
Proof.
  cbv zeta. unfold parseSSEStream. cbn [lines Err].
  pose proof (scanLoop_data_lines tokens 0 0 initLocals initLocals
                eq_refl eq_refl) as (Hr & Hb & Hflow).
  cbv zeta in Hr, Hb, Hflow.
  destruct (scanLoop json_Unmarshal tokens 0 initLocals)
    as [[l calls] flow].
  destruct (scanLoop json_Unmarshal (filter _ tokens) 0 initLocals)
    as [[l' calls'] flow'].
  cbn in Hr, Hb, Hflow. subst flow'.
  destruct flow; cbn; by rewrite ?Hr, ?Hb.
Qed.

End Consumption.

(** ** parseSSEStream: what accumulates *)

Lemma length_filter_all {A} (P : A → Prop) `{!∀ x, Decision (P x)}
    (l : list A) :
  length (filter P l) = length l ↔ Forall P l.
Proof.
  induction l as [|x l IH]; [by split |].
  rewrite filter_cons, Forall_cons. case_decide as Hx; cbn.
  - rewrite <- IH. split; [intros [= ?]; by split | intros [_ ?]; by f_equal].
  - pose proof (length_filter P l). split; [lia | by intros [? _]].
Qed.

Section Accumulation.

Variable json_Unmarshal : string → ChatCompletionChunk + error.

Lemma streamChunks_app (read more : list string) :
  Forall (λ line, goesOn json_Unmarshal line = true) read →
  streamChunks json_Unmarshal (read ++ more) =
  streamChunks json_Unmarshal read ++ streamChunks json_Unmarshal more.
Proof.
  induction 1 as [|line read Hline _ IH]; [done |].
  cbn [app streamChunks]. unfold goesOn in Hline.
  destruct (negb (HasPrefix line "data: ")); [done |].
  case_decide; [done |].
  destruct (json_Unmarshal _); [|done]. by rewrite IH.
Qed.

Lemma scanLoop_raw_extends (tokens : list string) :
  ∀ (calls : nat) (l : Locals),
    ∃ tail,
      rawChunks (scanLoop json_Unmarshal tokens calls l).1.1 =
      rawChunks l +:+ tail.
Proof.
  induction tokens as [|line tokens IH]; intros calls l.
  - exists "". cbn. by rewrite append_nil_r.
  - cbn [scanLoop]. unfold loopBody.
    destruct (negb (HasPrefix line "data: ")).
    { destruct (IH (S calls)
                  (mkLocals (result l) (toolCallBuilders l)
                     ((rawChunks l +:+ line) +:+ newline))) as [tail ->].
      eexists. cbn. by rewrite !append_assoc. }
    case_decide; [eexists; cbn; by rewrite append_assoc |].
    destruct (json_Unmarshal _) as [chunk|err];
      [|eexists; cbn; by rewrite append_assoc].
    destruct (IH (S calls)
                (processChunk
                   (mkLocals (result l) (toolCallBuilders l)
                      ((rawChunks l +:+ line) +:+ newline)) chunk))
      as [tail ->].
    destruct (foldl_processChunk [chunk]
                (mkLocals (result l) (toolCallBuilders l)
                   ((rawChunks l +:+ line) +:+ newline)))
      as (_ & _ & _ & _ & _ & _ & Hraw).
    cbn [foldl] in Hraw. rewrite Hraw. eexists. cbn.
    by rewrite !append_assoc.
Qed.

(** X4. Reading on only appends: when a stream whose lines all let the loop
    go on is continued by further lines, the content, the reasoning
    content, the chunks and the raw bytes of the longer stream start with
    those of the shorter one. *)
Theorem reading_on_only_appends (shorter longer : Scanner)
    (more : list string) (r1 r2 : StreamResult) (raw1 raw2 : string) :
  lines longer = lines shorter ++ more →
  Forall (λ line, goesOn json_Unmarshal line = true) (lines shorter) →
  parseSSEStream json_Unmarshal shorter = (Some r1, raw1, None) →
  parseSSEStream json_Unmarshal longer = (Some r2, raw2, None) →
  ∃ (content reasoning tail : string) (chunks : list ChatCompletionChunk),
    StreamResult.Content r2 = StreamResult.Content r1 +:+ content ∧
    StreamResult.ReasoningContent r2 =
      StreamResult.ReasoningContent r1 +:+ reasoning ∧
    StreamResult.Chunks r2 = StreamResult.Chunks r1 ++ chunks ∧
    raw2 = raw1 +:+ tail.
Proof.
  intros Hlines Hread Hshort Hlong.
  destruct (parseSSEStream_ok json_Unmarshal shorter r1 raw1 Hshort)
    as (HC1 & HR1 & _ & _ & HK1 & _).
  destruct (parseSSEStream_ok json_Unmarshal longer r2 raw2 Hlong)
    as (HC2 & HR2 & _ & _ & HK2 & _).
  rewrite Hlines, streamChunks_app in HC2, HR2, HK2 by done.
  unfold chunkDeltas in HC2, HR2. rewrite bind_app, fmap_app, concatAll_app
    in HC2, HR2.
  assert (raw1 = rawOf (lines shorter)) as Hraw1.
  { pose proof (parseSSEStream_raw_whole json_Unmarshal shorter Hread)
      as Hraw. by rewrite Hshort in Hraw. }
  assert (∃ tail, raw2 = raw1 +:+ tail) as [tail Htail].
  { assert (raw2 =
            rawChunks (scanLoop json_Unmarshal (lines longer) 0
                         initLocals).1.1) as ->.
    { unfold parseSSEStream in Hlong.
      destruct (scanLoop _ _ _ _) as [[l calls] flow].
      destruct flow; [| |done]; by destruct (Err longer calls);
        simplify_eq. }
    rewrite Hlines, scanLoop_app by done.
    destruct (scanLoop_goesOn json_Unmarshal (lines shorter) 0 initLocals
                Hread) as [_ Hraw].
    destruct (scanLoop_raw_extends more (0 + length (lines shorter))
                (scanLoop json_Unmarshal (lines shorter) 0 initLocals).1.1)
      as [tail ->].
    exists tail. rewrite Hraw, Hraw1. by cbn. }
  eexists _, _, tail, _. rewrite HC2, HR2, HK2.
  fold (chunkDeltas (streamChunks json_Unmarshal (lines shorter))).
  by rewrite <- HC1, <- HR1, <- HK1.
Qed.

(** X5. The accumulation looks through the boundaries of chunks and
    choices: two streams that deliver the same deltas in the same order,
    however grouped into chunks and choices, give the same content, the
    same reasoning content and the same tool calls. *)
Theorem accumulation_ignores_grouping (scanner1 scanner2 : Scanner)
    (r1 r2 : StreamResult) (raw1 raw2 : string) :
  parseSSEStream json_Unmarshal scanner1 = (Some r1, raw1, None) →
  parseSSEStream json_Unmarshal scanner2 = (Some r2, raw2, None) →
  chunkDeltas (streamChunks json_Unmarshal (lines scanner1)) =
    chunkDeltas (streamChunks json_Unmarshal (lines scanner2)) →
  StreamResult.Content r1 = StreamResult.Content r2 ∧
  StreamResult.ReasoningContent r1 = StreamResult.ReasoningContent r2 ∧
  StreamResult.ToolCalls r1 = StreamResult.ToolCalls r2.
Proof.
  intros H1 H2 Hdeltas.
  destruct (parseSSEStream_ok json_Unmarshal scanner1 r1 raw1 H1)
    as (-> & -> & -> & _ & _ & ->).
  destruct (parseSSEStream_ok json_Unmarshal scanner2 r2 raw2 H2)
    as (-> & -> & -> & _ & _ & ->).
  unfold chunkFragments. by rewrite Hdeltas.
Qed.

(** X6. No more tool calls come out than positions were seen, and none is
    dropped exactly when every position seen lies below the number of
    positions seen, that is when the positions are 0, 1, ... without a
    gap. *)
Theorem no_tool_call_is_dropped_iff_contiguous (scanner : Scanner)
    (r : StreamResult) (raw : string) :
  parseSSEStream json_Unmarshal scanner = (Some r, raw, None) →
  let builders := finalBuilders json_Unmarshal scanner in
  (length (StreamResult.ToolCalls r) ≤ size builders)%nat ∧
  (length (StreamResult.ToolCalls r) = size builders ↔
   ∀ i, is_Some (builders !! i) → 0 ≤ i < Z.of_nat (size builders)).
Proof.
  intros Hparse builders.
  destruct (parseSSEStream_ok json_Unmarshal scanner r raw Hparse)
    as (_ & _ & Hcalls & _ & _ & _).
  fold builders in Hcalls. rewrite Hcalls, buildToolCalls_spec.
  cbn [app]. rewrite length_fmap. unfold emittedPositions.
  set (n := size builders).
  assert (length (seqZ 0 (Z.of_nat n)) = n) as Hlen
    by (rewrite length_seqZ; lia).
  assert (size (list_to_set (seqZ 0 (Z.of_nat n)) : gset Z) = n) as Hsize
    by (rewrite size_list_to_set by apply NoDup_seqZ; done).
  split.
  { rewrite <- Hlen at 2. apply length_filter. }
  assert (length (filter (λ i, is_Some (builders !! i))
                    (seqZ 0 (Z.of_nat n))) = n ↔
          ∀ i, i ∈ seqZ 0 (Z.of_nat n) → is_Some (builders !! i)) as ->.
  { rewrite <- Forall_forall, <- length_filter_all. by rewrite Hlen. }
  split.
  - intros Hall i Hi.
    assert (list_to_set (seqZ 0 (Z.of_nat n)) = dom builders) as Hdom.
    { apply set_subseteq_size_eq.
      - intros j Hj. apply elem_of_list_to_set in Hj.
        by apply elem_of_dom, Hall.
      - rewrite Hsize, size_dom. done. }
    apply elem_of_dom in Hi. rewrite <- Hdom in Hi.
    apply elem_of_list_to_set, elem_of_seqZ in Hi. lia.
  - intros Hrange.
    assert (dom builders = list_to_set (seqZ 0 (Z.of_nat n))) as Hdom.
    { apply set_subseteq_size_eq.
      - intros j Hj. apply elem_of_dom in Hj.
        apply elem_of_list_to_set, elem_of_seqZ. specialize (Hrange j Hj).
        lia.
      - rewrite Hsize, size_dom. done. }
    intros i Hi. apply elem_of_dom. rewrite Hdom.
    by apply elem_of_list_to_set.
Qed.

End Accumulation.

Lemma sentinel_ends_consumption_witness :
  (parseSSEStream sampleUnmarshal
     (sampleScanner ["data: hel"; "data: [DONE]"; "data: {oops"])).1.2 =
    rawOf ["data: hel"; "data: [DONE]"] ∧
  (parseSSEStream sampleUnmarshal
     (sampleScanner ["data: hel"; "data: [DONE]"; "data: {oops"])).2 = None.
Proof.
  destruct (sentinel_ends_consumption sampleUnmarshal
              (sampleScanner ["data: hel"; "data: [DONE]"; "data: {oops"])
              ["data: hel"] ["data: {oops"] eq_refl
              ltac:(by repeat constructor)) as (_ & Hraw & Herr).
  split; [exact Hraw | exact Herr].
Defined.

Lemma exhausted_stream_outcome_witness :
  (parseSSEStream sampleUnmarshal
     (brokenScanner ["data: hel"; "data: lo"] "unexpected EOF")).1.2 =
    rawOf ["data: hel"; "data: lo"] ∧
  (parseSSEStream sampleUnmarshal
     (brokenScanner ["data: hel"; "data: lo"] "unexpected EOF")).2 =
    Some "scan stream: unexpected EOF".
Proof.
  destruct (exhausted_stream_outcome sampleUnmarshal
              (brokenScanner ["data: hel"; "data: lo"] "unexpected EOF")
              ltac:(by repeat constructor)) as (Hraw & Herr & _).
  split; [exact Hraw | exact Herr].
Defined.

Lemma reading_on_only_appends_witness :
  ∃ r1 r2 raw1 raw2 content reasoning tail chunks,
    parseSSEStream sampleUnmarshal (sampleScanner ["data: hel"]) =
      (Some r1, raw1, None) ∧
    parseSSEStream sampleUnmarshal (sampleScanner ["data: hel"; "data: lo"]) =
      (Some r2, raw2, None) ∧
    StreamResult.Content r2 = StreamResult.Content r1 +:+ content ∧
    StreamResult.ReasoningContent r2 =
      StreamResult.ReasoningContent r1 +:+ reasoning ∧
    StreamResult.Chunks r2 = StreamResult.Chunks r1 ++ chunks ∧
    raw2 = raw1 +:+ tail.
Proof.
  destruct (reading_on_only_appends sampleUnmarshal
              (sampleScanner ["data: hel"])
              (sampleScanner ["data: hel"; "data: lo"]) ["data: lo"]
              _ _ _ _ eq_refl ltac:(by repeat constructor) eq_refl eq_refl)
    as (content & reasoning & tail & chunks & Hall).
  eexists _, _, _, _, content, reasoning, tail, chunks.
  split; [reflexivity |]. split; [reflexivity |]. exact Hall.
Defined.

Lemma accumulation_ignores_grouping_witness :
  ∃ r1 r2 raw1 raw2,
    parseSSEStream sampleUnmarshalGrouped
      (sampleScanner ["data: hel"; "data: lo"]) = (Some r1, raw1, None) ∧
    parseSSEStream sampleUnmarshalGrouped (sampleScanner ["data: hel+lo"]) =
      (Some r2, raw2, None) ∧
    StreamResult.Content r1 = StreamResult.Content r2 ∧
    StreamResult.ReasoningContent r1 = StreamResult.ReasoningContent r2 ∧
    StreamResult.ToolCalls r1 = StreamResult.ToolCalls r2.
Proof.
  eexists _, _, _, _. split; [reflexivity |]. split; [reflexivity |].
  apply (accumulation_ignores_grouping sampleUnmarshalGrouped
           (sampleScanner ["data: hel"; "data: lo"])
           (sampleScanner ["data: hel+lo"]) _ _ _ _ eq_refl eq_refl).
  vm_compute. reflexivity.
Defined.

Lemma no_tool_call_is_dropped_iff_contiguous_witness :
  ∃ r raw,
    parseSSEStream sampleUnmarshal
      (sampleScanner ["data: call0"; "data: call2"]) = (Some r, raw, None) ∧
    (length (StreamResult.ToolCalls r) ≤ 2)%nat.
Proof.
  eexists _, _. split; [reflexivity |].
  destruct (no_tool_call_is_dropped_iff_contiguous sampleUnmarshal
              (sampleScanner ["data: call0"; "data: call2"]) _ _ eq_refl)
    as [Hle _].
  vm_compute in Hle. vm_compute. exact Hle.
Defined.

(** ** The runner: order, output and the log files *)

Section RunnerMore.

Context {World : Type} `{!Host World}.

Implicit Types (e : Eval World) (m : Machine World) (config : RunnerConfig).

(** X7. The selection is the registry filtered, in registry order: a case
    is selected exactly when it is registered, its name contains the
    filter, its class matches and it is not default-disabled unless all
    cases are asked for; selecting again changes nothing. *)
Theorem selection_is_a_filter config (registry : list (Eval World)) :
  selectEvals config registry `sublist_of` registry ∧
  (∀ e, e ∈ selectEvals config registry ↔
        e ∈ registry ∧
        Contains (Eval.Name e) (RunnerConfig.Filter config) = true ∧
        ClassMatches (Eval.Class e) (RunnerConfig.Class config) = true ∧
        (RunnerConfig.All config = true ∨ IsDefaultDisabled e = false)) ∧
  selectEvals config (selectEvals config registry) =
    selectEvals config registry.
Proof.
  rewrite !selectEvals_filter. split; [apply sublist_filter |]. split.
  - intros e. rewrite list_elem_of_filter. unfold selects.
    assert (Contains (Eval.Name e) "" = true) as Hempty
      by (by destruct (Eval.Name e)).
    destruct (decide (RunnerConfig.Filter config = "")) as [Hf|Hf].
    + rewrite Hf, Hempty, bool_decide_eq_true_2 by done.
      destruct (ClassMatches _ _), (RunnerConfig.All config),
        (IsDefaultDisabled e); cbn; intuition congruence.
    + rewrite bool_decide_eq_false_2 by done.
      destruct (Contains (Eval.Name e) (RunnerConfig.Filter config)),
        (ClassMatches _ _), (RunnerConfig.All config),
        (IsDefaultDisabled e); cbn; intuition congruence.
  - apply list_filter_filter_l. done.
Qed.

(** What the Logger calls of a case body add up to. *)
Lemma foldl_logBlock (l : Logger) (blocks : list string) :
  foldl logBlock l blocks =
  match Logger.current l with
  | None => l
  | Some cur =>
      Logger.mk (Logger.dir l)
        (Some
           (logFile.mk (logFile.name cur)
              (logFile.buf cur +:+ concatAll blocks)))
        (Logger.written l)
  end.
Proof.
  revert l. induction blocks as [|block blocks IH]; intros l.
  - destruct l as [d [[n b]|] written]; cbn; [|done].
    by rewrite append_nil_r.
  - cbn [foldl]. rewrite IH. unfold logBlock.
    destruct l as [d [[n b]|] written]; cbn; [|done].
    by rewrite append_assoc.
Qed.

Lemma foldl_logBlock_dir (l : Logger) (blocks : list string) :
  Logger.dir (foldl logBlock l blocks) = Logger.dir l.
Proof. rewrite foldl_logBlock. by destruct (Logger.current l). Qed.

(** What [runSingleEval] leaves alone: standard output and the directory of
    the Logger. *)
Lemma startLog_console (title : string) m :
  Machine.stdout (startLog title m) = Machine.stdout m ∧
  logDir (startLog title m) = logDir m.
Proof. by destruct m as [w f [l|] out]. Qed.

Lemma logResult_console (r : Result) m :
  Machine.stdout (logResult r m) = Machine.stdout m ∧
  logDir (logResult r m) = logDir m.
Proof.
  destruct m as [w f [l|] out]; [|done].
  unfold logResult, logDir, LogResult. cbn. by destruct (Logger.current l).
Qed.

Lemma endLog_console m :
  Machine.stdout (endLog m) = Machine.stdout m ∧
  logDir (endLog m) = logDir m.
Proof.
  destruct m as [w f [l|] out]; [|done].
  unfold endLog, logDir, EndEval. cbn.
  destruct (Logger.current l); [|done]. by destruct (os_WriteFile _ _).
Qed.

Lemma setMode_console e (streaming : bool) m :
  Machine.stdout (setMode e streaming m) = Machine.stdout m ∧
  logDir (setMode e streaming m) = logDir m.
Proof. unfold setMode. by destruct (Eval.streamModeEval e). Qed.

Lemma invoke_console e (title : string) m :
  Machine.stdout (invoke e title m).2 = Machine.stdout m ∧
  logDir (invoke e title m).2 = logDir m.
Proof.
  unfold invoke, logDir. destruct (Eval.Run e _ _). cbn. split; [done |].
  destruct (Machine.logger m); [|done]. cbn. by rewrite foldl_logBlock_dir.
Qed.

Lemma runSingleEval_logDir e (streaming : bool) m :
  logDir (runSingleEval e streaming m).2 = logDir m.
Proof.
  unfold runSingleEval.
  destruct (invoke e (modeName e streaming)
              (startLog (modeName e streaming) (setMode e streaming m)))
    as [r ma] eqn:Hinvoke.
  pose proof (invoke_console e (modeName e streaming)
                (startLog (modeName e streaming) (setMode e streaming m)))
    as [_ Hdir].
  rewrite Hinvoke in Hdir. cbn in Hdir |- *.
  destruct (endLog_console (logResult r ma)) as [_ ->].
  destruct (logResult_console r ma) as [_ ->]. rewrite Hdir.
  destruct (startLog_console (modeName e streaming) (setMode e streaming m))
    as [_ ->].
  by destruct (setMode_console e streaming m) as [_ ->].
Qed.

Lemma runEvalInModes_logDir config e m :
  logDir (runEvalInModes config e m).2 = logDir m.
Proof.
  unfold runEvalInModes. repeat case_decide; try done.
  - pose proof (runSingleEval_logDir e false m) as Hdir.
    by destruct (runSingleEval e false m).
  - pose proof (runSingleEval_logDir e true m) as Hdir.
    by destruct (runSingleEval e true m).
  - pose proof (runSingleEval_logDir e false m) as Hdir.
    destruct (runSingleEval e false m) as [r1 ma].
    pose proof (runSingleEval_logDir e true ma) as Hdir'.
    destruct (runSingleEval e true ma) as [r2 mb].
    cbn in *. congruence.
Qed.

Lemma reportResults_stdout config (rs results : list Result) m :
  Machine.stdout (reportResults config rs results m).2 =
    Machine.stdout m ++
    (printResult (RunnerConfig.Verbose config) (logDir m) <$> rs) ∧
  logDir (reportResults config rs results m).2 = logDir m.
Proof.
  unfold reportResults. revert results m.
  induction rs as [|r rs IH]; intros results m.
  - cbn. by rewrite app_nil_r.
  - cbn [foldl]. destruct (IH (results ++ [r])
      (print (printResult (RunnerConfig.Verbose config) (logDir m) r) m))
      as [-> ->].
    cbn. by rewrite <- (assoc_L (++)).
Qed.

Lemma printedSequentially_fmap (verbose : bool) (dir : option string)
    (rs : list Result) :
  printedHeaders (printResult verbose dir <$> rs) = [] ∧
  printedSequentially (printResult verbose dir <$> rs) = rs ∧
  printedByCollector (printResult verbose dir <$> rs) = [].
Proof.
  induction rs as [|r rs (IH1 & IH2 & IH3)]; [done |].
  unfold printedHeaders, printedSequentially, printedByCollector in *.
  cbn. by rewrite IH1, IH2, IH3.
Qed.

(** One iteration of the sequential loop: the header when the category
    changes, then the results of the case. *)
Lemma sequentialBody_stdout config (results : list Result)
    (category : string) m e :
  let out := sequentialBody config (results, category, m) e in
  ∃ printed rs,
    out.1.1 = results ++ rs ∧
    out.1.2 = Eval.Category e ∧
    Machine.stdout out.2 = Machine.stdout m ++ printed ∧
    printedHeaders printed = categoryChanges category [Eval.Category e] ∧
    printedSequentially printed = rs ∧
    printedByCollector printed = [].
Proof.
  cbv zeta. unfold sequentialBody.
  assert (∃ header ma,
            (if decide (Eval.Category e ≠ category)
             then (Eval.Category e, print (Println (Eval.Category e)) m)
             else (category, m)) = (Eval.Category e, ma) ∧
            Machine.stdout ma = Machine.stdout m ++ (Println <$> header) ∧
            logDir ma = logDir m ∧
            header = categoryChanges category [Eval.Category e])
    as (header & ma & -> & Hout & Hdir & Hheader).
  { cbn [categoryChanges]. case_decide as Hc.
    - by eexists [_], _.
    - rewrite <- Hc. eexists [], _.
      by rewrite app_nil_r. }
  destruct (runEvalInModes_spec config e ma) as [_ Hout'].
  pose proof (runEvalInModes_logDir config e ma) as Hdir'.
  destruct (runEvalInModes config e ma) as [rs mb].
  destruct (reportResults_spec config rs results mb) as [Hrs _].
  destruct (reportResults_stdout config rs results mb) as [Hout'' _].
  destruct (reportResults config rs results mb) as [results' mc].
  cbn in *. subst results'.
  destruct (printedSequentially_fmap (RunnerConfig.Verbose config)
              (logDir mb) rs) as (Hp1 & Hp2 & Hp3).
  exists ((Println <$> header) ++
          (printResult (RunnerConfig.Verbose config) (logDir mb) <$> rs)), rs.
  rewrite Hout'', Hout', Hout, <- (assoc_L (++)).
  unfold printedHeaders, printedSequentially, printedByCollector in *.
  rewrite !omap_app, Hp1, Hp2, Hp3, app_nil_r.
  repeat split; try done.
  - rewrite <- Hheader. clear. induction header as [|h header IH]; [done |].
    cbn. by rewrite IH.
  - clear. by induction header.
  - clear. by induction header.
Qed.

Lemma categoryChanges_app (current : string) (categories : list string)
    (category : string) :
  categoryChanges current (categories ++ [category]) =
  categoryChanges current categories ++
  categoryChanges (default current (last categories)) [category].
Proof.
  revert current. induction categories as [|c categories IH]; intros current.
  - done.
  - cbn [app categoryChanges]. rewrite IH, last_cons.
    destruct (last categories); cbn [default];
      case_decide; by rewrite <- ?app_comm_cons.
Qed.

(** X8. With one worker the cases run in the order of the registry, each
    in blocking before streaming mode, and the Results come back in that
    order. Standard output gains a header for each change of category
    along the selected cases and one line per Result, in order, and
    nothing from the collector of the worker pool. *)
Theorem sequential_run_is_in_order config (registry : list (Eval World)) m
    (rs : list Result) m' :
  RunnerConfig.Jobs config ≤ 1 →
  Run config registry m rs m' →
  let selected := selectEvals config registry in
  resultLabel <$> rs = jobLabel <$> combinations config selected ∧
  ∃ printed,
    Machine.stdout m' = Machine.stdout m ++ printed ∧
    printedHeaders printed = categoryChanges "" (Eval.Category <$> selected) ∧
    printedSequentially printed = rs ∧
    printedByCollector printed = [].
Proof.
  intros Hjobs Hrun selected.
  destruct Hrun as [_|rs m' Hpar _]; [|lia]. fold selected.
  split; [apply runSequential_labels |].
  unfold runSequential.
  enough (∀ (results : list Result) (category : string) m0,
            let out := foldl (sequentialBody config) (results, category, m0)
                         selected in
            ∃ printed rs,
              out.1.1 = results ++ rs ∧
              Machine.stdout out.2 = Machine.stdout m0 ++ printed ∧
              printedHeaders printed =
                categoryChanges category (Eval.Category <$> selected) ∧
              printedSequentially printed = rs ∧
              printedByCollector printed = []) as Hgen.
  { destruct (Hgen [] "" m) as (printed & rs & Hrs & Hout & Hh & Hp & Hc).
    destruct (foldl _ ([], "", m) selected) as [[results category] mz].
    cbn in *. subst. by exists printed. }
  generalize selected. clear. intros evals.
  induction evals as [|e evals IH] using rev_ind; intros results category m0;
    cbv zeta.
  - exists [], []. cbn. by rewrite !app_nil_r.
  - rewrite foldl_snoc.
    destruct (IH results category m0) as (p1 & rs1 & Hr1 & Ho1 & Hh1 & Hp1 & Hc1).
    destruct (foldl (sequentialBody config) (results, category, m0) evals)
      as [[results1 category1] m1] eqn:Hfold.
    cbn in Hr1, Ho1.
    assert (category1 = default category (last (Eval.Category <$> evals)))
      as Hcat.
    { clear -Hfold. revert results category m0 results1 category1 m1 Hfold.
      induction evals as [|e' evals IH] using rev_ind;
        intros results category m0 results1 category1 m1 Hfold.
      - cbn in Hfold. by simplify_eq.
      - rewrite foldl_snoc in Hfold. rewrite fmap_app.
        cbn [fmap list_fmap]. rewrite last_snoc. cbn.
        destruct (foldl (sequentialBody config) (results, category, m0) evals)
          as [[ra ca] ma].
        destruct (sequentialBody_stdout config ra ca ma e')
          as (? & ? & _ & Hc & _).
        rewrite Hfold in Hc. by cbn in Hc. }
    destruct (sequentialBody_stdout config results1 category1 m1 e)
      as (p2 & rs2 & Hr2 & _ & Ho2 & Hh2 & Hp2 & Hc2).
    exists (p1 ++ p2), (rs1 ++ rs2).
    rewrite Hr2, Ho2, Hr1, Ho1, <- !(assoc_L (++)).
    unfold printedHeaders, printedSequentially, printedByCollector in *.
    rewrite !omap_app, Hh1, Hh2, Hp1, Hp2, Hc1, Hc2, fmap_app.
    cbn [fmap list_fmap]. rewrite categoryChanges_app, Hcat.
    by repeat split.
Qed.

Lemma step_console config (p p' : Pool World) (out : list Output)
    (dir : option string) :
  step config p p' →
  Machine.stdout (machine p) =
    out ++ (printResultParallel (RunnerConfig.Verbose config) dir
              <$> results p) ∧
  logDir (machine p) = dir →
  Machine.stdout (machine p') =
    out ++ (printResultParallel (RunnerConfig.Verbose config) dir
              <$> results p') ∧
  logDir (machine p') = dir.
Proof.
  destruct 1 as [job pending i ws c rs m Hi | | mn i ws c rs m Hc Hi
                | mn i job ws c rs m Hi | mn i job ws c rs m Hi
                | mn i job ws c rs m Hi | mn i r ws c rs m Hi
                | mn i r ws c rs m Hi | mn i r ws rs m Hi
                | | | ];
    try subst run; cbn [machine results]; intros [Hout Hdir]; try done.
  - destruct (setMode_console (evalJob.eval job) (evalJob.streaming job) m)
      as [-> ->]. done.
  - destruct (startLog_console
                (modeName (evalJob.eval job) (evalJob.streaming job)) m)
      as [-> ->]. done.
  - destruct (invoke_console (evalJob.eval job)
                (modeName (evalJob.eval job) (evalJob.streaming job)) m)
      as [-> ->]. done.
  - destruct (logResult_console r m) as [-> ->]. done.
  - destruct (endLog_console m) as [-> ->]. done.
  - cbn. rewrite Hout, Hdir, fmap_app, <- (assoc_L (++)). done.
Qed.

(** X9. In the worker pool only the collecting goroutine writes to
    standard output: what a run prints is one line per Result, in the
    order of the returned list, and no category header. *)
Theorem collector_is_the_only_writer config (evals : list (Eval World)) m
    (rs : list Result) m' :
  runParallel config evals m rs m' →
  Machine.stdout m' =
  Machine.stdout m ++
  (printResultParallel (RunnerConfig.Verbose config) (logDir m) <$> rs).
Proof.
  intros [ws Hrun].
  enough (∀ p p' : Pool World,
            rtc (step config) p p' →
            Machine.stdout (machine p) =
              Machine.stdout m ++
              (printResultParallel (RunnerConfig.Verbose config) (logDir m)
                 <$> results p) ∧
            logDir (machine p) = logDir m →
            Machine.stdout (machine p') =
              Machine.stdout m ++
              (printResultParallel (RunnerConfig.Verbose config) (logDir m)
                 <$> results p') ∧
            logDir (machine p') = logDir m) as Hgen.
  { destruct (Hgen _ _ Hrun) as [Hout _]; [|done].
    cbn. by rewrite app_nil_r. }
  clear. induction 1 as [|p p1 p2 Hstep _ IH]; [done |].
  intros Hp. by apply IH, (step_console config p p1).
Qed.

(** X10. The two jobs of one case share its struct, and the pool lets both
    setters run before either body: for every case with the setter, two
    workers and both modes, there is a schedule in which the Result
    labelled blocking reports the outcome of the body run in streaming
    mode. *)
Theorem pool_can_run_a_job_in_the_other_mode config e m :
  RunnerConfig.Jobs config = 2 →
  effectiveMode config = ModeBoth →
  Eval.streamModeEval e = true →
  ∃ r1 r2 m',
    runParallel config [e] m [r1; r2] m' ∧
    Result.Name r1 = modeName e false ∧
    Result.Passed r1 = Result.Passed (Eval.Run e true (Machine.world m)).1 ∧
    Result.Message r1 = Result.Message (Eval.Run e true (Machine.world m)).1.
Proof.
  intros Hjobs Hmode Hsetter.
  set (job1 := evalJob.mk e false). set (job2 := evalJob.mk e true).
  set (m1 := setMode e true (setMode e false m)).
  set (m2 := startLog (modeName e false) m1).
  set (run1 := invoke e (modeName e false) m2).
  set (m3 := endLog (logResult run1.1 run1.2)).
  set (m4 := print (printResultParallel (RunnerConfig.Verbose config)
                      (logDir m3) run1.1) m3).
  set (m5 := startLog (modeName e true) m4).
  set (run2 := invoke e (modeName e true) m5).
  set (m6 := endLog (logResult run2.1 run2.2)).
  set (m7 := print (printResultParallel (RunnerConfig.Verbose config)
                      (logDir m6) run2.1) m6).
  exists run1.1, run2.1, m7. split.
  - exists [Exited; Exited]. unfold initPool. rewrite Hjobs.
    assert (jobsToSend config [e] = [job1; job2]) as ->.
    { unfold jobsToSend. rewrite Hmode. done. }
    change (replicate (Z.to_nat 2) Receiving)
      with [@Receiving World; Receiving].
    eapply rtc_l; [by apply (step_send _ _ _ 0%nat) |].
    eapply rtc_l; [by apply (step_send _ _ _ 1%nat) |].
    eapply rtc_l; [by apply (step_set_mode _ _ 0%nat job1) |].
    eapply rtc_l; [by apply (step_set_mode _ _ 1%nat job2) |].
    eapply rtc_l; [by apply (step_start_log _ _ 0%nat job1) |].
    eapply rtc_l; [by apply (step_invoke _ _ 0%nat job1) |].
    eapply rtc_l; [by eapply (step_log_result _ _ 0%nat) |].
    eapply rtc_l; [by eapply (step_end_log _ _ 0%nat) |].
    eapply rtc_l; [by eapply (step_collect _ _ 0%nat) |].
    eapply rtc_l; [by apply (step_start_log _ _ 1%nat job2) |].
    eapply rtc_l; [by apply (step_invoke _ _ 1%nat job2) |].
    eapply rtc_l; [by eapply (step_log_result _ _ 1%nat) |].
    eapply rtc_l; [by eapply (step_end_log _ _ 1%nat) |].
    eapply rtc_l; [by eapply (step_collect _ _ 1%nat) |].
    eapply rtc_l; [by apply step_close |].
    eapply rtc_l; [by apply (step_exit _ _ 0%nat) |].
    eapply rtc_l; [by apply (step_exit _ _ 1%nat) |].
    eapply rtc_l; [apply step_workers_done; by repeat constructor |].
    eapply rtc_l; [by apply step_collector_done |].
    eapply rtc_l; [by apply step_return |].
    apply rtc_refl.
  - assert (streamingField m2 e = true) as Hfield.
    { unfold streamingField, m2, m1, startLog, setMode. rewrite Hsetter.
      destruct (Machine.logger m); cbn; by rewrite lookup_insert_eq. }
    assert (Machine.world m2 = Machine.world m) as Hworld.
    { unfold m2, m1, startLog, setMode. rewrite Hsetter.
      by destruct (Machine.logger m). }
    unfold run1, invoke. rewrite Hfield, Hworld.
    by destruct (Eval.Run e true (Machine.world m)).
Qed.

(** The Logger after the calls of one run, whatever log was in progress
    before. *)
Lemma log_of_one_run (l : Logger) (title : string) (started : Z)
    (blocks : list string) (passed : bool) (message : string) :
  (EndEval
     (LogResult (foldl logBlock (StartEval l started title) blocks)
        passed message)).1 =
  match os_WriteFile (logPath (Logger.dir l) title)
          (logText title started blocks passed message) with
  | None =>
      Logger.mk (Logger.dir l) None
        (Logger.written l ++
           [(logPath (Logger.dir l) title,
             logText title started blocks passed message)])
  | Some _ =>
      Logger.mk (Logger.dir l)
        (Some
           (logFile.mk title (logText title started blocks passed message)))
        (Logger.written l)
  end.
Proof.
  rewrite foldl_logBlock.
  unfold EndEval, LogResult, StartEval, logPath, logText.
  cbn [Logger.current Logger.dir Logger.written logFile.name logFile.buf].
  destruct passed; cbn [negb]; case_decide;
    rewrite ?append_nil_r, ?append_assoc;
    by destruct (os_WriteFile _ _).
Qed.

Lemma runSingleEval_logger e (streaming : bool) m (l : Logger) :
  let out := runSingleEval e streaming (withLogger (Some l) m) in
  let seen :=
    if Eval.streamModeEval e then streaming else streamingField m e in
  Machine.logger out.2 =
  Some
    (EndEval
       (LogResult
          (foldl logBlock
             (StartEval l (now (Machine.world m)) (modeName e streaming))
             (Eval.Logged e seen (Machine.world m)))
          (Result.Passed out.1) (Result.Message out.1))).1.
Proof.
  cbv zeta.
  destruct m as [w fields lg out]. unfold runSingleEval, withLogger.
  cbn [Machine.world Machine.fields Machine.stdout].
  unfold setMode, startLog, invoke, logResult, endLog, streamingField.
  destruct (Eval.streamModeEval e);
    cbn [Machine.world Machine.fields Machine.logger Machine.stdout];
    rewrite ?lookup_insert_eq; cbn [default];
    by destruct (Eval.Run e _ w).
Qed.

(** X11. A run with a Logger writes its own log file: whatever log was in
    progress, [runSingleEval] leaves the Logger with the file named after
    the mode-qualified name written, holding the header, then the blocks
    that the case body logged through the client, then the result of this
    run, and no log in progress; when the write fails, nothing is written
    and the log stays in progress. *)
Theorem run_writes_its_own_log e (streaming : bool) m (l : Logger) :
  let out := runSingleEval e streaming (withLogger (Some l) m) in
  let seen :=
    if Eval.streamModeEval e then streaming else streamingField m e in
  let title := modeName e streaming in
  let text :=
    logText title (now (Machine.world m))
      (Eval.Logged e seen (Machine.world m))
      (Result.Passed out.1) (Result.Message out.1) in
  Machine.logger out.2 =
  Some
    match os_WriteFile (logPath (Logger.dir l) title) text with
    | None =>
        Logger.mk (Logger.dir l) None
          (Logger.written l ++ [(logPath (Logger.dir l) title, text)])
    | Some _ =>
        Logger.mk (Logger.dir l) (Some (logFile.mk title text))
          (Logger.written l)
    end.
Proof.
  cbv zeta. rewrite <- log_of_one_run. apply runSingleEval_logger.
Qed.

Lemma runSingleEval_written e (streaming : bool) m (l : Logger) :
  (∀ path text, os_WriteFile path text = None) →
  Machine.logger m = Some l →
  ∃ text,
    Machine.logger (runSingleEval e streaming m).2 =
    Some
      (Logger.mk (Logger.dir l) None
         (Logger.written l ++
            [(logPath (Logger.dir l) (modeName e streaming), text)])).
Proof.
  intros Hwrite Hl.
  assert (m = withLogger (Some l) m) as ->
    by (destruct m; cbn in Hl; by subst).
  pose proof (runSingleEval_logger e streaming m l) as Hlog.
  cbv zeta in Hlog. rewrite log_of_one_run, Hwrite in Hlog. by eexists.
Qed.

Lemma runEvalInModes_written config e m (l : Logger) :
  (∀ path text, os_WriteFile path text = None) →
  Machine.logger m = Some l →
  ∃ l',
    Machine.logger (runEvalInModes config e m).2 = Some l' ∧
    Logger.dir l' = Logger.dir l ∧
    (Logger.written l').*1 =
      (Logger.written l).*1 ++
      ((λ streaming, logPath (Logger.dir l) (modeName e streaming))
         <$> modesOf config).
Proof.
  intros Hwrite Hl. unfold runEvalInModes, modesOf.
  repeat case_decide.
  - destruct (runSingleEval_written e false m l Hwrite Hl) as [text Hl1].
    destruct (runSingleEval e false m) as [r1 m1]. cbn in *.
    eexists. split; [done |]. cbn. by rewrite fmap_app.
  - destruct (runSingleEval_written e true m l Hwrite Hl) as [text Hl1].
    destruct (runSingleEval e true m) as [r1 m1]. cbn in *.
    eexists. split; [done |]. cbn. by rewrite fmap_app.
  - destruct (runSingleEval_written e false m l Hwrite Hl) as [text1 Hl1].
    destruct (runSingleEval e false m) as [r1 m1]. cbn in Hl1.
    destruct (runSingleEval_written e true m1 _ Hwrite Hl1) as [text2 Hl2].
    destruct (runSingleEval e true m1) as [r2 m2]. cbn in *.
    eexists. split; [done |]. cbn.
    by rewrite !fmap_app, <- (assoc_L (++)).
  - exists l. cbn. by rewrite app_nil_r.
Qed.

Lemma reportResults_logger config (rs results : list Result) m :
  Machine.logger (reportResults config rs results m).2 = Machine.logger m.
Proof.
  unfold reportResults. revert results m.
  induction rs as [|r rs IH]; intros results m; [done |].
  cbn [foldl]. by rewrite IH.
Qed.

Lemma sequentialBody_written config (results : list Result)
    (category : string) m e (l : Logger) :
  (∀ path text, os_WriteFile path text = None) →
  Machine.logger m = Some l →
  ∃ l',
    Machine.logger (sequentialBody config (results, category, m) e).2 =
      Some l' ∧
    Logger.dir l' = Logger.dir l ∧
    (Logger.written l').*1 =
      (Logger.written l).*1 ++
      ((λ streaming, logPath (Logger.dir l) (modeName e streaming))
         <$> modesOf config).
Proof.
  intros Hwrite Hl. unfold sequentialBody.
  assert (∃ ca ma,
            (if decide (Eval.Category e ≠ category)
             then (Eval.Category e, print (Println (Eval.Category e)) m)
             else (category, m)) = (ca, ma) ∧
            Machine.logger ma = Some l) as (ca & ma & -> & Hla).
  { case_decide; by eexists _, _. }
  destruct (runEvalInModes_written config e ma l Hwrite Hla)
    as (l' & Hl' & Hdir & Hpaths).
  destruct (runEvalInModes config e ma) as [rs mb].
  pose proof (reportResults_logger config rs results mb) as Hsame.
  destruct (reportResults config rs results mb) as [results' mc].
  cbn in *. exists l'. by rewrite Hsame.
Qed.

(** X12. With one worker and a Logger whose writes succeed, a run writes
    one log file per combination of a selected case and a selected mode, in
    the order of the run, each named after the mode-qualified name of its
    Result. *)
Theorem sequential_run_writes_one_log_per_combination config
    (registry : list (Eval World)) m (l : Logger) (rs : list Result) m' :
  (∀ path text, os_WriteFile path text = None) →
  RunnerConfig.Jobs config ≤ 1 →
  Run config registry (withLogger (Some l) m) rs m' →
  ∃ l',
    Machine.logger m' = Some l' ∧
    Logger.dir l' = Logger.dir l ∧
    (Logger.written l').*1 =
      (Logger.written l).*1 ++
      ((λ r, logPath (Logger.dir l) (Result.Name r)) <$> rs).
Proof.
  intros Hwrite Hjobs Hrun.
  destruct Hrun as [_|rs m' Hpar _]; [|lia].
  set (selected := selectEvals config registry) in *.
  pose proof (runSequential_labels config selected (withLogger (Some l) m))
    as Hlabels.
  assert ((λ r, logPath (Logger.dir l) (Result.Name r))
            <$> (runSequential config selected (withLogger (Some l) m)).1 =
          (λ job, logPath (Logger.dir l)
                    (modeName (evalJob.eval job) (evalJob.streaming job)))
            <$> combinations config selected) as ->.
  { apply (f_equal (fmap (λ label, logPath (Logger.dir l) label.1)))
      in Hlabels.
    by rewrite <- !list_fmap_compose in Hlabels. }
  clear Hlabels. unfold runSequential.
  enough (∀ (results : list Result) (category : string) m0 l0,
            Machine.logger m0 = Some l0 →
            ∃ l',
              Machine.logger
                (foldl (sequentialBody config) (results, category, m0)
                   selected).2 = Some l' ∧
              Logger.dir l' = Logger.dir l0 ∧
              (Logger.written l').*1 =
                (Logger.written l0).*1 ++
                ((λ job, logPath (Logger.dir l0)
                           (modeName (evalJob.eval job)
                              (evalJob.streaming job)))
                   <$> combinations config selected)) as Hgen.
  { destruct (Hgen [] "" (withLogger (Some l) m) l eq_refl)
      as (l' & Hl' & Hdir & Hpaths).
    destruct (foldl _ ([], "", withLogger (Some l) m) selected)
      as [[results category] mz].
    by exists l'. }
  generalize selected. clear -Hwrite. intros evals.
  induction evals as [|e evals IH]; intros results category m0 l0 Hl0.
  - exists l0. cbn. by rewrite app_nil_r.
  - cbn [foldl].
    destruct (sequentialBody_written config results category m0 e l0 Hwrite
                Hl0) as (l1 & Hl1 & Hdir1 & Hpaths1).
    destruct (sequentialBody config (results, category, m0) e)
      as [[results1 category1] m1].
    destruct (IH results1 category1 m1 l1 Hl1) as (l' & Hl' & Hdir & Hpaths).
    exists l'. split; [done |]. split; [congruence |].
    rewrite Hpaths, Hpaths1, Hdir1. unfold combinations.
    rewrite bind_cons, fmap_app, <- (assoc_L (++)), <- list_fmap_compose.
    done.
Qed.

(** X13. The Logger keeps one log in progress for all workers. For every
    case, with two workers, both modes and writes that succeed, there is a
    schedule in which both runs start their log before either ends it: the
    log of the blocking run is discarded unwritten, and the one file
    written, named after the streaming run, carries what the body of the
    blocking run logged and the result of the blocking run. What the body of
    the streaming run logs, after that file is written, goes nowhere. *)
Theorem pool_can_lose_a_log config e m (l : Logger) :
  (∀ path text, os_WriteFile path text = None) →
  RunnerConfig.Jobs config = 2 →
  effectiveMode config = ModeBoth →
  let seen := if Eval.streamModeEval e then true else streamingField m e in
  ∃ r1 r2 m' l',
    runParallel config [e] (withLogger (Some l) m) [r1; r2] m' ∧
    Result.Name r1 = modeName e false ∧
    Result.Passed r1 =
      Result.Passed (Eval.Run e seen (Machine.world m)).1 ∧
    Result.Message r1 =
      Result.Message (Eval.Run e seen (Machine.world m)).1 ∧
    Machine.logger m' = Some l' ∧
    Logger.current l' = None ∧
    Logger.written l' =
      Logger.written l ++
      [(logPath (Logger.dir l) (modeName e true),
        logText (modeName e true) (now (Machine.world m))
          (Eval.Logged e seen (Machine.world m))
          (Result.Passed r1) (Result.Message r1))].
Proof.
  intros Hwrite Hjobs Hmode seen.
  set (job1 := evalJob.mk e false). set (job2 := evalJob.mk e true).
  set (ma := setMode e true (setMode e false (withLogger (Some l) m))).
  set (mb := startLog (modeName e true) (startLog (modeName e false) ma)).
  set (run1 := invoke e (modeName e false) mb).
  set (mc := endLog (logResult run1.1 run1.2)).
  set (md := print (printResultParallel (RunnerConfig.Verbose config)
                      (logDir mc) run1.1) mc).
  set (run2 := invoke e (modeName e true) md).
  set (me := endLog (logResult run2.1 run2.2)).
  set (mf := print (printResultParallel (RunnerConfig.Verbose config)
                      (logDir me) run2.1) me).
  assert (Machine.logger mb =
          Some (StartEval (StartEval l (now (Machine.world m))
                             (modeName e false))
                  (now (Machine.world m)) (modeName e true))) as Hmb.
  { unfold mb, ma, startLog, setMode, withLogger.
    by destruct (Eval.streamModeEval e). }
  assert (streamingField mb e = seen ∧ Machine.world mb = Machine.world m)
    as [Hfield Hworld].
  { unfold mb, ma, startLog, setMode, withLogger, streamingField, seen.
    destruct (Eval.streamModeEval e); cbn; [|done].
    by rewrite lookup_insert_eq. }
  assert (Result.Name run1.1 = modeName e false ∧
          Result.Passed run1.1 =
            Result.Passed (Eval.Run e seen (Machine.world m)).1 ∧
          Result.Message run1.1 =
            Result.Message (Eval.Run e seen (Machine.world m)).1 ∧
          Machine.logger run1.2 =
          (λ l0, foldl logBlock l0 (Eval.Logged e seen (Machine.world m)))
            <$> Machine.logger mb) as (Hname & Hpassed & Hmessage & Hrun1).
  { unfold run1, invoke. rewrite Hfield, Hworld.
    by destruct (Eval.Run e _ _). }
  assert (Machine.logger mc =
          Some (Logger.mk (Logger.dir l) None
                  (Logger.written l ++
                     [(logPath (Logger.dir l) (modeName e true),
                       logText (modeName e true) (now (Machine.world m))
                         (Eval.Logged e seen (Machine.world m))
                         (Result.Passed run1.1) (Result.Message run1.1))])))
    as Hmc.
  { unfold mc, endLog, logResult. rewrite Hrun1, Hmb.
    cbn [Machine.logger fmap option_fmap option_map].
    rewrite log_of_one_run, Hwrite. done. }
  assert (Machine.logger me = Machine.logger mc) as Hme.
  { assert (Machine.logger run2.2 = Machine.logger mc) as Hrun2.
    { unfold run2, invoke.
      destruct (Eval.Run e (streamingField md e) (Machine.world md)).
      unfold md, print. cbn [Machine.logger snd]. rewrite Hmc. cbn.
      by rewrite foldl_logBlock. }
    unfold me, endLog, logResult. rewrite Hrun2, Hmc.
    cbn [Machine.logger]. done. }
  exists run1.1, run2.1, mf, (Logger.mk (Logger.dir l) None
    (Logger.written l ++
       [(logPath (Logger.dir l) (modeName e true),
         logText (modeName e true) (now (Machine.world m))
           (Eval.Logged e seen (Machine.world m))
           (Result.Passed run1.1) (Result.Message run1.1))])).
  split; [|do 3 (split; [done |]); split; [|done]].
  - exists [Exited; Exited]. unfold initPool. rewrite Hjobs.
    assert (jobsToSend config [e] = [job1; job2]) as ->.
    { unfold jobsToSend. rewrite Hmode. done. }
    change (replicate (Z.to_nat 2) Receiving)
      with [@Receiving World; Receiving].
    eapply rtc_l; [by apply (step_send _ _ _ 0%nat) |].
    eapply rtc_l; [by apply (step_send _ _ _ 1%nat) |].
    eapply rtc_l; [by apply (step_set_mode _ _ 0%nat job1) |].
    eapply rtc_l; [by apply (step_set_mode _ _ 1%nat job2) |].
    eapply rtc_l; [by apply (step_start_log _ _ 0%nat job1) |].
    eapply rtc_l; [by apply (step_start_log _ _ 1%nat job2) |].
    eapply rtc_l; [by apply (step_invoke _ _ 0%nat job1) |].
    eapply rtc_l; [by eapply (step_log_result _ _ 0%nat) |].
    eapply rtc_l; [by eapply (step_end_log _ _ 0%nat) |].
    eapply rtc_l; [by eapply (step_collect _ _ 0%nat) |].
    eapply rtc_l; [by apply (step_invoke _ _ 1%nat job2) |].
    eapply rtc_l; [by eapply (step_log_result _ _ 1%nat) |].
    eapply rtc_l; [by eapply (step_end_log _ _ 1%nat) |].
    eapply rtc_l; [by eapply (step_collect _ _ 1%nat) |].
    eapply rtc_l; [by apply step_close |].
    eapply rtc_l; [by apply (step_exit _ _ 0%nat) |].
    eapply rtc_l; [by apply (step_exit _ _ 1%nat) |].
    eapply rtc_l; [apply step_workers_done; by repeat constructor |].
    eapply rtc_l; [by apply step_collector_done |].
    eapply rtc_l; [by apply step_return |].
    apply rtc_refl.
  - unfold mf, print. cbn [Machine.logger]. by rewrite Hme, Hmc.
Qed.

Lemma filter_sublist_impl {A} (P Q : A → Prop) `{!∀ x, Decision (P x)}
    `{!∀ x, Decision (Q x)} (l : list A) :
  (∀ x, P x → Q x) → filter P l `sublist_of` filter Q l.
Proof.
  intros HPQ. induction l as [|x l IH]; [done |].
  rewrite !filter_cons. destruct (decide (P x)) as [HP|HP].
  - rewrite decide_True by auto. by constructor.
  - case_decide; [by constructor | done].
Qed.

(** X14. The classes that [runEvals] accepts are the empty one and the
    three of the chain, and along them the selection only grows: what
    standard selects, reasoning selects; what reasoning selects,
    interleaved selects; what interleaved selects, no class selects; each
    in registry order. *)
Theorem accepted_classes_select_increasingly (verbose : bool)
    (pattern : string) (all : bool) (jobs : Z) (mode : StreamMode)
    (registry : list (Eval World)) :
  let selection class :=
    selectEvals (RunnerConfig.mk verbose pattern class all jobs mode)
      registry in
  (∀ class,
     classIsValid class = true ↔
     class ∈ [""; ClassStandard; ClassReasoning; ClassInterleaved]) ∧
  selection ClassStandard `sublist_of` selection ClassReasoning ∧
  selection ClassReasoning `sublist_of` selection ClassInterleaved ∧
  selection ClassInterleaved `sublist_of` selection "".
Proof.
  cbv zeta. split.
  - intros class. unfold classIsValid, AllClasses. rewrite !elem_of_cons.
    cbn [foldl]. case_decide as Hclass.
    + unfold ClassStandard, ClassReasoning, ClassInterleaved.
      rewrite elem_of_nil.
      repeat case_bool_decide; split; try done; try (intuition congruence).
    + split; [by left | done].
  - rewrite !selectEvals_filter.
    assert (∀ c1 c2,
              (∀ class, ClassMatches class c1 = true →
                        ClassMatches class c2 = true) →
              filter (λ e : Eval World,
                        selects
                          (RunnerConfig.mk verbose pattern c1 all jobs mode) e
                        = true) registry
              `sublist_of`
              filter (λ e : Eval World,
                        selects
                          (RunnerConfig.mk verbose pattern c2 all jobs mode) e
                        = true) registry) as Hmono.
    { intros c1 c2 Hc. apply filter_sublist_impl. intros e. unfold selects.
      cbn [RunnerConfig.Filter RunnerConfig.Class RunnerConfig.All].
      specialize (Hc (Eval.Class e)).
      destruct (ClassMatches (Eval.Class e) c1); [|by rewrite andb_false_r].
      by rewrite Hc. }
    repeat split; apply Hmono; intros class;
      unfold ClassMatches, ClassStandard, ClassReasoning, ClassInterleaved;
      repeat case_decide; simplify_eq; try done; intuition congruence.
Qed.

Lemma countPassed_filter (results : list Result) :
  countPassed results =
  Z.of_nat (length (filter (λ r, Result.Passed r = true) results)).
Proof.
  unfold countPassed.
  enough (∀ passed : Z,
            foldl (λ passed r, if Result.Passed r then passed + 1 else passed)
              passed results =
            passed +
            Z.of_nat (length (filter (λ r, Result.Passed r = true) results)))
    as Hgen by (rewrite Hgen; lia).
  induction results as [|r results IH]; intros passed; [cbn; lia |].
  cbn [foldl]. etrans; [apply IH |]. rewrite filter_cons.
  destruct (Result.Passed r).
  - rewrite decide_True by done. cbn [length].
    by rewrite Nat2Z.inj_succ, <- Z.add_assoc, Z.add_1_l.
  - by rewrite decide_False by done.
Qed.

Lemma countPassed_all (results : list Result) :
  countPassed results ≤ Z.of_nat (length results) ∧
  (countPassed results = Z.of_nat (length results) ↔
   Forall (λ r, Result.Passed r = true) results).
Proof.
  unfold countPassed.
  enough (∀ passed : Z,
            ∃ k : Z,
              foldl
                (λ passed r, if Result.Passed r then passed + 1 else passed)
                passed results = passed + k ∧
              k ≤ Z.of_nat (length results) ∧
              (k = Z.of_nat (length results) ↔
               Forall (λ r, Result.Passed r = true) results)) as Hgen.
  { destruct (Hgen 0) as (k & Hk & Hle & Hall). rewrite Hk.
    split; [lia |]. rewrite <- Hall. lia. }
  induction results as [|r results IH]; intros passed.
  - exists 0. cbn. split; [lia |]. split; [lia | done].
  - cbn [foldl length]. destruct (Result.Passed r) eqn:Hr.
    + destruct (IH (passed + 1)) as (k & -> & Hle & Hall).
      exists (k + 1). split; [lia |]. split; [lia |].
      rewrite Forall_cons, <- Hall, Hr.
      split; [intros ?; split; [done | lia] | lia].
    + destruct (IH passed) as (k & -> & Hle & Hall).
      exists k. split; [lia |]. split; [lia |].
      rewrite Forall_cons, Hr. split; [lia | by intros [? _]].
Qed.

(** X15. The summary counts the Results that passed, and the process exits
    with status 1 exactly when some Result did not pass; a run that
    selected nothing exits with status 0. *)
Theorem exit_status_reflects_failures (results : list Result) :
  countPassed results =
    Z.of_nat (length (filter (λ r, Result.Passed r = true) results)) ∧
  (exitStatus results = 1 ↔ ∃ r, r ∈ results ∧ Result.Passed r = false) ∧
  (exitStatus results = 0 ↔ ∀ r, r ∈ results → Result.Passed r = true) ∧
  exitStatus [] = 0.
Proof.
  split; [apply countPassed_filter |].
  destruct (countPassed_all results) as [Hle Hall].
  split; [|split; [|done]].
  - unfold exitStatus. case_decide as Hlt.
    + split; [intros _ | done].
      assert (¬ Forall (λ r, Result.Passed r = true) results) as Hnot
        by (rewrite <- Hall; lia).
      apply not_Forall_Exists in Hnot; [|solve_decision].
      apply Exists_exists in Hnot as (r & Hr & Hfail).
      exists r. split; [done |]. cbn in Hfail.
      by destruct (Result.Passed r).
    + split; [done |]. intros (r & Hr & Hfail).
      assert (Forall (λ r, Result.Passed r = true) results) as Hyes
        by (apply Hall; lia).
      rewrite Forall_forall in Hyes. specialize (Hyes r Hr). congruence.
  - rewrite <- Forall_forall, <- Hall. unfold exitStatus.
    case_decide; split; (done || lia).
Qed.

End RunnerMore.

Lemma sequential_run_is_in_order_witness :
  ∃ rs m',
    Run (sampleConfig "" 1 "") sampleRegistry sampleMachine rs m' ∧
    Result.Name <$> rs =
      ["A (blocking)"; "A (streaming)"; "B (blocking)"; "B (streaming)";
       "C (blocking)"; "C (streaming)"] ∧
    printedHeaders (Machine.stdout m') = ["Sample"].
Proof.
  pose proof (Run_sequential (sampleConfig "" 1 "") sampleRegistry
                sampleMachine ltac:(done)) as Hrun.
  destruct (sequential_run_is_in_order (sampleConfig "" 1 "") sampleRegistry
              sampleMachine _ _ ltac:(done) Hrun)
    as (Hlabels & printed & Hout & Hheaders & _).
  eexists _, _. split; [exact Hrun |]. split.
  - apply (f_equal (fmap fst)) in Hlabels.
    rewrite <- !list_fmap_compose in Hlabels. exact Hlabels.
  - rewrite Hout. exact Hheaders.
Defined.

Lemma collector_is_the_only_writer_witness :
  ∃ m',
    runParallel (sampleConfig "" 2 "") [sampleEval 1 "A" ClassStandard true]
      sampleMachine
      [Result.mk "A (blocking)" "Sample" true "streamed" 1;
       Result.mk "A (streaming)" "Sample" true "streamed" 1]
      m' ∧
    Machine.stdout m' =
      [printResultParallel false None
         (Result.mk "A (blocking)" "Sample" true "streamed" 1);
       printResultParallel false None
         (Result.mk "A (streaming)" "Sample" true "streamed" 1)].
Proof.
  destruct both_jobs_of_a_case_can_run_in_one_mode as [m' Hrun].
  exists m'. split; [exact Hrun |].
  exact (collector_is_the_only_writer _ _ _ _ _ Hrun).
Defined.

Lemma pool_can_run_a_job_in_the_other_mode_witness :
  ∃ r1 r2 m',
    runParallel (sampleConfig "" 2 "") [sampleEval 1 "A" ClassStandard true]
      sampleMachine [r1; r2] m' ∧
    Result.Name r1 = "A (blocking)" ∧
    Result.Message r1 = "streamed".
Proof.
  destruct (pool_can_run_a_job_in_the_other_mode (sampleConfig "" 2 "")
              (sampleEval 1 "A" ClassStandard true) sampleMachine
              eq_refl eq_refl eq_refl)
    as (r1 & r2 & m' & Hrun & Hname & _ & Hmessage).
  by exists r1, r2, m'.
Defined.

Lemma sequential_run_writes_one_log_per_combination_witness :
  ∃ rs m' l',
    Run (sampleConfig "" 1 "") [sampleEval 1 "A" ClassStandard true]
      (withLogger (Some sampleLogger) sampleMachine) rs m' ∧
    Machine.logger m' = Some l' ∧
    (Logger.written l').*1 =
      ["logs/A (blocking).log"; "logs/A (streaming).log"].
Proof.
  pose proof (Run_sequential (sampleConfig "" 1 "")
                [sampleEval 1 "A" ClassStandard true]
                (withLogger (Some sampleLogger) sampleMachine) ltac:(done))
    as Hrun.
  destruct (sequential_run_writes_one_log_per_combination
              (sampleConfig "" 1 "") [sampleEval 1 "A" ClassStandard true]
              sampleMachine sampleLogger _ _ ltac:(done) ltac:(done) Hrun)
    as (l' & Hl' & _ & Hpaths).
  eexists _, _, l'. split; [exact Hrun |]. split; [exact Hl' |].
  rewrite Hpaths. vm_compute. reflexivity.
Defined.

Lemma pool_can_lose_a_log_witness :
  ∃ r1 r2 m' l',
    runParallel (sampleConfig "" 2 "") [sampleEval 1 "A" ClassStandard true]
      (withLogger (Some sampleLogger) sampleMachine) [r1; r2] m' ∧
    Result.Name r1 = "A (blocking)" ∧
    Machine.logger m' = Some l' ∧
    Logger.written l' =
      [("logs/A (streaming).log",
        concatAll
          ["=== Eval: A (streaming) ==="; newline;
           "Started: now"; newline; newline;
           ">>> REQUEST "; "<<< STREAM RESPONSE ";
           "=== Result: PASSED ==="; newline;
           "streamed"; newline])].
Proof.
  destruct (pool_can_lose_a_log (sampleConfig "" 2 "")
              (sampleEval 1 "A" ClassStandard true) sampleMachine
              sampleLogger ltac:(done) eq_refl eq_refl)
    as (r1 & r2 & m' & l' & Hrun & Hname & Hpassed & Hmessage & Hl' & _ &
        Hwritten).
  exists r1, r2, m', l'. split; [exact Hrun |]. split; [exact Hname |].
  split; [exact Hl' |].
  rewrite Hwritten, Hpassed, Hmessage. vm_compute. reflexivity.
Defined.

(** ** Requests *)

Section RequestsMore.

Context {Any : Type} `{!Boxing Any}.

Lemma overwrite_fold (extra fields : gmap string Any) :
  map_fold (λ k v m, <[k := v]> m) fields extra = extra ∪ fields.
Proof.
  apply (map_fold_weak_ind (λ r m, r = m ∪ fields)).
  - by rewrite (left_id_L ∅ (∪)).
  - intros k v m r _ ->. by rewrite insert_union_l.
Qed.

Lemma fill_fold (client request : gmap string Any) :
  map_fold
    (λ k v extra,
       match extra !! k with Some _ => extra | None => <[k := v]> extra end)
    request client
  = request ∪ client.
Proof.
  apply (map_fold_weak_ind (λ r m, r = request ∪ m)).
  - by rewrite (right_id_L ∅ (∪)).
  - intros k v m r Hk ->.
    destruct ((request ∪ m) !! k) as [x|] eqn:Hlookup.
    + apply lookup_union_Some_raw in Hlookup as [Hr | [_ Hm]];
        [| congruence].
      apply map_eq. intros k'. rewrite !lookup_union.
      destruct (decide (k' = k)) as [-> |].
      * rewrite lookup_insert_eq, Hr, Hk. done.
      * by rewrite lookup_insert_ne.
    + apply lookup_union_None in Hlookup as [Hr _].
      by rewrite insert_union_r.
Qed.

Lemma applyExtra_Extra (c : Client Any) (req : ChatCompletionRequest Any) :
  ChatCompletionRequest.Extra (applyExtra c req)
  = ChatCompletionRequest.Extra req ∪ Client.extra c.
Proof.
  unfold applyExtra. case_decide as Hsize; [| apply fill_fold].
  apply map_size_empty_inv in Hsize. rewrite Hsize.
  by rewrite (right_id_L ∅ (∪)).
Qed.

Lemma applyExtra_standardFields
    (c : Client Any) (req : ChatCompletionRequest Any) :
  standardFields (applyExtra c req) = standardFields req.
Proof. unfold applyExtra. by case_decide. Qed.

Lemma applyExtra_requestMap (c : Client Any) (req : ChatCompletionRequest Any) :
  requestMap (applyExtra c req)
  = (ChatCompletionRequest.Extra req ∪ Client.extra c) ∪ standardFields req.
Proof.
  unfold requestMap.
  by rewrite overwrite_fold, applyExtra_Extra, applyExtra_standardFields.
Qed.

(** X16. The map a request is marshalled from is its extra fields laid over
    its standard fields: an extra field replaces the standard field of the
    same name, and every other standard field is kept. *)
Theorem extra_fields_override_standard_fields
    (r : ChatCompletionRequest Any) :
  requestMap r = ChatCompletionRequest.Extra r ∪ standardFields r.
Proof. apply overwrite_fold. Qed.

(** X17. Merging the client's extra fields into a request gives the
    request's own extra fields laid over the client's: a field the request
    already names is never replaced, and nothing else of the request
    changes. *)
Theorem client_extras_never_override_request_extras
    (c : Client Any) (req : ChatCompletionRequest Any) :
  ChatCompletionRequest.Extra (applyExtra c req)
  = ChatCompletionRequest.Extra req ∪ Client.extra c
  ∧ standardFields (applyExtra c req) = standardFields req.
Proof. split; [apply applyExtra_Extra | apply applyExtra_standardFields]. Qed.

(** X18. The order of precedence in what is sent: a field of the request's
    extras, then one of the client's extras, then the standard field. *)
Theorem request_precedence (c : Client Any) (req : ChatCompletionRequest Any)
    (k : string) :
  requestMap (applyExtra c req) !! k
  = match ChatCompletionRequest.Extra req !! k with
    | Some v => Some v
    | None =>
        match Client.extra c !! k with
        | Some v => Some v
        | None => standardFields req !! k
        end
    end.
Proof.
  rewrite applyExtra_requestMap, !lookup_union.
  destruct (ChatCompletionRequest.Extra req !! k),
    (Client.extra c !! k), (standardFields req !! k); done.
Qed.

End RequestsMore.

Section PreparedRequests.

Context {Any : Type} `{!Boxing Any}.

Local Ltac standard_field :=
  unfold standardFields;
  repeat (case_decide || case_match); simplify_eq/=;
  repeat (rewrite lookup_insert_eq || (rewrite lookup_insert_ne by done));
  try done.

Lemma standardFields_model (r : ChatCompletionRequest Any) :
  standardFields r !! "model" = Some (ofString (ChatCompletionRequest.Model r)).
Proof. standard_field. Qed.

Lemma standardFields_stream (r : ChatCompletionRequest Any) :
  standardFields r !! "stream"
  = if ChatCompletionRequest.Stream r then Some (ofBool true) else None.
Proof. standard_field. Qed.

Lemma standardFields_stream_options (r : ChatCompletionRequest Any) :
  standardFields r !! "stream_options"
  = ofStreamOptions <$> ChatCompletionRequest.StreamOptions r.
Proof. standard_field. Qed.

(** X19. What a blocking call sends does not depend on the model and the
    stream flag its caller put in the request: the model is the client's and
    no stream is asked for, unless an extra field of the request or of the
    client says otherwise. *)
Theorem blocking_call_fixes_model_and_stream
    (c : Client Any) (req : ChatCompletionRequest Any) :
  let sent := requestMap (blockingRequest c req) in
  let extras := ChatCompletionRequest.Extra req ∪ Client.extra c in
  sent !! "model"
  = Some (default (ofString (Client.model c)) (extras !! "model"))
  ∧ sent !! "stream" = extras !! "stream".
Proof.
  simpl. unfold blockingRequest. rewrite applyExtra_requestMap.
  cbn [ChatCompletionRequest.Extra].
  rewrite !(lookup_union (_ ∪ _)), standardFields_model, standardFields_stream.
  cbn [ChatCompletionRequest.Model ChatCompletionRequest.Stream].
  split.
  - by destruct (_ !! "model").
  - by destruct (_ !! "stream").
Qed.

(** X20. A streaming call always asks for a stream under the client's model,
    and always sends stream options: the caller's when the request has them,
    the request for the usage otherwise. Only an extra field of the request
    or of the client replaces one of the three. *)
Theorem streaming_call_fixes_model_stream_and_options
    (c : Client Any) (req : ChatCompletionRequest Any) :
  let sent := requestMap (streamingRequest c req) in
  let extras := ChatCompletionRequest.Extra req ∪ Client.extra c in
  sent !! "model"
  = Some (default (ofString (Client.model c)) (extras !! "model"))
  ∧ sent !! "stream" = Some (default (ofBool true) (extras !! "stream"))
  ∧ sent !! "stream_options"
    = Some (default
              (ofStreamOptions
                 (default (StreamOptions.mk true)
                    (ChatCompletionRequest.StreamOptions req)))
              (extras !! "stream_options")).
Proof.
  simpl. unfold streamingRequest. rewrite applyExtra_requestMap.
  cbn [ChatCompletionRequest.Extra].
  rewrite !(lookup_union (_ ∪ _)), standardFields_model, standardFields_stream,
    standardFields_stream_options.
  cbn [ChatCompletionRequest.Model ChatCompletionRequest.Stream
       ChatCompletionRequest.StreamOptions].
  split; [| split].
  - by destruct (_ !! "model").
  - by destruct (_ !! "stream").
  - by destruct ((_ ∪ _) !! "stream_options"),
      (ChatCompletionRequest.StreamOptions req).
Qed.

End PreparedRequests.

(** ** The [--extra] flags *)

Lemma prefix_app (s t : string) : String.prefix s (s +:+ t) = true.
Proof.
  induction s as [|c s IH]; [by destruct t |].
  unfold String.append; fold String.append. simpl.
  by destruct (Ascii.ascii_dec c c).
Qed.

Lemma without_cons (c0 c : Ascii.ascii) (s : string) :
  without c0 (String c s) → c0 ≠ c ∧ without c0 s.
Proof.
  unfold without. simpl. destruct (Ascii.ascii_dec c0 c) as [-> | Hne].
  - by destruct s.
  - done.
Qed.

Lemma Index_without (c0 : Ascii.ascii) (sub' k rest : string) :
  without c0 k →
  Index (k +:+ String c0 sub' +:+ rest) (String c0 sub')
  = Z.of_nat (String.length k).
Proof.
  induction k as [|c k IH]; intros Hk.
  - unfold String.append at 1; fold String.append.
    pose proof (prefix_app (String c0 sub') rest) as Hprefix.
    destruct (String c0 sub' +:+ rest) eqn:Heq; simpl in *; [done |].
    by rewrite Hprefix.
  - apply without_cons in Hk as [Hne Hk].
    unfold String.append at 1; fold String.append.
    cbn [Index String.prefix].
    destruct (Ascii.ascii_dec c0 c); [done |].
    rewrite (IH Hk). case_decide; [lia |].
    cbn [String.length]. lia.
Qed.

Lemma Index_range (s sub : string) : Index s sub = -1 ∨ 0 ≤ Index s sub.
Proof.
  induction s as [|c s IH]; cbn [Index].
  - destruct (String.prefix sub ""); lia.
  - destruct (String.prefix sub (String c s)); [lia |]. case_decide; lia.
Qed.

Lemma Index_Contains (s sub : string) :
  Index s sub = -1 ↔ Contains s sub = false.
Proof.
  induction s as [|c s IH]; cbn [Index Contains].
  - by destruct (String.prefix sub ""); simpl.
  - destruct (String.prefix sub (String c s)); simpl; [done |].
    rewrite <- IH. case_decide; [done |].
    split; [| done]. intros Hidx.
    destruct (Index_range s sub); [done | lia].
Qed.

Lemma Index_after (c0 c1 : Ascii.ascii) (sub' k v : string) :
  without c0 k → c0 ≠ c1 →
  Index (k +:+ String c1 v) (String c0 sub')
  = if decide (Index v (String c0 sub') = -1) then -1
    else Z.of_nat (String.length k) + 1 + Index v (String c0 sub').
Proof.
  intros Hk Hne. induction k as [|c k IH].
  - unfold String.append. cbn [Index String.prefix String.length].
    destruct (Ascii.ascii_dec c0 c1); [done |].
    repeat case_decide; lia.
  - apply without_cons in Hk as [Hc Hk].
    unfold String.append; fold String.append.
    cbn [Index String.prefix String.length].
    destruct (Ascii.ascii_dec c0 c); [done |].
    rewrite (IH Hk). destruct (Index_range v (String c0 sub')).
    + repeat case_decide; lia.
    + repeat case_decide; lia.
Qed.

Lemma sliceTo_app (k rest : string) (n : nat) :
  sliceTo (k +:+ rest) (String.length k + n) = k +:+ sliceTo rest n.
Proof.
  induction k as [|c k IH].
  - done.
  - unfold String.append; fold String.append. simpl. by rewrite IH.
Qed.

Lemma sliceTo_key (k rest : string) :
  sliceTo (k +:+ rest) (String.length k) = k.
Proof.
  rewrite <- (Nat.add_0_r (String.length k)), sliceTo_app.
  apply append_nil_r.
Qed.

Lemma sliceFrom_app (k rest : string) (n : nat) :
  sliceFrom (k +:+ rest) (String.length k + n) = sliceFrom rest n.
Proof.
  induction k as [|c k IH].
  - done.
  - unfold String.append; fold String.append. simpl. by rewrite IH.
Qed.

Lemma length_append (s t : string) :
  String.length (s +:+ t) = (String.length s + String.length t)%nat.
Proof.
  induction s as [|c s IH]; [done |].
  unfold String.append; fold String.append. simpl. by rewrite IH.
Qed.

Lemma foldl_insert_pairs {V} (pairs : list (string * V)) (m : gmap string V) :
  foldl (λ m kv, <[kv.1 := kv.2]> m) m pairs
  = list_to_map (reverse pairs) ∪ m.
Proof.
  revert m. induction pairs as [|[k v] pairs IH]; intros m.
  - simpl. by rewrite (left_id_L ∅ (∪)).
  - cbn [foldl fst snd]. rewrite IH, reverse_cons, list_to_map_app.
    rewrite <- (assoc_L (∪)). f_equal.
    cbn [list_to_map foldr fst snd uncurry].
    by rewrite insert_union_singleton_l, insert_empty.
Qed.

Lemma Index_after_byte (c0 c1 : Ascii.ascii) (sub' k v : string) :
  without c0 k → c0 ≠ c1 →
  Index (k +:+ String c1 "" +:+ v) (String c0 sub')
  = if decide (Index v (String c0 sub') = -1) then -1
    else Z.of_nat (String.length k) + 1 + Index v (String c0 sub').
Proof. apply Index_after. Qed.

Section ExtraFieldsMore.

Context {Any : Type} `{!Boxing Any}.
Variable json_Unmarshal_any : string → Any + error.
Variable quote : string → string.

Lemma parseExtraLoop_pairs (extras : list string) (pairs : list (string * Any))
    (result : gmap string Any) :
  Forall2 (λ e kv, parseExtra json_Unmarshal_any quote e = inl kv)
    extras pairs →
  parseExtraLoop json_Unmarshal_any quote extras result
  = (Some (foldl (λ m kv, <[kv.1 := kv.2]> m) result pairs), None).
Proof.
  intros Hall. revert result.
  induction Hall as [|e [k v] extras pairs He _ IH]; intros result; [done |].
  cbn [parseExtraLoop foldl fst snd]. rewrite He. apply IH.
Qed.

Lemma parseExtraLoop_app (good rest : list string) (result : gmap string Any)
    (pairs : list (string * Any)) :
  Forall2 (λ e kv, parseExtra json_Unmarshal_any quote e = inl kv)
    good pairs →
  parseExtraLoop json_Unmarshal_any quote (good ++ rest) result
  = parseExtraLoop json_Unmarshal_any quote rest
      (foldl (λ m kv, <[kv.1 := kv.2]> m) result pairs).
Proof.
  intros Hall. revert result.
  induction Hall as [|e [k v] extras pairs' He _ IH]; intros result; [done |].
  cbn [app parseExtraLoop foldl fst snd]. rewrite He. apply IH.
Qed.

(** X21. A flag [key=value] is read back as it was written: for a key that
    is not empty and has neither [:] nor [=] in it, and a value in which
    [:=] does not occur, the entry stored is the key with the value as a
    string. *)
Theorem string_flag_round_trip (key value : string) :
  key ≠ "" → Contains key ":" = false → Contains key "=" = false →
  Contains value ":=" = false →
  parseExtra json_Unmarshal_any quote (key +:+ "=" +:+ value)
  = inl (key, ofString value).
Proof.
  intros Hkey Hcolon Hequal Hvalue.
  assert (0 < String.length key)%nat as Hlen
    by (destruct key; [done | simpl; lia]).
  assert (Index (key +:+ "=" +:+ value) ":=" = -1) as Hnone.
  { rewrite (Index_after_byte _ _ "=" key value Hcolon) by done.
    apply Index_Contains in Hvalue. by rewrite Hvalue. }
  pose proof (Index_without _ "" key value Hequal) as Hidx.
  unfold parseExtra. cbn zeta.
  rewrite Hnone, decide_False by lia. rewrite Hidx, decide_True by lia.
  rewrite Nat2Z.id.
  replace (Z.to_nat (Z.of_nat (String.length key) + 1))
    with (String.length key + 1)%nat by lia.
  rewrite sliceTo_key, sliceFrom_app. reflexivity.
Qed.

(** X22. A flag [key:=json] is read back as it was written: for a key that
    is not empty and has no [:] in it, the text after [:=] is what is parsed
    as JSON, its value is stored under the key, and its parse error is the
    error of the flag. *)
Theorem json_flag_round_trip (key json : string) :
  key ≠ "" → Contains key ":" = false →
  parseExtra json_Unmarshal_any quote (key +:+ ":=" +:+ json)
  = match json_Unmarshal_any json with
    | inl parsed => inl (key, parsed)
    | inr err => inr ("invalid JSON for " +:+ quote key +:+ ": " +:+ err)
    end.
Proof.
  intros Hkey Hcolon. unfold parseExtra.
  assert (0 < String.length key)%nat as Hlen
    by (destruct key; [done | simpl; lia]).
  rewrite (Index_without _ "=" key json Hcolon).
  rewrite decide_True by lia. cbn zeta.
  rewrite Nat2Z.id.
  replace (Z.to_nat (Z.of_nat (String.length key) + 2))
    with (String.length key + 2)%nat by lia.
  rewrite sliceTo_key, sliceFrom_app. simpl.
  change ("" +:+ json) with json.
  by destruct (json_Unmarshal_any json).
Qed.

(** X23. A string value cannot hold [:=]: a flag [key=value] whose value
    contains [:=] is taken for the JSON form, and whatever it stores is not
    stored under [key]. *)
Theorem string_value_cannot_hold_assignment (key value : string) (x : Any) :
  Contains key ":" = false → Contains value ":=" = true →
  parseExtra json_Unmarshal_any quote (key +:+ "=" +:+ value) ≠ inl (key, x).
Proof.
  intros Hcolon Hvalue.
  assert (0 ≤ Index value ":=") as Hidx.
  { destruct (Index_range value ":=") as [Hnone|]; [| done].
    apply Index_Contains in Hnone. congruence. }
  assert (Index (key +:+ "=" +:+ value) ":="
          = Z.of_nat (String.length key + S (Z.to_nat (Index value ":="))))
    as Hfound.
  { rewrite (Index_after_byte _ _ "=" key value Hcolon) by done.
    rewrite decide_False by lia. lia. }
  unfold parseExtra. cbn zeta.
  rewrite Hfound, decide_True by lia. rewrite Nat2Z.id.
  rewrite sliceTo_app. cbn [sliceTo].
  destruct (json_Unmarshal_any _); [| done].
  intros [= Heq _]. apply (f_equal String.length) in Heq.
  rewrite length_append in Heq. simpl in Heq. lia.
Qed.

(** X24. The first flag that cannot be read decides the outcome: its error
    is returned with no map, whatever the flags after it are. *)
Theorem first_malformed_flag_is_the_error
    (good rest : list string) (bad : string) (err : error) :
  Forall (λ e, ∃ kv, parseExtra json_Unmarshal_any quote e = inl kv) good →
  parseExtra json_Unmarshal_any quote bad = inr err →
  parseExtraFields json_Unmarshal_any quote (good ++ bad :: rest)
  = (None, Some err).
Proof.
  intros Hgood Hbad. unfold parseExtraFields.
  rewrite decide_False by (rewrite length_app; simpl; lia).
  assert (∃ pairs,
            Forall2 (λ e kv, parseExtra json_Unmarshal_any quote e = inl kv)
              good pairs)
    as [pairs Hpairs].
  { induction Hgood as [|e good [kv He] _ [pairs IH]].
    - by exists [].
    - exists (kv :: pairs). by constructor. }
  rewrite (parseExtraLoop_app _ _ _ _ Hpairs).
  cbn [parseExtraLoop]. by rewrite Hbad.
Qed.

(** X25. When every flag can be read, the map returned holds, for each key,
    the value of the last flag with that key: it is the map of the entries
    taken from the last flag to the first. *)
Theorem last_flag_of_a_key_wins
    (extras : list string) (pairs : list (string * Any)) :
  extras ≠ [] →
  Forall2 (λ e kv, parseExtra json_Unmarshal_any quote e = inl kv)
    extras pairs →
  parseExtraFields json_Unmarshal_any quote extras
  = (Some (list_to_map (reverse pairs)), None).
Proof.
  intros Hne Hpairs. unfold parseExtraFields.
  rewrite decide_False by (destruct extras; [done | simpl; lia]).
  rewrite (parseExtraLoop_pairs _ _ _ Hpairs), foldl_insert_pairs.
  by rewrite (right_id_L ∅ (∪)).
Qed.

End ExtraFieldsMore.

Lemma string_flag_round_trip_witness :
  parseExtra sampleUnmarshalAny sampleQuote "seed=abc"
  = inl ("seed", VString "abc").
Proof.
  exact (string_flag_round_trip sampleUnmarshalAny sampleQuote "seed" "abc"
           ltac:(done) eq_refl eq_refl eq_refl).
Defined.

Lemma json_flag_round_trip_witness :
  parseExtra sampleUnmarshalAny sampleQuote "n:=42" = inl ("n", VInt 42).
Proof.
  exact (json_flag_round_trip sampleUnmarshalAny sampleQuote "n" "42"
           ltac:(done) eq_refl).
Defined.

Lemma string_value_cannot_hold_assignment_witness :
  parseExtra sampleUnmarshalAny sampleQuote "note=a:=b"
  ≠ inl ("note", VString "a:=b").
Proof.
  exact (string_value_cannot_hold_assignment sampleUnmarshalAny sampleQuote
           "note" "a:=b" (VString "a:=b") eq_refl eq_refl).
Defined.

Lemma first_malformed_flag_is_the_error_witness :
  ∃ err,
    parseExtraFields sampleUnmarshalAny sampleQuote
      ["seed=abc"; "oops"; "n:=42"]
    = (None, Some err).
Proof.
  eexists.
  apply (first_malformed_flag_is_the_error sampleUnmarshalAny sampleQuote
           ["seed=abc"] ["n:=42"] "oops").
  - repeat constructor. eexists. vm_compute. reflexivity.
  - vm_compute. reflexivity.
Defined.

Lemma last_flag_of_a_key_wins_witness :
  ∃ m,
    parseExtraFields sampleUnmarshalAny sampleQuote ["seed=1"; "seed=2"]
    = (Some m, None)
    ∧ m !! "seed" = Some (VString "2").
Proof.
  eexists. split.
  - apply (last_flag_of_a_key_wins sampleUnmarshalAny sampleQuote
             ["seed=1"; "seed=2"]
             [("seed", VString "1"); ("seed", VString "2")]).
    + done.
    + repeat constructor.
  - vm_compute. reflexivity.
Defined.
